(** * Route resolution engine of gapp: client trie router and server matcher

    A shallow embedding of the two route matchers of the repository:

    - the server side of [server/preload.go]: [SplitPath], [MatchPattern],
      [MatchRoute], [SubstituteParams], [HasUnsubstitutedParam];
    - the client side [Router] class (TypeScript): the constructor,
      [addRouteToTree], [find], [findParams] and [url].

    Strings are modelled as [string] (sequences of 8-bit characters).  The
    only characters the code inspects are '/', ':' and '?', all ASCII, so the
    difference between Go's byte strings and JavaScript's UTF-16 strings does
    not show in the functions below. *)

From Stdlib Require Import Ascii String.
From stdpp Require Import base option list gmap strings.

Local Open Scope stdpp_scope.

(** ** String primitives used by both implementations *)

Module Str.

(** Membership of a character in a string (Go cut sets). *)
Fixpoint mem (c : ascii) (s : string) : bool :=
  match s with
  | EmptyString => false
  | String a s' => bool_decide (a = c) || mem c s'
  end.

(** [s.split(sep)] in JavaScript and [strings.Split(s, sep)] in Go, for a
    separator of one character (every call site passes "/").  The result is
    never empty: the empty string splits into one empty segment. *)
Fixpoint split (sep : ascii) (s : string) : list string :=
  match s with
  | EmptyString => [EmptyString]
  | String c s' =>
      if bool_decide (c = sep) then EmptyString :: split sep s'
      else match split sep s' with
           | [] => [String c EmptyString]
           | h :: t => String c h :: t
           end
  end.

(** [parts.join(sep)] in JavaScript. *)
Fixpoint join (sep : string) (l : list string) : string :=
  match l with
  | [] => EmptyString
  | [x] => x
  | x :: l' => x +:+ sep +:+ join sep l'
  end.

(** [s.startsWith(p)] / [strings.HasPrefix(s, p)]. *)
Fixpoint starts_with (s p : string) {struct p} : bool :=
  match p with
  | EmptyString => true
  | String a p' =>
      match s with
      | EmptyString => false
      | String b s' => bool_decide (b = a) && starts_with s' p'
      end
  end.

(** [s.endsWith(p)] / [strings.HasSuffix(s, p)]: [s] is [p] or its tail
    ends with [p]. *)
Fixpoint ends_with (s p : string) : bool :=
  bool_decide (s = p) ||
  match s with
  | EmptyString => false
  | String _ s' => ends_with s' p
  end.

(** The string without its last character. *)
Fixpoint drop_last (s : string) : string :=
  match s with
  | EmptyString => EmptyString
  | String c s' =>
      match s' with
      | EmptyString => EmptyString
      | String _ _ => String c (drop_last s')
      end
  end.

(** [.filter(Boolean)] on an array of strings: the empty string is the only
    falsy string. *)
Definition truthy (s : string) : bool := negb (bool_decide (s = EmptyString)).
Definition filter_Boolean (l : list string) : list string :=
  List.filter truthy l.

End Str.

(** ** Server side: [server/preload.go] *)

Module Server.

(** Go's [strings] functions used by the matcher. *)
Definition HasPrefix (s p : string) : bool := Str.starts_with s p.
Definition HasSuffix (s p : string) : bool := Str.ends_with s p.

Definition TrimPrefix (s p : string) : string :=
  if HasPrefix s p then String.substring (String.length p) (String.length s - String.length p) s
  else s.

Definition TrimSuffix (s p : string) : string :=
  if HasSuffix s p then String.substring 0 (String.length s - String.length p) s
  else s.

Fixpoint TrimLeft (s cutset : string) : string :=
  match s with
  | EmptyString => EmptyString
  | String a s' => if Str.mem a cutset then TrimLeft s' cutset else s
  end.

Fixpoint TrimRight (s cutset : string) : string :=
  match s with
  | EmptyString => EmptyString
  | String a s' =>
      match TrimRight s' cutset with
      | EmptyString => if Str.mem a cutset then EmptyString else String a EmptyString
      | r => String a r
      end
  end.

Definition Trim (s cutset : string) : string :=
  TrimRight (TrimLeft s cutset) cutset.

(** [strings.Contains(s, substr)]. *)
Fixpoint Contains (s substr : string) : bool :=
  Str.starts_with s substr ||
  match s with
  | EmptyString => false
  | String _ s' => Contains s' substr
  end.

(** [strings.ReplaceAll(s, old, new)] for a non-empty [old]: the
    non-overlapping occurrences of [old] are replaced from left to right.
    [skip] counts the characters of an occurrence still to be dropped.
    (The only call passes [":" ++ paramName], never empty; Go's special
    treatment of an empty [old] is not modelled and [s] is returned.) *)
Fixpoint replace_from (old new : string) (skip : nat) (s : string) : string :=
  match s with
  | EmptyString => EmptyString
  | String c s' =>
      match skip with
      | S k => replace_from old new k s'
      | O =>
          if Str.starts_with s old
          then new +:+ replace_from old new (String.length old - 1) s'
          else String c (replace_from old new 0 s')
      end
  end.

Definition ReplaceAll (s old new : string) : string :=
  match old with
  | EmptyString => s
  | String _ _ => replace_from old new 0 s
  end.

(** [RpcSpec] and [RouteSpec]; a Go map that may be [nil] is an [option]. *)
Record RpcSpec := mkRpcSpec {
  Method : string;
  Params : option (gmap string string)
}.

Record RouteSpec := mkRouteSpec {
  Pattern : string;
  Rpcs : list RpcSpec
}.

(** [SplitPath]. *)
Definition SplitPath (path : string) : list string :=
  let path := Trim path "/" in
  if bool_decide (path = EmptyString) then []
  else Str.split "/"%char path.

(** The loop of [MatchPattern]: [pi] indexes [pathParts], [params] is the
    map under construction; [None] is the early [return nil, false]. *)
Fixpoint matchLoop (patternParts pathParts : list string) (pi : nat)
    (params : gmap string string) : option (nat * gmap string string) :=
  match patternParts with
  | [] => Some (pi, params)
  | pp :: rest =>
      if HasPrefix pp ":" then
        let paramName := TrimSuffix (TrimPrefix pp ":") "?" in
        let optional := HasSuffix pp "?" in
        match pathParts !! pi with
        | Some seg => matchLoop rest pathParts (S pi) (<[paramName := seg]> params)
        | None => if negb optional then None else matchLoop rest pathParts pi params
        end
      else
        match pathParts !! pi with
        | Some seg =>
            if bool_decide (seg ≠ pp) then None
            else matchLoop rest pathParts (S pi) params
        | None => None
        end
  end.

(** [MatchPattern]: [Some params] stands for [(params, true)]. *)
Definition MatchPattern (pattern path : string) : option (gmap string string) :=
  let patternParts := SplitPath pattern in
  let pathParts := SplitPath path in
  match matchLoop patternParts pathParts 0 ∅ with
  | Some (pi, params) =>
      if bool_decide (pi ≠ length pathParts) then None else Some params
  | None => None
  end.

(** [MatchRoute]: the first route of the slice whose pattern matches. *)
Fixpoint MatchRoute (routes : list RouteSpec) (path : string)
    : option (RouteSpec * gmap string string) :=
  match routes with
  | [] => None
  | route :: routes' =>
      match MatchPattern (Pattern route) path with
      | Some params => Some (route, params)
      | None => MatchRoute routes' path
      end
  end.

(** [SubstituteParams].  Go iterates a map in an unspecified order, chosen
    afresh for every [range]: [range key entries] is the order in which the
    inner [range routeParams] yields [entries] while the value stored under
    [key] is processed.  The theorems assume it permutes its argument. *)
Definition RangeOrder := string -> list (string * string) -> list (string * string).

Definition substituteValue (entries : list (string * string)) (value : string) : string :=
  foldl (fun v e => ReplaceAll v (":" +:+ e.1) e.2) value entries.

Definition SubstituteParams (range : RangeOrder)
    (rpcParams : option (gmap string string)) (routeParams : gmap string string)
    : option (gmap string string) :=
  match rpcParams with
  | None => None
  | Some m =>
      Some (map_imap
              (fun key value =>
                 Some (substituteValue (range key (map_to_list routeParams)) value)) m)
  end.

(** [HasUnsubstitutedParam]; ranging over a [nil] map runs no iteration. *)
Definition HasUnsubstitutedParam (params : option (gmap string string)) : bool :=
  match params with
  | None => false
  | Some m => bool_decide (map_Exists (fun _ v => Contains v ":" = true) m)
  end.

(** The decision taken for one sub-call inside [executeForPath]: skip it,
    or hand the substituted parameters to the preload callback. *)
Inductive SubcallDecision :=
  | Skip
  | Invoke (method : string) (params : option (gmap string string)).

Definition subcallDecision (range : RangeOrder)
    (rpcSpec : RpcSpec) (routeParams : gmap string string) : SubcallDecision :=
  let rpcParams := SubstituteParams range (Params rpcSpec) routeParams in
  if HasUnsubstitutedParam rpcParams then Skip
  else Invoke (Method rpcSpec) rpcParams.

End Server.


(** ** Client side: the [Router] class *)

Module Client.

(** *** JavaScript values and objects *)

(** [s.slice(start, end)] with the index clamping of ECMAScript; [None] is
    an omitted [end]. *)
Definition slice (s : string) (start : Z) (end_ : option Z) : string :=
  let len := Z.of_nat (String.length s) in
  let clamp i := if (i <? 0)%Z then Z.max (len + i) 0 else Z.min i len in
  let from := clamp start in
  let to := clamp (match end_ with Some e => e | None => len end) in
  String.substring (Z.to_nat from) (Z.to_nat (to - from)) s.

(** The names every plain object inherits from [Object.prototype]: an
    index expression [o[k]] on such a name yields the inherited member (a
    truthy function or object) when [o] has no own property [k]. *)
Definition prototype_members : list string :=
  [ "constructor"; "hasOwnProperty"; "isPrototypeOf"; "propertyIsEnumerable";
    "toLocaleString"; "toString"; "valueOf"; "__proto__";
    "__defineGetter__"; "__defineSetter__"; "__lookupGetter__"; "__lookupSetter__" ].

Definition inherited (k : string) : bool := bool_decide (k ∈ prototype_members).

(** A params object [{ [key: string]: string | undefined }]: own
    properties only; [Some None] is a property holding [undefined]. *)
Abbreviation ParamsObject := (gmap string (option string)).

(** [o[k] = v] on a plain object.  Assigning a string or [undefined] to
    ["__proto__"] runs the inherited setter, which ignores such values. *)
Definition set_property (o : ParamsObject) (k : string) (v : option string) : ParamsObject :=
  if bool_decide (k = "__proto__") then o else <[k := v]> o.

(** The value of the expression [o[k]]. *)
Inductive PropertyValue :=
  | PString (s : string)
  | PUndefined
  | PInherited (k : string).

Definition get_property (o : ParamsObject) (k : string) : PropertyValue :=
  match o !! k with
  | Some (Some s) => PString s
  | Some None => PUndefined
  | None => if inherited k then PInherited k else PUndefined
  end.

(** Errors thrown by the router.  [PrototypeMember] marks route tables the
    model does not cover: a literal pattern segment that names a member of
    [Object.prototype] makes [addRouteToTree] write into that shared
    object. *)
Inductive Error :=
  | NoRoutes
  | FirstRouteNotRoot
  | ConflictingDynamicSegments (existingKey key : string)
  | ConflictingRoutes (routePath : string)
  | RouteNotRegistered
  | MissingRequiredParameter (paramName routePath : string)
  | TypeError
  | PrototypeMember (part : string).

Inductive result (A : Type) :=
  | Ok (a : A)
  | Throw (e : Error).
Global Arguments Ok {A} a.
Global Arguments Throw {A} e.

Definition bind {A B} (x : result A) (f : A -> result B) : result B :=
  match x with
  | Ok a => f a
  | Throw e => Throw e
  end.

Notation "x <- e1 ;; e2" := (bind e1 (fun x => e2))
  (at level 100, e1 at next level, right associativity, only parsing).

(** *** Routes

    A [Route] is an immutable object compared by reference ([===]); the
    class gives the reference type its decidable equality and its two
    fields.  [Metadata] is the application's type; [truthy] is JavaScript
    truthiness on it, which the cache test [if (cached)] consults. *)
Class Routes (Route Metadata : Type) := {
  route_eq_dec :: EqDecision Route;
  path : Route -> string;
  factory : Route -> ParamsObject -> Metadata;
  truthy : Metadata -> bool
}.

(** [RouteTree]: [dynamic] holds [key], [optional] and [value]. *)
#[warnings="-register-all"]
Inductive RouteTree (Route : Type) := mkRouteTree {
  node : option Route;
  static : gmap string (RouteTree Route);
  dynamic : option (string * bool * RouteTree Route)
}.
Global Arguments mkRouteTree {Route} _ _ _.
Global Arguments node {Route} _.
Global Arguments static {Route} _.
Global Arguments dynamic {Route} _.

Definition emptyTree {Route} : RouteTree Route := mkRouteTree None ∅ None.

Record Router (Route Metadata : Type) := mkRouter {
  tree : RouteTree Route;
  cache : list Route;
  metadataCache : gmap string Metadata
}.
Global Arguments mkRouter {Route Metadata} _ _ _.
Global Arguments tree {Route Metadata} _.
Global Arguments cache {Route Metadata} _.
Global Arguments metadataCache {Route Metadata} _.

Section Router.
Context {Route Metadata : Type} `{!Routes Route Metadata}.

(** The pattern segments of a route: [path.split("/").filter(Boolean)]. *)
Definition parts (routePath : string) : list string :=
  Str.filter_Boolean (Str.split "/"%char routePath).

(** The parameter name of a dynamic segment, as [url] and [findParams]
    compute it. *)
Definition paramNameOf (part : string) : string :=
  if Str.ends_with part "?" then slice part 1 (Some (-1)%Z) else slice part 1 None.

(** [addRouteToTree], from the node [current] on, over the remaining
    [parts].  The JavaScript code updates the nodes in place; here the
    updated node is returned.  A throw leaves no router behind, since the
    constructor is the only caller. *)
Fixpoint addParts (route : Route) (parts : list string) (current : RouteTree Route)
    : result (RouteTree Route) :=
  match parts with
  | [] =>
      match node current with
      | Some existing =>
          if bool_decide (existing ≠ route)
          then Throw (ConflictingRoutes (path route))
          else Ok (mkRouteTree (Some route) (static current) (dynamic current))
      | None => Ok (mkRouteTree (Some route) (static current) (dynamic current))
      end
  | part :: rest =>
      let isOptional := Str.ends_with part "?" in
      let isDynamic := Str.starts_with part ":" in
      if isDynamic then
        let key := if isOptional then slice part 0 (Some (-1)%Z) else part in
        d <- match dynamic current with
             | Some (existingKey, opt, v) =>
                 if bool_decide (existingKey ≠ key)
                 then Throw (ConflictingDynamicSegments existingKey key)
                 else Ok (existingKey, opt, v)
             | None => Ok (key, isOptional, emptyTree)
             end ;;
        let node' :=
          if isOptional && negb (bool_decide (is_Some (node current)))
          then Some route else node current in
        v' <- addParts route rest d.2 ;;
        Ok (mkRouteTree node' (static current) (Some (d.1, v')))
      else if inherited part then Throw (PrototypeMember part)
      else
        let child := default emptyTree (static current !! part) in
        child' <- addParts route rest child ;;
        Ok (mkRouteTree (node current) (<[part := child']> (static current)) (dynamic current))
  end.

Definition addRouteToTree (t : RouteTree Route) (route : Route) : result (RouteTree Route) :=
  addParts route (parts (path route)) t.

(** The constructor's loop over [routes.slice(1)]. *)
Fixpoint addRoutes (t : RouteTree Route) (routes : list Route) : result (RouteTree Route) :=
  match routes with
  | [] => Ok t
  | route :: routes' => t' <- addRouteToTree t route ;; addRoutes t' routes'
  end.

(** The constructor.  The set [cache] of registered routes is kept as the
    list of routes; only membership is ever asked of it. *)
Definition newRouter (routes : list Route) : result (Router Route Metadata) :=
  match routes with
  | [] => Throw NoRoutes
  | firstRoute :: rest =>
      if bool_decide (path firstRoute ≠ "/") then Throw FirstRouteNotRoot
      else
        t <- addRoutes (mkRouteTree (Some firstRoute) ∅ None) rest ;;
        Ok (mkRouter t routes ∅)
  end.


(** [findParams]: the loop over the indices of [routePathSegments]. *)
Fixpoint findParamsLoop (routePathSegments pathnameSegments : list string) (i : nat)
    (params : ParamsObject) : ParamsObject :=
  match routePathSegments with
  | [] => params
  | routeSegment :: rest =>
      let pathSegment := pathnameSegments !! i in
      if Str.starts_with routeSegment ":"
      then findParamsLoop rest pathnameSegments (S i)
             (set_property params (paramNameOf routeSegment) pathSegment)
      else findParamsLoop rest pathnameSegments (S i) params
  end.

Definition findParams (routePath pathname : string) : ParamsObject :=
  findParamsLoop (parts routePath) (Str.filter_Boolean (Str.split "/"%char pathname)) 0 ∅.

(** The value of [current] during the loop of [find]: a node of the
    tree, or a member of [Object.prototype] reached through an index
    expression [current.static[segment]]. *)
Inductive Cursor :=
  | AtNode (t : RouteTree Route)
  | AtInherited (k : string).

Inductive WalkOutcome :=
  | Reached (current : Cursor)
  | ReturnNull
  | ThrowTypeError.

(** The loop of [find] over [segments]. *)
Fixpoint walk (current : Cursor) (segments : list string) : WalkOutcome :=
  match segments with
  | [] => Reached current
  | segment :: rest =>
      match current with
      | AtInherited _ => ThrowTypeError
      | AtNode t =>
          match static t !! segment with
          | Some child => walk (AtNode child) rest
          | None =>
              if inherited segment then walk (AtInherited segment) rest
              else match dynamic t with
                   | Some d => walk (AtNode d.2) rest
                   | None => ReturnNull
                   end
          end
      end
  end.

(** What [find] computes between its cache test and the call of the
    factory: the route reached and the parameters handed to it. *)
Definition resolve (t : RouteTree Route) (pathname : string)
    : result (option (Route * ParamsObject)) :=
  if bool_decide (pathname = "/") then
    match node t with
    | Some root => Ok (Some (root, ∅))
    | None => Throw TypeError
    end
  else
    let segments := Str.split "/"%char pathname in
    let current := AtNode (mkRouteTree None {[ EmptyString := t ]} None) in
    match walk current segments with
    | ThrowTypeError => Throw TypeError
    | ReturnNull => Ok None
    | Reached (AtInherited _) => Ok None
    | Reached (AtNode n) =>
        match node n with
        | None => Ok None
        | Some route => Ok (Some (route, findParams (path route) pathname))
        end
    end.

(** [find]: the outcome and the router afterwards (the metadata cache is
    the only field it changes).  [Ok None] is [return null]. *)
Definition find (r : Router Route Metadata) (pathname : string)
    : result (option Metadata) * Router Route Metadata :=
  match metadataCache r !! pathname with
  | Some cached =>
      if truthy cached then (Ok (Some cached), r)
      else
        match resolve (tree r) pathname with
        | Ok (Some (route, params)) =>
            let metadata := factory route params in
            (Ok (Some metadata),
             mkRouter (tree r) (cache r) (<[pathname := metadata]> (metadataCache r)))
        | Ok None => (Ok None, r)
        | Throw e => (Throw e, r)
        end
  | None =>
      match resolve (tree r) pathname with
      | Ok (Some (route, params)) =>
          let metadata := factory route params in
          (Ok (Some metadata),
           mkRouter (tree r) (cache r) (<[pathname := metadata]> (metadataCache r)))
      | Ok None => (Ok None, r)
      | Throw e => (Throw e, r)
      end
  end.

(** *** The URL builder

    Three things [url] takes from the JavaScript runtime: [String(value)]
    on a query value, [encodeURIComponent], and the text [join] produces
    for a member of [Object.prototype] that was pushed in place of a
    parameter value. *)
Context {QueryValue : Type}.
Variable String_ : QueryValue -> string.
Variable encodeURIComponent : string -> string.
Variable prototype_member_text : string -> string.

(** The loop of [url] over [parts]; [Ok] carries [urlParts] both when the
    loop runs to its end and when it leaves through [break]. *)
Fixpoint urlLoop (route : Route) (params : ParamsObject) (parts : list string)
    (urlParts : list string) : result (list string) :=
  match parts with
  | [] => Ok urlParts
  | part :: rest =>
      if Str.starts_with part ":" then
        let isOptional := Str.ends_with part "?" in
        let paramName := paramNameOf part in
        match get_property params paramName with
        | PString s =>
            if Str.truthy s then urlLoop route params rest (urlParts ++ [s])
            else if isOptional then Ok urlParts
            else Throw (MissingRequiredParameter paramName (path route))
        | PUndefined =>
            if isOptional then Ok urlParts
            else Throw (MissingRequiredParameter paramName (path route))
        | PInherited k =>
            urlLoop route params rest (urlParts ++ [prototype_member_text k])
        end
      else urlLoop route params rest (urlParts ++ [part])
  end.

(** [url]; [queryParams] is [None] when the argument is omitted, and
    otherwise lists [Object.entries(queryParams)]. *)
Definition url (r : Router Route Metadata) (route : Route) (params : ParamsObject)
    (queryParams : option (list (string * QueryValue))) : result string :=
  if bool_decide (route ∉ cache r) then Throw RouteNotRegistered
  else
    urlParts <- urlLoop route params (parts (path route)) [] ;;
    let baseUrl := "/" +:+ Str.join "/" urlParts in
    match queryParams with
    | Some (entry :: entries) =>
        let queryString :=
          Str.join "&"
            (map (fun e => encodeURIComponent e.1 +:+ "=" +:+ encodeURIComponent (String_ e.2))
                 (entry :: entries)) in
        Ok (baseUrl +:+ "?" +:+ queryString)
    | _ => Ok baseUrl
    end.

End Router.
End Client.

(** ** Vocabulary of the statements *)

Module Spec.
Import Client Server.

(** The two tests every parser of the repository applies to a segment. *)
Definition isDynamic (part : string) : bool := Str.starts_with part ":".
Definition isOptional (part : string) : bool := Str.ends_with part "?".
Definition isOptionalParam (part : string) : bool := isDynamic part && isOptional part.

(** A path or pattern in normal form: a slash before every segment, no
    empty segment.  Such a string is rebuilt from its own segments. *)
Definition canonical (s : string) : Prop :=
  s = "/" +:+ Str.join "/" (parts s).

Global Instance canonical_dec s : Decision (canonical s).
Proof. unfold canonical. apply _. Defined.

(** A segment of such a string: not empty, and without a slash. *)
Definition segment_ok (x : string) : Prop := x <> "" /\ Str.mem "/" x = false.

(** The parameter names of a pattern, in order. *)
Definition paramNames (ps : list string) : list string :=
  omap (fun p => if isDynamic p then Some (paramNameOf p) else None) ps.

(** Optional parameters only at the end: once one occurs, every later
    segment is an optional parameter too. *)
Fixpoint optionalsTrailing (ps : list string) : bool :=
  match ps with
  | [] => true
  | p :: rest =>
      if isOptionalParam p then forallb isOptionalParam rest
      else optionalsTrailing rest
  end.

(** The patterns on which the comparison of the two matchers is stated. *)
Definition wellFormedPattern (pattern : string) : Prop :=
  canonical pattern /\
  optionalsTrailing (parts pattern) = true /\
  NoDup (paramNames (parts pattern)) /\
  "__proto__" ∉ paramNames (parts pattern).

Global Instance wellFormedPattern_dec pattern : Decision (wellFormedPattern pattern).
Proof. unfold wellFormedPattern. apply _. Defined.

(** A pattern segment accepts a path segment. *)
Definition accepts (part seg : string) : Prop := isDynamic part = true \/ part = seg.

(** What an index expression [params[k]] yields on a name that is no
    member of [Object.prototype]: [None] is [undefined]. *)
Definition valueAt (o : ParamsObject) (k : string) : option string :=
  match o !! k with
  | Some v => v
  | None => None
  end.

(** *** Addresses in the trie *)

Inductive Edge :=
  | EStatic (s : string)
  | EDynamic.

Definition edgeOf (part : string) : Edge :=
  if isDynamic part then EDynamic else EStatic part.

(** The terminal route of the node at an address, if the node exists and
    has one. *)
Fixpoint terminal {Route} (t : RouteTree Route) (a : list Edge) : option Route :=
  match a with
  | [] => node t
  | EStatic k :: a' =>
      match static t !! k with
      | Some child => terminal child a'
      | None => None
      end
  | EDynamic :: a' =>
      match dynamic t with
      | Some d => terminal d.2 a'
      | None => None
      end
  end.

(** The addresses at which inserting a pattern may set the terminal route:
    the end of the pattern, and the node before each optional parameter. *)
Definition claims (ps : list string) (a : list Edge) : Prop :=
  a = edgeOf <$> ps \/
  exists pre p rest, ps = pre ++ p :: rest /\ isOptionalParam p = true /\ a = edgeOf <$> pre.




(** The states of a router: the one the constructor returns and those
    [find] leaves behind. *)
Inductive reachable {Route Metadata} `{!Routes Route Metadata}
    (routes : list Route) : Router Route Metadata -> Prop :=
  | reachable_new r :
      newRouter routes = Ok r -> reachable routes r
  | reachable_find r pathname :
      reachable routes r -> reachable routes (find r pathname).2.

(** Every cached metadata is what resolving its pathname computes. *)
Definition coherent {Route Metadata} `{!Routes Route Metadata}
    (r : Router Route Metadata) : Prop :=
  forall pathname metadata,
    metadataCache r !! pathname = Some metadata ->
    exists route params,
      resolve (tree r) pathname = Ok (Some (route, params)) /\
      metadata = factory route params.


(** The bindings the server matcher builds over accepted segments. *)
Fixpoint serverBindings (ps segs : list string) (params : gmap string string)
    : gmap string string :=
  match ps, segs with
  | p :: ps', seg :: segs' =>
      serverBindings ps' segs'
        (if isDynamic p then <[paramNameOf p := seg]> params else params)
  | _, _ => params
  end.

(** *** The URL builder *)

(** [url] emits [text] for the segment [part]: a literal as it is, a
    parameter by the non-empty string the params object holds for it. *)
Definition emits (params : ParamsObject) (part text : string) : Prop :=
  if isDynamic part
  then params !! paramNameOf part = Some (Some text) /\ text <> ""
  else text = part.

(** The params object leaves the parameter [name] out: the index
    expression is falsy ([undefined] or the empty string). *)
Definition omitted (params : ParamsObject) (name : string) : Prop :=
  get_property params name = PUndefined \/ get_property params name = PString "".

(** The text of a URL over its emitted segments, without a query string. *)
Definition urlText (emitted : list string) : string := "/" +:+ Str.join "/" emitted.

(** *** A concrete route table for the scenarios

    Routes are their own patterns, and the metadata records the route
    reached together with the parameters the factory received. *)
Abbreviation ScenarioMetadata := (string * ParamsObject)%type.

Global Instance scenarioRoutes : Routes string ScenarioMetadata :=
  {| path := fun route => route;
     factory := fun route params => (route, params);
     truthy := fun _ => true |}.

Definition scenarioRouter (routes : list string) : result (Router string ScenarioMetadata) :=
  newRouter routes.

(** The router the constructor returns for [routes]; when the constructor
    throws there is none, and the statements below say that it does not. *)
Definition routerOf (routes : list string) : Router string ScenarioMetadata :=
  match scenarioRouter routes with
  | Ok r => r
  | Throw _ => mkRouter emptyTree [] ∅
  end.


(** The runtime functions [url] is parametric in, for the scenarios. *)
Definition scenarioUrl (r : Router string ScenarioMetadata) (route : string)
    (params : ParamsObject) : result string :=
  url (fun v : string => v) (fun s => s) (fun k => k) r route params None.

End Spec.

(** ** Vocabulary for the registration of routes *)

Module Registration.
Import Client Spec.

(** The key [addRouteToTree] stores for a dynamic segment: the segment
    without its optional marker. *)
Definition dynamicKey (part : string) : string :=
  if isOptional part then slice part 0 (Some (-1)%Z) else part.

(** The route is registered along the segments [ps] from the node [t] on:
    the nodes of its pattern exist, dynamic children carry its keys, the
    node before each of its optional parameters is an endpoint of some
    route, and the last node is its own endpoint. *)
Fixpoint registered {Route} (route : Route) (ps : list string) (t : RouteTree Route) : Prop :=
  match ps with
  | [] => node t = Some route
  | part :: rest =>
      if isDynamic part then
        (isOptional part = true -> is_Some (node t)) /\
        exists opt v, dynamic t = Some (dynamicKey part, opt, v) /\ registered route rest v
      else
        inherited part = false /\
        exists child, static t !! part = Some child /\ registered route rest child
  end.


End Registration.

(** ** Server side: the preload engine of [server/preload.go] *)

Module Engine.
Import Server.

(** [PreloadedRpc]. *)
Record PreloadedRpc := mkPreloadedRpc {
  RequestBytes : string;
  ResponseBytes : string
}.

Section Engine.
Context {Message : Type}.

(** What [ToProtoBytes] makes of a message that is not nil: the
    marshalled, compressed and encoded bytes, or the empty string when
    one of those steps fails. *)
Variable encode : Message -> string.

(** [ToProtoBytes]; [None] is the nil interface value. *)
Definition ToProtoBytes (v : option Message) : string :=
  match v with
  | None => EmptyString
  | Some msg => encode msg
  end.

(** The preload callback as the goroutine of the sub-call number [i]
    sees it: [None] is a non-nil error, otherwise the request and the
    response, each of which may be nil.  The callback is assumed to
    return. *)
Variable PreloadFunc :
  nat -> string -> option (gmap string string) -> option (option Message * option Message).

(** The order in which the [range] of [SubstituteParams] runs in the
    goroutine number [i]. *)
Variable range : nat -> RangeOrder.

(** The body of one goroutine of [executeForPath]: the write it makes
    into [preloaded], if any. *)
Definition subcall (routeParams : gmap string string) (i : nat) (rpcSpec : RpcSpec)
    : option (string * PreloadedRpc) :=
  match subcallDecision (range i) rpcSpec routeParams with
  | Skip => None
  | Invoke method rpcParams =>
      match PreloadFunc i method rpcParams with
      | None => None
      | Some (req, resp) =>
          Some (method, mkPreloadedRpc (ToProtoBytes req) (ToProtoBytes resp))
      end
  end.

(** The write of one goroutine: [preloaded[rpcSpec.Method] = ...]. *)
Definition record (preloaded : gmap string PreloadedRpc) (write : string * PreloadedRpc)
    : gmap string PreloadedRpc :=
  <[write.1 := write.2]> preloaded.

(** [executeForPath] on the request path.  The goroutines write under
    the mutex in an order the scheduler chooses: [schedule] arranges the
    numbered sub-calls in the order in which they reach the lock.  The
    theorems assume it permutes its argument. *)
Definition executeForPath (schedule : list (nat * RpcSpec) -> list (nat * RpcSpec))
    (routes : list RouteSpec) (path : string) : gmap string PreloadedRpc :=
  match MatchRoute routes path with
  | None => ∅
  | Some (route, routeParams) =>
      foldl record ∅
        (omap (fun c => subcall routeParams c.1 c.2) (schedule (imap pair (Rpcs route))))
  end.

End Engine.
End Engine.

(** A route table and a preload callback for the scenarios: the callback
    fails for "GetPosts" and answers every other method with a nil request
    and the name of the method as the response. *)

Module EngineScenario.
Import Server.

Definition exampleRoutes : list RouteSpec :=
  [ mkRouteSpec "/users/:id"
      [ mkRpcSpec "GetUser" (Some {[ "id" := ":id" ]});
        mkRpcSpec "GetPosts" None;
        mkRpcSpec "GetTeam" (Some {[ "team" := ":team" ]}) ] ].

Definition examplePreload (i : nat) (method : string) (params : option (gmap string string))
    : option (option string * option string) :=
  if bool_decide (method = "GetPosts") then None else Some (None, Some method).

End EngineScenario.

(** ** Length-prefixed messages: [server/stream.go], [server/message_reader.go]
       and the streaming transport of the client

    A byte is an integer from 0 to 255.  Go's [int] is taken to be 64 bits
    wide; the sums of such integers below stay under 2^32 + 4 plus the
    length of a slice, so none of them wraps and they are written as sums of
    integers.  Arithmetic on [uint32] and the 32-bit operators of JavaScript
    wrap, which is written out. *)

Module Wire.
Local Open Scope Z_scope.

Definition len {A} (l : list A) : Z := Z.of_nat (length l).

(** Conversion to Go's [uint32], and ECMAScript's ToUint32. *)
Definition uint32 (v : Z) : Z := v mod 2 ^ 32.

(** ECMAScript's ToInt32. *)
Definition ToInt32 (v : Z) : Z := (v + 2 ^ 31) mod 2 ^ 32 - 2 ^ 31.

(** [binary.BigEndian.PutUint32]: the four bytes of a [uint32], the most
    significant first. *)
Definition PutUint32 (v : Z) : list Z :=
  [ Z.land (Z.shiftr v 24) 255; Z.land (Z.shiftr v 16) 255;
    Z.land (Z.shiftr v 8) 255; Z.land v 255 ].

(** [binary.BigEndian.Uint32]; [None] is the panic on a slice of fewer
    than four bytes. *)
Definition Uint32 (b : list Z) : option Z :=
  match b with
  | b0 :: b1 :: b2 :: b3 :: _ =>
      Some (Z.lor (Z.lor (Z.lor b3 (uint32 (Z.shiftl b2 8))) (uint32 (Z.shiftl b1 16)))
              (uint32 (Z.shiftl b0 24)))
  | _ => None
  end.

(** The slice expression [s[lo:hi]] on a slice whose capacity is its
    length; [None] is the panic on bounds out of range. *)
Definition subslice (s : list Z) (lo hi : Z) : option (list Z) :=
  if (0 <=? lo) && (lo <=? hi) && (hi <=? len s)
  then Some (take (Z.to_nat (hi - lo)) (drop (Z.to_nat lo) s))
  else None.

End Wire.

Module Stream.
Import Wire.
Local Open Scope Z_scope.

(** [StreamAdapter], as far as [Send] goes: the bytes written to the body
    of the response so far.  The writes of the model do not fail. *)
Record StreamAdapter := mkStreamAdapter { response : list Z }.

Definition NewStreamAdapter : StreamAdapter := mkStreamAdapter [].

(** [Send]: the length prefix, then the message. *)
Definition Send (sa : StreamAdapter) (data : list Z) : StreamAdapter :=
  let length := uint32 (len data) in
  mkStreamAdapter (response sa ++ PutUint32 length ++ data).

(** [MessageReader]. *)
Record MessageReader := mkMessageReader { data : list Z; offset : Z }.

Definition NewMessageReader (data : list Z) : MessageReader := mkMessageReader data 0.

(** What a call of [Next] returns: a message with a nil error, one of the
    two errors, or a run-time panic. *)
Inductive NextResult :=
  | Message (msg : list Z)
  | EOF
  | ErrUnexpectedEOF
  | Panic.

(** [Next]: the result and the reader afterwards. *)
Definition Next (r : MessageReader) : NextResult * MessageReader :=
  if len (data r) <=? offset r then (EOF, r)
  else
    match subslice (data r) (offset r) (len (data r)) with
    | None => (Panic, r)
    | Some remaining =>
        if len remaining <? 4 then (ErrUnexpectedEOF, r)
        else
          match subslice remaining 0 4 ≫= Uint32 with
          | None => (Panic, r)
          | Some length =>
              if len remaining <? 4 + length then (ErrUnexpectedEOF, r)
              else
                match subslice remaining 4 (uint32 (4 + length)) with
                | None => (Panic, r)
                | Some msg =>
                    (Message msg, mkMessageReader (data r) (offset r + (4 + length)))
                end
          end
    end.

(** The results of [n] calls of [Next] in a row. *)
Fixpoint nexts (n : nat) (r : MessageReader) : list NextResult :=
  match n with
  | O => []
  | S n' => (Next r).1 :: nexts n' (Next r).2
  end.

End Stream.

Module Transport.
Import Wire.
Local Open Scope Z_scope.

(** [Uint8Array.prototype.slice] with the index clamping of ECMAScript;
    [None] is an omitted [end]. *)
Definition slice (a : list Z) (start : Z) (end_ : option Z) : list Z :=
  let clamp i := if i <? 0 then Z.max (len a + i) 0 else Z.min i (len a) in
  let from := clamp start in
  let to := clamp (match end_ with Some e => e | None => len a end) in
  take (Z.to_nat (to - from)) (drop (Z.to_nat from) a).

(** [view.setUint32(0, value, false)] on a fresh array of four bytes. *)
Definition setUint32 (value : Z) : list Z := PutUint32 (uint32 value).

(** The body [clientStreamingRequest] posts once the observable has
    completed: a prefix and the message for every [encoded] it emitted,
    concatenated. *)
Definition requestBody (messages : list (list Z)) : list Z :=
  concat (flat_map (fun encoded => [setUint32 (len encoded); encoded]) messages).

(** The operators [<<] and [|]. *)
Definition shl (a n : Z) : Z := ToInt32 (Z.shiftl (ToInt32 a) n).
Definition bor (a b : Z) : Z := ToInt32 (Z.lor (ToInt32 a) (ToInt32 b)).

(** The length prefix as [serverStreamingRequest] reads it; an index past
    the end yields [undefined], which the operators take for 0. *)
Definition readLength (buffer : list Z) : Z :=
  bor (bor (bor (shl (nth 0 buffer 0) 24) (shl (nth 1 buffer 0) 16))
         (shl (nth 2 buffer 0) 8))
    (nth 3 buffer 0).

(** The inner loop of [serverStreamingRequest]: the messages handed to the
    subscriber and the buffer left.  [fuel] bounds the number of
    iterations; [None] says the loop is still running when it is used
    up. *)
Fixpoint parseMessages (fuel : nat) (buffer : list Z) : option (list (list Z) * list Z) :=
  match fuel with
  | O => None
  | S fuel' =>
      if len buffer <? 4 then Some ([], buffer)
      else
        let length := readLength buffer in
        if len buffer <? 4 + length then Some ([], buffer)
        else
          let message := slice buffer 4 (Some (4 + length)) in
          let buffer' := slice buffer (4 + length) None in
          match parseMessages fuel' buffer' with
          | Some (messages, rest) => Some (message :: messages, rest)
          | None => None
          end
  end.

(** The outer loop over the chunks the body reader yields, until it
    reports the end of the body and the observable completes: the messages
    handed to the subscriber.  The subscription is not cancelled
    meanwhile. *)
Fixpoint receive (fuel : nat) (buffer : list Z) (chunks : list (list Z))
    : option (list (list Z)) :=
  match chunks with
  | [] => Some []
  | value :: chunks' =>
      match parseMessages fuel (buffer ++ value) with
      | Some (messages, buffer') =>
          match receive fuel buffer' chunks' with
          | Some later => Some (messages ++ later)
          | None => None
          end
      | None => None
      end
  end.

Definition serverStreamingRequest (fuel : nat) (chunks : list (list Z))
    : option (list (list Z)) :=
  receive fuel [] chunks.

End Transport.

(** ** Vocabulary for streams of messages *)

Module Framing.
Import Wire Stream.
Local Open Scope Z_scope.

(** The bytes [Send] writes for one message. *)
Definition frame (msg : list Z) : list Z := response (Send NewStreamAdapter msg).

(** The body of a response on which [Send] was called for each of the
    messages in turn. *)
Definition sent (msgs : list (list Z)) : list Z :=
  response (foldl Send NewStreamAdapter msgs).

(** A byte sequence. *)
Definition bytes (l : list Z) : Prop := Forall (fun b => 0 <= b < 256) l.

End Framing.

(** ** Server side: the CORS headers of [rpc.go] *)

Module Cors.

(** [CORSConfig]; a nil function is [None], a nil slice is the empty
    list. *)
Record CORSConfig := mkCORSConfig {
  AllowedOrigins : list string;
  AllowOrigin : option (string -> bool);
  AllowedHeaders : list string
}.

(** The headers of a response: [Set] replaces the value of a key. *)
Abbreviation Header := (gmap string string).

Definition Set_ (h : Header) (key value : string) : Header := <[key := value]> h.

(** The loop over [cors.AllowedOrigins], left on the first hit. *)
Fixpoint originListed (origins : list string) (origin : string) : bool :=
  match origins with
  | [] => false
  | o :: rest =>
      if bool_decide (o = "*") || bool_decide (o = origin) then true
      else originListed rest origin
  end.

(** The loop that joins [cors.AllowedHeaders]; [i] is the index of the
    head of [hs]. *)
Fixpoint joinHeaders (i : nat) (hs : list string) (headers : string) : string :=
  match hs with
  | [] => headers
  | h :: rest =>
      let headers := if bool_decide (0 < i) then headers +:+ ", " else headers in
      joinHeaders (S i) rest (headers +:+ h)
  end.

(** [applyCORS]: the headers of the response afterwards.  [origin] is the
    value of the Origin header of the request, empty when there is none;
    [cors] is [None] for a nil configuration. *)
Definition applyCORS (h : Header) (origin : string) (cors : option CORSConfig) : Header :=
  let h :=
    match cors with
    | None =>
        if bool_decide (origin ≠ "") then
          Set_ (Set_ h "Access-Control-Allow-Origin" origin)
            "Access-Control-Allow-Credentials" "true"
        else h
    | Some cors =>
        if bool_decide (origin ≠ "") then
          let allowed :=
            match AllowOrigin cors with
            | Some allowOrigin => allowOrigin origin
            | None => originListed (AllowedOrigins cors) origin
            end in
          if allowed then
            if bool_decide (length (AllowedOrigins cors) = 1) &&
               bool_decide (AllowedOrigins cors !! 0 = Some "*")
            then Set_ h "Access-Control-Allow-Origin" "*"
            else Set_ (Set_ h "Access-Control-Allow-Origin" origin)
                   "Access-Control-Allow-Credentials" "true"
          else h
        else h
    end in
  let h := Set_ h "Access-Control-Allow-Methods" "POST, OPTIONS" in
  match cors with
  | Some cors =>
      if bool_decide (0 < length (AllowedHeaders cors)) then
        Set_ h "Access-Control-Allow-Headers" (joinHeaders 0 (AllowedHeaders cors) "")
      else
        Set_ h "Access-Control-Allow-Headers"
          "Content-Type, Access-Control-Allow-Headers, Authorization, X-Requested-With, X-Rpc-Method"
  | None =>
      Set_ h "Access-Control-Allow-Headers"
        "Content-Type, Access-Control-Allow-Headers, Authorization, X-Requested-With, X-Rpc-Method"
  end.

End Cors.

(** ** Client side: [createCallbackSet]

    The JavaScript [Set] holds the closures [reference], one made by each
    call of [add]; two of them are never the same object, even when they
    wrap the same callback.  A closure is identified here by the number of
    calls of [add] that came before its own. *)

Module CallbackSet.

Section CallbackSet.
Context {Callback : Type}.

(** The set, in the order of insertion (the order in which a [Set] is
    iterated), and the number of closures made so far. *)
Record State := mkState {
  set : list (nat * Callback);
  made : nat
}.

Definition createCallbackSet : State := mkState [] 0.

(** [add]: the function it returns is identified by its closure. *)
Definition add (callback : Callback) (s : State) : nat * State :=
  (made s, mkState (set s ++ [(made s, callback)]) (S (made s))).

(** The function [add] returned for the closure [reference]:
    [set.delete(reference)]. *)
Definition unsubscribe (reference : nat) (s : State) : State :=
  mkState (List.filter (fun entry => negb (Nat.eqb entry.1 reference)) (set s)) (made s).

(** [call]: the callbacks invoked, in order; they are taken from the
    copy made on entry, so what the callbacks do to the set does not
    change the list. *)
Definition call (s : State) : list Callback := (set s).*2.

Definition clear (s : State) : State := mkState [] (made s).

(** The states of a callback set. *)
Inductive reachable : State -> Prop :=
  | reachable_create : reachable createCallbackSet
  | reachable_add callback s : reachable s -> reachable (add callback s).2
  | reachable_unsubscribe reference s : reachable s -> reachable (unsubscribe reference s)
  | reachable_clear s : reachable s -> reachable (clear s).

End CallbackSet.
Global Arguments State : clear implicits.
End CallbackSet.

(** ** Proof tactics *)

Module Tactics.
Import Client.

(** Index clamping of [slice]: settle [Z.min] and [Z.max] by [lia]. *)
Ltac clamp_lia :=
  repeat match goal with
    | |- context [Z.min ?a ?b] =>
        first [rewrite (Z.min_l a b) by lia | rewrite (Z.min_r a b) by lia]
    | |- context [Z.max ?a ?b] =>
        first [rewrite (Z.max_l a b) by lia | rewrite (Z.max_r a b) by lia]
    end.

(** Replace a closed term of the goal by its value. *)
Ltac vm_eval t :=
  let v := eval vm_compute in t in
  let H := fresh in
  assert (H : t = v) by (vm_compute; reflexivity);
  rewrite H; clear H.

(** The constructor on a list of routes whose paths are known. *)
Ltac run_newRouter Hroot :=
  unfold newRouter; rewrite Hroot; cbn [addRoutes]; unfold addRouteToTree;
  repeat match goal with H : path _ = _ |- _ => rewrite !H end;
  vm_compute; reflexivity.

(** [resolve] on a trie built from concrete patterns: the walk is
    computed, the path of the route reached is rewritten, and the
    parameters are computed. *)
Ltac run_resolve :=
  unfold resolve;
  rewrite bool_decide_eq_false_2 by discriminate;
  match goal with
  | |- context [walk ?c ?s] => vm_eval (walk c s)
  end;
  cbn [node];
  repeat match goal with H : path _ = _ |- _ => rewrite !H end;
  vm_compute; reflexivity.

(** A decidable proposition about closed terms. *)
Ltac by_decide := apply (bool_decide_unpack _); vm_compute; exact I.

End Tactics.

(** * Properties *)

(** ** Facts about the string primitives *)

Module StrFacts.
Import Str.

Lemma sapp_nil_l (s : string) : "" +:+ s = s.
Proof. reflexivity. Qed.

Lemma sapp_cons (a : ascii) (s t : string) : String a s +:+ t = String a (s +:+ t).
Proof. reflexivity. Qed.

Lemma sapp_nil_r (s : string) : s +:+ "" = s.
Proof. induction s; rewrite ?sapp_cons; by f_equal. Qed.

Lemma sapp_assoc (a b c : string) : (a +:+ b) +:+ c = a +:+ b +:+ c.
Proof. induction a; rewrite ?sapp_cons; by f_equal. Qed.

Lemma prefix_app (p s : string) :
  starts_with s p = true <-> exists post, s = p +:+ post.
Proof.
  revert s. induction p as [|a p IH]; intros s; simpl.
  - split; [intros _; by exists s | done].
  - destruct s as [|b s]; simpl.
    + split; [done | intros [post Hp]; discriminate].
    + rewrite andb_true_iff, bool_decide_eq_true, IH. split.
      * intros [-> [post ->]]. by exists post.
      * intros [post Hp]. rewrite sapp_cons in Hp. simplify_eq. eauto.
Qed.

(** *** Splitting and joining *)


Lemma split_no_sep sep s : mem sep s = false -> split sep s = [s].
Proof.
  induction s as [|c s IH]; simpl; [done|].
  intros [Hc Hs]%orb_false_iff. apply bool_decide_eq_false in Hc.
  rewrite bool_decide_eq_false_2 by done. by rewrite IH.
Qed.

Lemma split_app_sep sep s rest :
  mem sep s = false ->
  split sep (s +:+ String sep rest) = s :: split sep rest.
Proof.
  induction s as [|c s IH]; rewrite ?sapp_nil_l, ?sapp_cons; simpl.
  - intros _. by rewrite bool_decide_eq_true_2.
  - intros [Hc Hs]%orb_false_iff. apply bool_decide_eq_false in Hc.
    rewrite bool_decide_eq_false_2 by done. by rewrite IH.
Qed.

Lemma split_pieces_no_sep sep s : Forall (fun x => mem sep x = false) (split sep s).
Proof.
  induction s as [|c s IH]; simpl.
  - by repeat constructor.
  - case_bool_decide as Hc; [by constructor|].
    destruct (split sep s) as [|h t]; inversion_clear IH.
    + repeat constructor. simpl. by rewrite bool_decide_eq_false_2.
    + constructor; [|done]. simpl. by rewrite bool_decide_eq_false_2.
Qed.

Lemma split_join sep segs :
  segs <> [] ->
  Forall (fun x => mem sep x = false) segs ->
  split sep (join (String sep "") segs) = segs.
Proof.
  intros Hne HF. induction HF as [|x l Hx HF IH]; [done|].
  destruct l as [|y l].
  - simpl. by apply split_no_sep.
  - change (join (String sep "") (x :: y :: l))
      with (x +:+ String sep (join (String sep "") (y :: l))).
    rewrite split_app_sep by done. f_equal. by apply IH.
Qed.


Lemma filter_Boolean_truthy l : Forall (fun x => x <> "") (filter_Boolean l).
Proof.
  unfold filter_Boolean. induction l as [|x l IH]; simpl; [constructor|].
  unfold truthy at 1. case_bool_decide; simpl; [done|]. by constructor.
Qed.

Lemma filter_Boolean_no_sep sep l :
  Forall (fun x => mem sep x = false) l ->
  Forall (fun x => mem sep x = false) (filter_Boolean l).
Proof.
  unfold filter_Boolean. induction 1 as [|x l Hx _ IH]; simpl; [constructor|].
  destruct (truthy x); [by constructor | done].
Qed.

(** *** Last characters *)

Lemma ends_with_single_cons c a b s :
  ends_with (String a (String b s)) (String c "") = ends_with (String b s) (String c "").
Proof.
  change (ends_with (String a (String b s)) (String c ""))
    with (bool_decide (String a (String b s) = String c "") || ends_with (String b s) (String c "")).
  by rewrite bool_decide_eq_false_2 by discriminate.
Qed.

Lemma ends_with_app c s t :
  t <> "" -> ends_with (s +:+ t) (String c "") = ends_with t (String c "").
Proof.
  intros Ht. induction s as [|a s IH]; [done|].
  rewrite sapp_cons. destruct (s +:+ t) as [|b u] eqn:Hu.
  - destruct s; [by rewrite sapp_nil_l in Hu | by rewrite sapp_cons in Hu].
  - by rewrite ends_with_single_cons.
Qed.

Lemma no_sep_not_ends_with c s : mem c s = false -> ends_with s (String c "") = false.
Proof.
  induction s as [|a s IH]; [done|].
  intros [Ha Hs]%orb_false_iff. apply bool_decide_eq_false in Ha.
  destruct s as [|b s].
  - simpl. rewrite orb_false_r. apply bool_decide_eq_false. congruence.
  - rewrite ends_with_single_cons. by apply IH.
Qed.

Lemma drop_last_snoc s c : drop_last (s +:+ String c "") = s.
Proof.
  induction s as [|a s IH]; [done|].
  rewrite sapp_cons. simpl. destruct (s +:+ String c "") eqn:Hs.
  - by destruct s.
  - by rewrite IH.
Qed.

Lemma ends_with_snoc s c : ends_with s (String c "") = true -> s = drop_last s +:+ String c "".
Proof.
  induction s as [|a s IH]; [done|].
  destruct s as [|b s].
  - simpl. rewrite orb_false_r. intros Hc%bool_decide_eq_true. by simplify_eq.
  - rewrite ends_with_single_cons. intros Hs%IH.
    change (drop_last (String a (String b s))) with (String a (drop_last (String b s))).
    rewrite sapp_cons. by f_equal.
Qed.

(** *** Substrings *)

Lemma substring_0_length s : String.substring 0 (String.length s) s = s.
Proof. induction s; simpl; by f_equal. Qed.

Lemma substring_0_pred_length s :
  String.substring 0 (String.length s - 1) s = drop_last s.
Proof.
  induction s as [|a s IH]; [done|].
  destruct s as [|b s]; [done|].
  replace (String.length (String a (String b s)) - 1)
    with (S (String.length (String b s) - 1)) by (simpl; lia).
  change (drop_last (String a (String b s))) with (String a (drop_last (String b s))).
  rewrite <- IH. reflexivity.
Qed.

End StrFacts.

(** ** Parsing one segment, splitting one path *)

Module ParseFacts.
Import Str StrFacts Server Client Spec Tactics.

Lemma substring_S n m c s : String.substring (S n) m (String c s) = String.substring n m s.
Proof. reflexivity. Qed.

Lemma slice_from_1 c rest : slice (String c rest) 1 None = rest.
Proof.
  unfold slice. cbv zeta beta iota.
  replace (Z.of_nat (String.length (String c rest))) with (Z.of_nat (String.length rest) + 1)%Z
    by (simpl String.length; lia).
  assert (0 <= Z.of_nat (String.length rest))%Z by lia.
  destruct (Z.ltb_spec 1 0); [lia|].
  destruct (Z.ltb_spec (Z.of_nat (String.length rest) + 1) 0); [lia|].
  clamp_lia.
  replace (Z.to_nat 1) with 1 by lia.
  replace (Z.to_nat (Z.of_nat (String.length rest) + 1 - 1)) with (String.length rest) by lia.
  rewrite substring_S. apply substring_0_length.
Qed.

Lemma slice_from_1_to_last c rest : slice (String c rest) 1 (Some (-1)%Z) = drop_last rest.
Proof.
  unfold slice. cbv zeta beta iota.
  replace (Z.of_nat (String.length (String c rest))) with (Z.of_nat (String.length rest) + 1)%Z
    by (simpl String.length; lia).
  assert (0 <= Z.of_nat (String.length rest))%Z by lia.
  destruct (Z.ltb_spec 1 0); [lia|].
  destruct (Z.ltb_spec (-1) 0); [|lia].
  clamp_lia.
  replace (Z.to_nat 1) with 1 by lia.
  replace (Z.to_nat (Z.of_nat (String.length rest) + 1 + -1 - 1)) with (String.length rest - 1) by lia.
  rewrite substring_S. apply substring_0_pred_length.
Qed.

Lemma slice_to_last s : slice s 0 (Some (-1)%Z) = drop_last s.
Proof.
  unfold slice. cbv zeta beta iota.
  assert (0 <= Z.of_nat (String.length s))%Z by lia.
  destruct (Z.ltb_spec 0 0); [lia|].
  destruct (Z.ltb_spec (-1) 0); [|lia].
  destruct s as [|a s]; [done|].
  assert (1 <= Z.of_nat (String.length (String a s)))%Z by (simpl String.length; lia).
  clamp_lia.
  replace (Z.to_nat 0) with 0 by lia.
  replace (Z.to_nat (Z.of_nat (String.length (String a s)) + -1 - 0))
    with (String.length (String a s) - 1) by lia.
  apply substring_0_pred_length.
Qed.

(** A dynamic segment is a colon followed by the rest. *)
Lemma isDynamic_inv part : isDynamic part = true -> exists rest, part = String ":" rest.
Proof.
  unfold isDynamic. destruct part as [|c rest]; simpl; [done|].
  rewrite andb_true_r. intros ->%bool_decide_eq_true. eauto.
Qed.

Lemma ends_with_colon_cons rest :
  ends_with (String ":" rest) "?" = ends_with rest "?".
Proof.
  destruct rest as [|b s]; [done|]. apply ends_with_single_cons.
Qed.

(** The parameter name as the client computes it. *)
Lemma paramNameOf_colon rest :
  paramNameOf (String ":" rest) = if ends_with rest "?" then drop_last rest else rest.
Proof.
  unfold paramNameOf. rewrite ends_with_colon_cons.
  destruct (ends_with rest "?"); [apply slice_from_1_to_last | apply slice_from_1].
Qed.

(** The parameter name as the server computes it. *)
Lemma TrimPrefix_colon rest : TrimPrefix (String ":" rest) ":" = rest.
Proof.
  unfold TrimPrefix, HasPrefix.
  assert (starts_with (String ":" rest) ":" = true) as -> by (apply prefix_app; by exists rest).
  replace (String.length (String ":" rest) - String.length ":") with (String.length rest)
    by (simpl; lia).
  change (String.length ":") with 1. rewrite substring_S. apply substring_0_length.
Qed.

Lemma TrimSuffix_question s :
  TrimSuffix s "?" = if ends_with s "?" then drop_last s else s.
Proof.
  unfold TrimSuffix, HasSuffix. destruct (ends_with s "?"); [|done].
  apply substring_0_pred_length.
Qed.

(** Both sides read the same name off a dynamic segment. *)
Lemma paramName_agree part :
  isDynamic part = true ->
  TrimSuffix (TrimPrefix part ":") "?" = paramNameOf part.
Proof.
  intros [rest ->]%isDynamic_inv.
  by rewrite TrimPrefix_colon, TrimSuffix_question, paramNameOf_colon.
Qed.

(** *** Trimming *)

Lemma TrimLeft_id c s cutset :
  mem c cutset = false -> TrimLeft (String c s) cutset = String c s.
Proof. intros H. simpl. by rewrite H. Qed.

Lemma TrimRight_id s c :
  ends_with s (String c "") = false -> TrimRight s (String c "") = s.
Proof.
  induction s as [|a s IH]; [done|].
  destruct s as [|b s].
  - simpl. rewrite !orb_false_r. intros Ha. 
    apply bool_decide_eq_false in Ha.
    rewrite bool_decide_eq_false_2; [done|]. congruence.
  - rewrite ends_with_single_cons. intros Hs.
    change (TrimRight (String a (String b s)) (String c ""))
      with (match TrimRight (String b s) (String c "") with
            | EmptyString => if mem a (String c "") then EmptyString else String a EmptyString
            | r => String a r
            end).
    by rewrite IH.
Qed.

(** *** Paths in normal form *)

Lemma join_cons_cons sep x y l :
  join sep (x :: y :: l) = x +:+ sep +:+ join sep (y :: l).
Proof. reflexivity. Qed.

Lemma join_not_empty segs :
  segs <> [] -> Forall segment_ok segs -> join "/" segs <> "".
Proof.
  intros Hne HF. destruct HF as [|x l [Hx _] _]; [done|].
  destruct x as [|a x]; [done|].
  destruct l; [done|]. by rewrite join_cons_cons, sapp_cons.
Qed.

Lemma join_first_char segs :
  segs <> [] -> Forall segment_ok segs ->
  exists a rest, join "/" segs = String a rest /\ a <> "/"%char.
Proof.
  intros Hne HF. destruct HF as [|x l [Hx Hs] _]; [done|].
  destruct x as [|a x]; [done|].
  exists a. simpl in Hs. apply orb_false_iff in Hs as [Ha%bool_decide_eq_false _].
  destruct l as [|y l]; [by exists x|].
  rewrite join_cons_cons, sapp_cons. eauto.
Qed.

Lemma join_not_ends_with_slash segs :
  segs <> [] -> Forall segment_ok segs -> ends_with (join "/" segs) "/" = false.
Proof.
  intros Hne HF. induction HF as [|x l [Hx Hs] HF IH]; [done|].
  destruct l as [|y l].
  - simpl. by apply no_sep_not_ends_with.
  - rewrite join_cons_cons.
    rewrite ends_with_app by done.
    change ("/" +:+ join "/" (y :: l)) with (String "/" (join "/" (y :: l))).
    destruct (join "/" (y :: l)) as [|b u] eqn:Hj.
    + by apply join_not_empty in Hj.
    + rewrite ends_with_single_cons. by apply IH.
Qed.



Lemma SplitPath_normal segs :
  Forall segment_ok segs -> SplitPath ("/" +:+ join "/" segs) = segs.
Proof.
  intros HF. destruct (decide (segs = [])) as [->|Hne]; [done|].
  unfold SplitPath, Trim.
  change ("/" +:+ join "/" segs) with (String "/" (join "/" segs)).
  simpl TrimLeft.
  destruct (join_first_char segs Hne HF) as (a & rest & Hj & Ha).
  rewrite Hj, TrimLeft_id by (simpl; by rewrite bool_decide_eq_false_2).
  rewrite <- Hj, TrimRight_id by (by apply join_not_ends_with_slash).
  rewrite bool_decide_eq_false_2 by (by apply join_not_empty).
  apply split_join; [done|]. eapply Forall_impl; [done|]. by intros x [_ ?].
Qed.

Lemma parts_segment_ok s : Forall segment_ok (parts s).
Proof.
  unfold parts. apply Forall_and. split.
  - apply filter_Boolean_truthy.
  - apply filter_Boolean_no_sep, split_pieces_no_sep.
Qed.

Lemma canonical_SplitPath s : canonical s -> SplitPath s = parts s.
Proof.
  unfold canonical. intros Hs. rewrite Hs at 1.
  apply SplitPath_normal, parts_segment_ok.
Qed.


End ParseFacts.

(** ** The server-side matcher and the substitution of parameters *)

Module ServerFacts.
Import Str StrFacts Server.

Lemma Contains_app (s sub : string) :
  Contains s sub = true <-> exists pre post, s = pre +:+ sub +:+ post.
Proof.
  induction s as [|a s IH]; simpl.
  - rewrite orb_false_r, prefix_app. split.
    + intros [post ->]. by exists "", post.
    + intros (pre & post & H). destruct pre; [by exists post | discriminate].
  - rewrite orb_true_iff, prefix_app, IH. split.
    + intros [[post ->] | (pre & post & ->)].
      * by exists "", post.
      * by exists (String a pre), post.
    + intros (pre & post & H). destruct pre as [|b pre].
      * left. by exists post.
      * right. rewrite sapp_cons in H. simplify_eq. by exists pre, post.
Qed.

Lemma MatchRoute_Some routes path route params :
  MatchRoute routes path = Some (route, params) <->
  exists i, routes !! i = Some route /\
    MatchPattern (Pattern route) path = Some params /\
    forall j earlier, j < i -> routes !! j = Some earlier ->
      MatchPattern (Pattern earlier) path = None.
Proof.
  induction routes as [|r routes IH]; simpl.
  - split; [done | by intros (i & ? & _)].
  - destruct (MatchPattern (Pattern r) path) as [ps|] eqn:Hr.
    + split.
      * intros [= <- <-]. exists 0. split_and!; [done | done | intros; lia].
      * intros (i & Hi & Hm & Hfirst). destruct i as [|i]; simpl in Hi.
        -- congruence.
        -- specialize (Hfirst 0 r ltac:(lia) eq_refl). congruence.
    + rewrite IH. split.
      * intros (i & Hi & Hm & Hfirst). exists (S i). split_and!; [done | done |].
        intros j earlier Hj Hl. destruct j as [|j]; simpl in Hl.
        -- congruence.
        -- eapply Hfirst; [|done]. lia.
      * intros (i & Hi & Hm & Hfirst). destruct i as [|i]; simpl in Hi.
        -- congruence.
        -- exists i. split_and!; [done | done |].
           intros j earlier Hj Hl. apply (Hfirst (S j)); [lia | done].
Qed.

Lemma MatchRoute_None routes path :
  MatchRoute routes path = None <->
  Forall (fun r => MatchPattern (Pattern r) path = None) routes.
Proof.
  induction routes as [|r routes IH]; simpl.
  - split; [constructor | done].
  - destruct (MatchPattern (Pattern r) path) eqn:Hr.
    + split; [done | intros HF; inversion HF; congruence].
    + rewrite IH. split; [by constructor | intros HF; by inversion HF].
Qed.

(** C3.  MatchRoute tries the patterns in the order of the list and
    returns the first one that matches, with the parameters MatchPattern
    extracted for it; it returns nothing exactly when no pattern matches.
    For the list ["/users/:id", "/users/me"] and the path "/users/me" it
    returns the first pattern with id bound to "me", although the second
    pattern matches the path literally. *)
Theorem MatchRoute_first_in_list_order :
  (forall routes path route params,
      MatchRoute routes path = Some (route, params) <->
      exists i, routes !! i = Some route /\
        MatchPattern (Pattern route) path = Some params /\
        forall j earlier, j < i -> routes !! j = Some earlier ->
          MatchPattern (Pattern earlier) path = None) /\
  (forall routes path,
      MatchRoute routes path = None <->
      Forall (fun r => MatchPattern (Pattern r) path = None) routes) /\
  (forall rpcs1 rpcs2,
      MatchRoute [mkRouteSpec "/users/:id" rpcs1; mkRouteSpec "/users/me" rpcs2] "/users/me"
      = Some (mkRouteSpec "/users/:id" rpcs1, {[ "id" := "me" ]})) /\
  MatchPattern "/users/me" "/users/me" = Some ∅.
Proof.
  split_and!.
  - apply MatchRoute_Some.
  - apply MatchRoute_None.
  - intros. vm_compute. reflexivity.
  - vm_compute. reflexivity.
Qed.

Lemma SubstituteParams_lookup range rpcParams routeParams key :
  (default ∅ (SubstituteParams range (Some rpcParams) routeParams)) !! key =
  (fun value => substituteValue (range key (map_to_list routeParams)) value) <$> rpcParams !! key.
Proof.
  simpl. rewrite map_lookup_imap. by destruct (rpcParams !! key).
Qed.

Lemma HasUnsubstitutedParam_spec m :
  HasUnsubstitutedParam (Some m) = true <->
  exists k v pre post, m !! k = Some v /\ v = pre +:+ ":" +:+ post.
Proof.
  simpl. rewrite bool_decide_eq_true. unfold map_Exists. split.
  - intros (k & v & Hk & Hc). apply Contains_app in Hc as (pre & post & ->). eauto 6.
  - intros (k & v & pre & post & Hk & ->). exists k, (pre +:+ ":" +:+ post). split; [done|].
    apply Contains_app. eauto.
Qed.

(** *** [ReplaceAll] *)

Lemma starts_with_app_l x y p :
  String.length p <= String.length x ->
  starts_with (x +:+ y) p = starts_with x p.
Proof.
  revert x. induction p as [|a p IH]; intros x Hlen; [done|].
  destruct x as [|b x]; [simpl in Hlen; lia|].
  rewrite sapp_cons. simpl. rewrite IH; [done|]. simpl in Hlen. lia.
Qed.

Lemma length_app_string x y : String.length (x +:+ y) = String.length x + String.length y.
Proof. induction x as [|a x IH]; [done|]. rewrite sapp_cons. simpl. by rewrite IH. Qed.

Lemma length_drop_last s : String.length (drop_last s) = String.length s - 1.
Proof.
  induction s as [|a s IH]; [done|]. destruct s as [|b s]; [done|].
  change (drop_last (String a (String b s))) with (String a (drop_last (String b s))).
  simpl String.length in *. lia.
Qed.

Lemma Contains_cons a s old :
  Contains (String a s) old = starts_with (String a s) old || Contains s old.
Proof. reflexivity. Qed.

Lemma replace_from_skip old new x s :
  replace_from old new (String.length x) (x +:+ s) = replace_from old new 0 s.
Proof. induction x as [|a x IH]; [done|]. rewrite sapp_cons. simpl. apply IH. Qed.

(** A value without an occurrence of [old] is left as it is. *)
Lemma ReplaceAll_no_occurrence s old new :
  Contains s old = false -> ReplaceAll s old new = s.
Proof.
  unfold ReplaceAll. destruct old as [|o old]; [done|].
  induction s as [|a s IH]; [done|].
  rewrite Contains_cons. intros [Hpre Hs]%orb_false_iff.
  cbn [replace_from]. rewrite Hpre. f_equal. by apply IH.
Qed.

(** The leftmost occurrence of [old] is replaced, and the replacement goes
    on after it. *)
Lemma ReplaceAll_first_occurrence before after old new :
  old <> "" ->
  Contains (before +:+ drop_last old) old = false ->
  ReplaceAll (before +:+ old +:+ after) old new =
  before +:+ new +:+ ReplaceAll after old new.
Proof.
  intros Hold. unfold ReplaceAll. destruct old as [|o old]; [done|].
  induction before as [|a before IH]; intros Hnone.
  - rewrite !sapp_nil_l, sapp_cons. cbn [replace_from].
    assert (starts_with (String o (old +:+ after)) (String o old) = true) as ->.
    { apply prefix_app. exists after. by rewrite sapp_cons. }
    f_equal. replace (String.length (String o old) - 1) with (String.length old)
      by (simpl; lia).
    apply replace_from_skip.
  - remember (String o old) as pat eqn:Hpat.
    rewrite (sapp_cons a before) in Hnone. rewrite Contains_cons in Hnone.
    apply orb_false_iff in Hnone as [Hpre Hnone].
    rewrite !(sapp_cons a before). 
    assert (starts_with (String a (before +:+ pat +:+ after)) pat = false) as Hno.
    { rewrite <- Hpre.
      assert (pat = drop_last pat +:+ String.substring (String.length pat - 1) 1 pat)
        as Hsplit.
      { subst pat. clear. generalize o. induction old as [|b old IH]; intros c; [done|].
        change (drop_last (String c (String b old)))
          with (String c (drop_last (String b old))).
        rewrite sapp_cons. f_equal.
        replace (String.length (String c (String b old)) - 1)
          with (S (String.length (String b old) - 1)) by (simpl; lia).
        apply IH. }
      rewrite Hsplit at 1. rewrite <- sapp_cons, sapp_assoc, <- (sapp_assoc _ (drop_last pat)).
      apply starts_with_app_l. cbn [String.length].
      rewrite length_app_string, length_drop_last. lia. }
    subst pat. cbn [replace_from]. rewrite Hno. f_equal. by apply IH.
Qed.

Lemma substituteValue_singleton name extracted value :
  substituteValue [(name, extracted)] value = ReplaceAll value (":" +:+ name) extracted.
Proof. reflexivity. Qed.

(** The order of the replacements shows when one parameter name is the
    start of another: ":idx" becomes "1x" when id is substituted first and
    "2" when idx is. *)
Lemma substituteValue_order_matters :
  substituteValue [("id", "1"); ("idx", "2")] ":idx" = "1x" /\
  substituteValue [("idx", "2"); ("id", "1")] ":idx" = "2".
Proof. split; vm_compute; reflexivity. Qed.

(** C7.  Whatever order Go ranges over the route parameters in,
    SubstituteParams keeps the keys of the declared map and rewrites each
    value by ReplaceAll with ":" ++ name for every extracted parameter in
    turn; ReplaceAll replaces the leftmost occurrence and goes on behind it,
    and leaves a value without an occurrence alone.  HasUnsubstitutedParam
    holds exactly when some value still contains a colon, and such a
    sub-call is skipped.  With {id: "42"} extracted, ":id-comments" becomes
    "42-comments" and ":missing" stays ":missing" and is flagged. *)
Theorem SubstituteParams_replaces_and_flags (range : RangeOrder) :
  (forall key entries, range key entries ≡ₚ entries) ->
  (forall rpcParams routeParams key value,
      rpcParams !! key = Some value ->
      exists m entries,
        SubstituteParams range (Some rpcParams) routeParams = Some m /\
        dom m = dom rpcParams /\
        entries ≡ₚ map_to_list routeParams /\
        m !! key = Some (substituteValue entries value)) /\
  (forall rpcParams name extracted,
      SubstituteParams range (Some rpcParams) {[ name := extracted ]}
      = Some ((fun value => ReplaceAll value (":" +:+ name) extracted) <$> rpcParams)) /\
  (forall before after name extracted,
      Contains (before +:+ drop_last (":" +:+ name)) (":" +:+ name) = false ->
      ReplaceAll (before +:+ (":" +:+ name) +:+ after) (":" +:+ name) extracted
      = before +:+ extracted +:+ ReplaceAll after (":" +:+ name) extracted) /\
  (forall value name extracted,
      Contains value (":" +:+ name) = false ->
      ReplaceAll value (":" +:+ name) extracted = value) /\
  (forall m, HasUnsubstitutedParam (Some m) = true <->
      exists k v before after, m !! k = Some v /\ v = before +:+ ":" +:+ after) /\
  (forall rpcSpec routeParams,
      HasUnsubstitutedParam (SubstituteParams range (Params rpcSpec) routeParams) = true ->
      subcallDecision range rpcSpec routeParams = Skip) /\
  SubstituteParams range (Some {[ "k" := ":id-comments" ]}) {[ "id" := "42" ]}
    = Some {[ "k" := "42-comments" ]} /\
  SubstituteParams range (Some {[ "k" := ":missing" ]}) {[ "id" := "42" ]}
    = Some {[ "k" := ":missing" ]} /\
  HasUnsubstitutedParam (Some {[ "k" := ":missing" ]}) = true /\
  HasUnsubstitutedParam (Some {[ "k" := "42-comments" ]}) = false.
Proof.
  intros Hperm.
  assert (forall rpcParams name extracted,
            SubstituteParams range (Some rpcParams) {[ name := extracted ]}
            = Some ((fun value => ReplaceAll value (":" +:+ name) extracted) <$> rpcParams))
    as Hsingle.
  { intros rpcParams name extracted. unfold SubstituteParams. f_equal.
    apply map_eq. intros key. rewrite map_lookup_imap, lookup_fmap.
    destruct (rpcParams !! key) as [value|]; [|done]. simpl. f_equal.
    rewrite map_to_list_singleton.
    pose proof (Hperm key [(name, extracted)]) as Hp.
    apply Permutation_singleton_r in Hp. by rewrite Hp. }
  split_and!.
  - intros rpcParams routeParams key value Hkey.
    eexists _, (range key (map_to_list routeParams)). split_and!; [done | | done |].
    + apply set_eq. intros k. rewrite !elem_of_dom, map_lookup_imap.
      destruct (rpcParams !! k); simpl; split; intros [? ?]; eauto; done.
    + by rewrite map_lookup_imap, Hkey.
  - done.
  - intros before after name extracted. by apply ReplaceAll_first_occurrence.
  - intros value name extracted. apply ReplaceAll_no_occurrence.
  - apply HasUnsubstitutedParam_spec.
  - intros rpcSpec routeParams Hflag. unfold subcallDecision. by rewrite Hflag.
  - rewrite Hsingle. vm_compute. reflexivity.
  - rewrite Hsingle. vm_compute. reflexivity.
  - vm_compute. reflexivity.
  - vm_compute. reflexivity.
Qed.

End ServerFacts.

(** ** The trie built by the constructor *)

Module TrieFacts.
Import Str StrFacts Server Client Spec ParseFacts.

Section Trie.
Context {Route Metadata : Type} `{!Routes Route Metadata}.
Implicit Types (t : RouteTree Route) (a : list Edge) (ps segs : list string).

Lemma terminal_emptyTree a : terminal (@emptyTree Route) a = None.
Proof. by destruct a as [|[]]. Qed.

Lemma edgeOf_static part : isDynamic part = false -> edgeOf part = EStatic part.
Proof. unfold edgeOf. by intros ->. Qed.

Lemma edgeOf_dynamic part : isDynamic part = true -> edgeOf part = EDynamic.
Proof. unfold edgeOf. by intros ->. Qed.

Lemma claims_nil a : claims [] a <-> a = [].
Proof.
  split; [|by left]. intros [->|(pre & p & rest & Hps & _)]; [done|].
  by destruct pre.
Qed.

Lemma claims_cons p ps a :
  claims (p :: ps) a <->
  (a = [] /\ isOptionalParam p = true) \/
  exists a', a = edgeOf p :: a' /\ claims ps a'.
Proof.
  split.
  - intros [->|(pre & q & rest & Hps & Hq & ->)].
    + right. exists (edgeOf <$> ps). split; [done | by left].
    + destruct pre as [|p' pre]; simplify_eq/=.
      * by left.
      * right. exists (edgeOf <$> pre). split; [done|]. right. eauto 6.
  - intros [[-> Hp]|(a' & -> & [->|(pre & q & rest & -> & Hq & ->)])].
    + right. by exists [], p, ps.
    + by left.
    + right. by exists (p :: pre), q, rest.
Qed.

Lemma addParts_cons route part rest t :
  addParts route (part :: rest) t =
  if isDynamic part then
    d <- match dynamic t with
         | Some (existingKey, opt, v) =>
             if bool_decide (existingKey <> (if isOptional part then slice part 0 (Some (-1)%Z) else part))
             then Throw (ConflictingDynamicSegments existingKey
                           (if isOptional part then slice part 0 (Some (-1)%Z) else part))
             else Ok (existingKey, opt, v)
         | None => Ok (if isOptional part then slice part 0 (Some (-1)%Z) else part,
                       isOptional part, emptyTree)
         end ;;
    v' <- addParts route rest d.2 ;;
    Ok (mkRouteTree
          (if isOptional part && negb (bool_decide (is_Some (node t)))
           then Some route else node t)
          (static t) (Some (d.1, v')))
  else if inherited part then Throw (PrototypeMember part)
  else
    child' <- addParts route rest (default emptyTree (static t !! part)) ;;
    Ok (mkRouteTree (node t) (<[part := child']> (static t)) (dynamic t)).
Proof. reflexivity. Qed.

(** The effect of one insertion on the terminal routes. *)
Lemma addParts_terminal route ps t t' :
  addParts route ps t = Ok t' ->
  (forall a q, terminal t a = Some q -> terminal t' a = Some q) /\
  terminal t' (edgeOf <$> ps) = Some route /\
  (forall a q, terminal t' a = Some q ->
     terminal t a = Some q \/ (q = route /\ claims ps a)) /\
  (forall a, claims ps a -> is_Some (terminal t' a)).
Proof.
  revert t t'. induction ps as [|part rest IH]; intros t t' Hadd.
  - simpl in Hadd.
    assert (t' = mkRouteTree (Some route) (static t) (dynamic t) /\
            (node t = None \/ node t = Some route)) as [-> Hnode].
    { destruct (node t) as [existing|]; [|by simplify_eq; auto].
      destruct (decide (existing = route)) as [->|Hne].
      - rewrite bool_decide_eq_false_2 in Hadd by (by intros ?). simplify_eq. auto.
      - by rewrite bool_decide_eq_true_2 in Hadd. }
    split_and!.
    + intros [|[k|] a] q; simpl; [|done|done].
      intros Hq. destruct Hnode; congruence.
    + done.
    + intros [|[k|] a] q; simpl; [|by left|by left].
      intros [= <-]. right. split; [done|]. by apply claims_nil.
    + intros a ->%claims_nil. by eexists.
  - rewrite addParts_cons in Hadd.
    destruct (isDynamic part) eqn:Hdyn.
    + (* a dynamic segment *)
      set (key := if isOptional part then slice part 0 (Some (-1)%Z) else part) in Hadd.
      assert (exists d, (dynamic t = Some d \/ (dynamic t = None /\ d.2 = emptyTree)) /\
                exists v', addParts route rest d.2 = Ok v' /\
                t' = mkRouteTree
                       (if isOptional part && negb (bool_decide (is_Some (node t)))
                        then Some route else node t)
                       (static t) (Some (d.1, v'))) as (d & Hd & v' & Hv' & ->).
      { destruct (dynamic t) as [[[existingKey opt] v]|] eqn:Hdt.
        - case_bool_decide; [done|]. cbn [bind snd fst] in Hadd.
          destruct (addParts route rest v) as [v'|] eqn:Hv; [|done].
          cbn [bind] in Hadd. injection Hadd as <-.
          exists (existingKey, opt, v). eauto 6.
        - cbn [bind snd fst] in Hadd.
          destruct (addParts route rest emptyTree) as [v'|] eqn:Hv; [|done].
          cbn [bind] in Hadd. injection Hadd as <-.
          exists (key, isOptional part, emptyTree). eauto 6. }
      destruct (IH _ _ Hv') as (IHkeep & IHfull & IHsound & IHclaims).
      assert (forall a, terminal t (EDynamic :: a) = terminal d.2 a) as Hdyn_t.
      { intros a. simpl. destruct Hd as [->|[-> ->]]; [done|].
        by rewrite terminal_emptyTree. }
      split_and!.
      * intros [|[k|] a] q.
        -- simpl. intros Hq. rewrite Hq. simpl.
           by rewrite andb_false_r.
        -- done.
        -- rewrite Hdyn_t. simpl. apply IHkeep.
      * rewrite fmap_cons, (edgeOf_dynamic _ Hdyn). simpl. apply IHfull.
      * intros [|[k|] a] q.
        -- simpl. destruct (isOptional part) eqn:Hopt; simpl; [|by left].
           case_bool_decide as Hn; simpl; [by left|].
           intros [= <-]. right. split; [done|]. apply claims_cons. left.
           split; [done|]. unfold isOptionalParam. by rewrite Hdyn, Hopt.
        -- by left.
        -- rewrite Hdyn_t. simpl. intros [Hq|[-> Hc]]%IHsound; [by left|].
           right. split; [done|]. apply claims_cons. right.
           exists a. by rewrite (edgeOf_dynamic _ Hdyn).
      * intros a [[-> Hp]|(a' & -> & Hc)]%claims_cons.
        -- simpl. unfold isOptionalParam in Hp.
           apply andb_true_iff in Hp as [_ ->]. simpl.
           case_bool_decide as Hn; simpl; [done | by eexists].
        -- rewrite (edgeOf_dynamic _ Hdyn). simpl. by apply IHclaims.
    + (* a literal segment *)
      destruct (inherited part); [done|].
      destruct (addParts route rest (default emptyTree (static t !! part)))
        as [child'|] eqn:Hchild; [|done].
      cbn [bind] in Hadd. simplify_eq.
      destruct (IH _ _ Hchild) as (IHkeep & IHfull & IHsound & IHclaims).
      assert (forall a, terminal t (EStatic part :: a)
                        = terminal (default emptyTree (static t !! part)) a) as Hst.
      { intros a. simpl. destruct (static t !! part); [done|].
        by rewrite terminal_emptyTree. }
      split_and!.
      * intros [|[k|] a] q; [done| |done].
        destruct (decide (k = part)) as [->|Hk].
        -- rewrite Hst. simpl. rewrite lookup_insert_eq. apply IHkeep.
        -- simpl. by rewrite lookup_insert_ne.
      * rewrite fmap_cons, (edgeOf_static _ Hdyn). simpl.
        rewrite lookup_insert_eq. apply IHfull.
      * intros [|[k|] a] q; [by left| |by left].
        destruct (decide (k = part)) as [->|Hk].
        -- rewrite Hst. simpl. rewrite lookup_insert_eq.
           intros [Hq|[-> Hc]]%IHsound; [by left|].
           right. split; [done|]. apply claims_cons. right.
           exists a. by rewrite (edgeOf_static _ Hdyn).
        -- simpl. rewrite lookup_insert_ne by done. by left.
      * intros a [[-> Hp]|(a' & -> & Hc)]%claims_cons.
        -- unfold isOptionalParam in Hp. by rewrite Hdyn in Hp.
        -- rewrite (edgeOf_static _ Hdyn). simpl. rewrite lookup_insert_eq.
           by apply IHclaims.
Qed.



Lemma addRoutes_terminal t routes t' :
  addRoutes t routes = Ok t' ->
  (forall a q, terminal t a = Some q -> terminal t' a = Some q) /\
  (forall route, route ∈ routes ->
     terminal t' (edgeOf <$> parts (path route)) = Some route) /\
  (forall a q, terminal t' a = Some q ->
     terminal t a = Some q \/ (q ∈ routes /\ claims (parts (path q)) a)) /\
  (forall route a, route ∈ routes -> claims (parts (path route)) a ->
     is_Some (terminal t' a)).
Proof.
  revert t. induction routes as [|route routes IH]; intros t Hadd.
  - simpl in Hadd. simplify_eq. split_and!; [done | | by left | ].
    + by intros route ?%elem_of_nil.
    + by intros route a ?%elem_of_nil.
  - simpl in Hadd. unfold addRouteToTree in Hadd.
    destruct (addParts route (parts (path route)) t) as [t1|] eqn:H1; [|done].
    cbn [bind] in Hadd.
    destruct (addParts_terminal _ _ _ _ H1) as (Keep1 & Full1 & Sound1 & Claims1).
    destruct (IH _ Hadd) as (Keep & Full & Sound & Claims).
    split_and!.
    + eauto.
    + intros q [->|Hq]%elem_of_cons; eauto.
    + intros a q [Hq|[Hq Hc]]%Sound.
      * apply Sound1 in Hq as [Hq|[-> Hc]]; [by left|].
        right. split; [by left | done].
      * right. split; [by right | done].
    + intros q a [->|Hq]%elem_of_cons Hc; [|by eauto].
      destruct (Claims1 a Hc) as [q Hq]. exists q. by apply Keep.
Qed.

Lemma newRouter_inv routes r :
  newRouter routes = Ok r ->
  exists first rest,
    routes = first :: rest /\ path first = "/" /\
    addRoutes (mkRouteTree (Some first) ∅ None) rest = Ok (tree r) /\
    cache r = routes /\ metadataCache r = ∅.
Proof.
  unfold newRouter. destruct routes as [|first rest]; [done|].
  case_bool_decide as Hfirst; [done|].
  destruct (addRoutes _ rest) as [t|] eqn:Ht; [|done].
  cbn [bind]. intros [= <-]. by exists first, rest.
Qed.

(** The terminal routes of a freshly built router. *)
Lemma newRouter_terminal routes r :
  newRouter routes = Ok r ->
  (forall route, route ∈ routes ->
     terminal (tree r) (edgeOf <$> parts (path route)) = Some route) /\
  (forall a q, terminal (tree r) a = Some q ->
     q ∈ routes /\ claims (parts (path q)) a) /\
  (forall route a, route ∈ routes -> claims (parts (path route)) a ->
     is_Some (terminal (tree r) a)).
Proof.
  intros (first & rest & -> & Hfirst & Hadd & _ & _)%newRouter_inv.
  destruct (addRoutes_terminal _ _ _ Hadd) as (Keep & Full & Sound & Claims).
  assert (parts (path first) = []) as Hparts by (by rewrite Hfirst).
  assert (forall a, claims (parts (path first)) a -> a = []) as Hroot.
  { intros a. rewrite Hparts. by intros ->%claims_nil. }
  split_and!.
  - intros route [->|Hr]%elem_of_cons; [|by apply Full].
    rewrite Hparts. by apply Keep.
  - intros a q [Hq|[Hq Hc]]%Sound.
    + destruct a as [|[k|] a]; simplify_eq/=.
      split; [by left|]. rewrite Hparts. by apply claims_nil.
    + split; [by right | done].
  - intros route a [->|Hr]%elem_of_cons Hc; [|by eauto].
    apply Hroot in Hc as ->. eexists. by apply Keep.
Qed.


(** *** The walk of [find] *)




End Trie.
End TrieFacts.

(** ** One pattern against one path, on both sides *)

Module MatchFacts.
Import Str StrFacts Server Client Spec ParseFacts.

Lemma matchLoop_cons pp rest pathParts pi params :
  matchLoop (pp :: rest) pathParts pi params =
  if isDynamic pp then
    match pathParts !! pi with
    | Some seg =>
        matchLoop rest pathParts (S pi)
          (<[TrimSuffix (TrimPrefix pp ":") "?" := seg]> params)
    | None => if negb (isOptional pp) then None else matchLoop rest pathParts pi params
    end
  else
    match pathParts !! pi with
    | Some seg =>
        if bool_decide (seg <> pp) then None else matchLoop rest pathParts (S pi) params
    | None => None
    end.
Proof. reflexivity. Qed.

Lemma serverBindings_cons p ps seg segs params :
  serverBindings (p :: ps) (seg :: segs) params =
  serverBindings ps segs (if isDynamic p then <[paramNameOf p := seg]> params else params).
Proof. reflexivity. Qed.

Lemma matchLoop_accepts ps rest segs done params :
  Forall2 accepts ps segs ->
  matchLoop (ps ++ rest) (done ++ segs) (length done) params =
  matchLoop rest (done ++ segs) (length (done ++ segs)) (serverBindings ps segs params).
Proof.
  intros Hacc. revert done params.
  induction Hacc as [|p seg ps segs Hp Hacc IH]; intros done params.
  - by rewrite app_nil_r.
  - rewrite <- app_comm_cons, matchLoop_cons, list_lookup_middle by done.
    rewrite serverBindings_cons.
    replace (S (length done)) with (length (done ++ [seg]))
      by (rewrite length_app; simpl; lia).
    rewrite (cons_middle seg done segs), app_assoc.
    destruct (isDynamic p) eqn:Hdyn.
    + rewrite paramName_agree by done. apply IH.
    + destruct Hp as [Hp| ->]; [congruence|].
      rewrite bool_decide_eq_false_2 by (by intros ?). apply IH.
Qed.

Lemma matchLoop_optionals rest segs params :
  forallb isOptionalParam rest = true ->
  matchLoop rest segs (length segs) params = Some (length segs, params).
Proof.
  induction rest as [|p rest IH]; [done|].
  cbn [forallb]. intros [Hp Hrest]%andb_true_iff.
  apply andb_true_iff in Hp as [Hdyn Hopt].
  rewrite matchLoop_cons, Hdyn, Hopt, (lookup_ge_None_2 segs) by done. simpl.
  by apply IH.
Qed.

(** A pattern that splits into accepted segments followed by optional
    parameters matches, with the bindings of the accepted part. *)
Lemma MatchPattern_accepts pattern pathname used rest segs :
  SplitPath pattern = used ++ rest ->
  SplitPath pathname = segs ->
  Forall2 accepts used segs ->
  forallb isOptionalParam rest = true ->
  MatchPattern pattern pathname = Some (serverBindings used segs ∅).
Proof.
  intros Hpat Hpath Hacc Hrest. unfold MatchPattern. rewrite Hpat, Hpath.
  pose proof (matchLoop_accepts used rest segs [] ∅ Hacc) as Hloop.
  simpl in Hloop. rewrite Hloop, matchLoop_optionals by done.
  by rewrite bool_decide_eq_false_2 by (by intros ?).
Qed.

Lemma matchLoop_inv ps segs pi params params' :
  matchLoop ps segs pi params = Some (length segs, params') ->
  exists used rest,
    ps = used ++ rest /\ Forall2 accepts used (drop pi segs) /\
    forallb isOptionalParam rest = true.
Proof.
  revert pi params. induction ps as [|p ps IH]; intros pi params.
  - simpl. intros [= -> ->]. exists [], []. rewrite drop_all. by repeat constructor.
  - rewrite matchLoop_cons. destruct (segs !! pi) as [seg|] eqn:Hseg.
    + intros Hloop.
      assert (accepts p seg /\ exists params1,
                matchLoop ps segs (S pi) params1 = Some (length segs, params'))
        as [Hp [params1 Hrec]].
      { destruct (isDynamic p) eqn:Hdyn; [by split; [left | eauto]|].
        case_bool_decide as Hne; [done|]. subst seg.
        split; [by right | eauto]. }
      apply IH in Hrec as (used & rest & -> & Hacc & Hrest).
      exists (p :: used), rest. split_and!; [done | | done].
      rewrite (drop_S _ _ _ Hseg). by constructor.
    + destruct (isDynamic p) eqn:Hdyn; [|done].
      destruct (isOptional p) eqn:Hopt; [|done]. simpl.
      intros (used & rest & -> & Hacc & Hrest)%IH.
      rewrite drop_ge in Hacc by (by apply lookup_ge_None).
      apply Forall2_nil_inv_r in Hacc as ->.
      exists [], (p :: rest). rewrite drop_ge by (by apply lookup_ge_None).
      split_and!; [done | constructor |].
      simpl. unfold isOptionalParam at 1. by rewrite Hdyn, Hopt.
Qed.

Lemma MatchPattern_inv pattern pathname params :
  MatchPattern pattern pathname = Some params ->
  exists used rest,
    SplitPath pattern = used ++ rest /\
    Forall2 accepts used (SplitPath pathname) /\
    forallb isOptionalParam rest = true.
Proof.
  unfold MatchPattern.
  destruct (matchLoop _ _ 0 ∅) as [[pi params1]|] eqn:Hloop; [|done].
  case_bool_decide as Hpi; [done|]. subst pi. intros _.
  apply matchLoop_inv in Hloop as (used & rest & ? & ? & ?). by exists used, rest.
Qed.

(** *** The parameters of [findParams] *)

Lemma findParamsLoop_cons routeSegment rest pathnameSegments i params :
  findParamsLoop (routeSegment :: rest) pathnameSegments i params =
  findParamsLoop rest pathnameSegments (S i)
    (if isDynamic routeSegment
     then set_property params (paramNameOf routeSegment) (pathnameSegments !! i)
     else params).
Proof. unfold isDynamic. cbn [findParamsLoop]. by destruct (starts_with routeSegment ":"). Qed.

Lemma paramNames_cons p ps :
  paramNames (p :: ps) =
  if isDynamic p then paramNameOf p :: paramNames ps else paramNames ps.
Proof. unfold paramNames. cbn [omap list_omap]. by destruct (isDynamic p). Qed.

Lemma paramNames_app ps qs : paramNames (ps ++ qs) = paramNames ps ++ paramNames qs.
Proof. apply omap_app. Qed.






(** *** Addresses and accepted segments *)



End MatchFacts.

(** ** The trie against the linear matcher *)

Module Agreement.
Import Str StrFacts Server Client Spec ParseFacts TrieFacts MatchFacts.

Section Agreement.
Context {Route Metadata : Type} `{!Routes Route Metadata}.
Implicit Types (r : Router Route Metadata) (t : RouteTree Route).

(** [find] changes the metadata cache only. *)
Lemma find_keeps_tree r pathname :
  tree (find r pathname).2 = tree r /\ cache (find r pathname).2 = cache r.
Proof.
  unfold find. destruct (metadataCache r !! pathname) as [cached|].
  - destruct (truthy cached); [done|].
    by destruct (resolve (tree r) pathname) as [[[route params]|]|].
  - by destruct (resolve (tree r) pathname) as [[[route params]|]|].
Qed.

(** With a coherent cache, [find] returns what resolving computes. *)
Lemma find_outcome r pathname :
  coherent r ->
  (find r pathname).1 =
  match resolve (tree r) pathname with
  | Ok (Some (route, params)) => Ok (Some (factory route params))
  | Ok None => Ok None
  | Throw e => Throw e
  end.
Proof.
  intros Hco. unfold find. destruct (metadataCache r !! pathname) as [cached|] eqn:Hc.
  - destruct (truthy cached).
    + destruct (Hco _ _ Hc) as (route & params & -> & ->). done.
    + by destruct (resolve (tree r) pathname) as [[[route params]|]|].
  - by destruct (resolve (tree r) pathname) as [[[route params]|]|].
Qed.

Lemma find_coherent r pathname : coherent r -> coherent (find r pathname).2.
Proof.
  intros Hco.
  assert (forall route params,
            resolve (tree r) pathname = Ok (Some (route, params)) ->
            coherent (mkRouter (tree r) (cache r)
                        (<[pathname := factory route params]> (metadataCache r))))
    as Hset.
  { intros route params Hres p m. cbn [metadataCache tree].
    destruct (decide (p = pathname)) as [->|Hp].
    - rewrite lookup_insert_eq. intros [= <-]. eauto.
    - rewrite lookup_insert_ne by done. apply Hco. }
  unfold find. destruct (metadataCache r !! pathname) as [cached|].
  - destruct (truthy cached); [done|].
    destruct (resolve (tree r) pathname) as [[[route params]|]|] eqn:Hres; [|done..].
    by apply Hset.
  - destruct (resolve (tree r) pathname) as [[[route params]|]|] eqn:Hres; [|done..].
    by apply Hset.
Qed.

(** A reachable router has the trie and the registered routes of the
    constructed one, and a coherent cache. *)
Lemma reachable_inv routes r :
  reachable routes r ->
  exists r0, newRouter routes = Ok r0 /\
    tree r = tree r0 /\ cache r = cache r0 /\ coherent r.
Proof.
  induction 1 as [r Hnew|r pathname _ (r0 & Hnew & Htree & Hcache & Hco)].
  - exists r. split_and!; try done.
    apply newRouter_inv in Hnew as (_ & _ & _ & _ & _ & _ & Hempty).
    intros p m. by rewrite Hempty, lookup_empty.
  - exists r0. destruct (find_keeps_tree r pathname) as [-> ->].
    split_and!; try done. by apply find_coherent.
Qed.












End Agreement.
End Agreement.

(** ** The URL builder *)

Module UrlFacts.
Import Str StrFacts Server Client Spec ParseFacts TrieFacts MatchFacts Agreement.

Section Url.
Context {Route Metadata : Type} `{!Routes Route Metadata}.
Context {QueryValue : Type}.
Variable String_ : QueryValue -> string.
Variable encodeURIComponent : string -> string.
Variable prototype_member_text : string -> string.
Implicit Types (r : Router Route Metadata) (params : ParamsObject).

Abbreviation urlLoop := (urlLoop prototype_member_text).
Abbreviation url := (url String_ encodeURIComponent prototype_member_text).

Lemma urlLoop_cons route params part rest urlParts :
  urlLoop route params (part :: rest) urlParts =
  if isDynamic part then
    match get_property params (paramNameOf part) with
    | PString s =>
        if Str.truthy s then urlLoop route params rest (urlParts ++ [s])
        else if isOptional part then Ok urlParts
        else Throw (MissingRequiredParameter (paramNameOf part) (path route))
    | PUndefined =>
        if isOptional part then Ok urlParts
        else Throw (MissingRequiredParameter (paramNameOf part) (path route))
    | PInherited k => urlLoop route params rest (urlParts ++ [prototype_member_text k])
    end
  else urlLoop route params rest (urlParts ++ [part]).
Proof. reflexivity. Qed.

Lemma emits_get_property params part text :
  isDynamic part = true -> emits params part text ->
  get_property params (paramNameOf part) = PString text /\ Str.truthy text = true.
Proof.
  unfold emits, get_property. intros -> [-> Hne]. split; [done|].
  unfold Str.truthy. by rewrite bool_decide_eq_false_2.
Qed.

(** The loop emits the segments before the first parameter left out. *)
Lemma urlLoop_emits route params pre rest urlParts emitted :
  Forall2 (emits params) pre emitted ->
  urlLoop route params (pre ++ rest) urlParts =
  urlLoop route params rest (urlParts ++ emitted).
Proof.
  intros Hem. revert urlParts.
  induction Hem as [|part text pre emitted Hpart Hem IH]; intros urlParts.
  - by rewrite app_nil_r.
  - rewrite <- app_comm_cons, urlLoop_cons.
    rewrite (cons_middle text urlParts emitted), app_assoc.
    destruct (isDynamic part) eqn:Hdyn.
    + destruct (emits_get_property _ _ _ Hdyn Hpart) as [-> ->]. apply IH.
    + unfold emits in Hpart. rewrite Hdyn in Hpart. subst text. apply IH.
Qed.

(** At the first parameter left out the loop stops or throws. *)
Lemma urlLoop_stops route params pre part post emitted :
  Forall2 (emits params) pre emitted ->
  isDynamic part = true ->
  omitted params (paramNameOf part) ->
  urlLoop route params (pre ++ part :: post) [] =
  if isOptional part then Ok emitted
  else Throw (MissingRequiredParameter (paramNameOf part) (path route)).
Proof.
  intros Hem Hdyn Hom. rewrite (urlLoop_emits _ _ _ _ _ _ Hem), urlLoop_cons, Hdyn.
  by destruct Hom as [-> | ->].
Qed.

Lemma url_registered r route params queryParams :
  route ∈ cache r ->
  url r route params queryParams =
  bind (urlLoop route params (parts (path route)) [])
    (fun urlParts =>
       match queryParams with
       | Some (entry :: entries) =>
           Ok (urlText urlParts +:+ "?" +:+
               Str.join "&"
                 (map (fun e => encodeURIComponent e.1 +:+ "=" +:+ encodeURIComponent (String_ e.2))
                      (entry :: entries)))
       | _ => Ok (urlText urlParts)
       end).
Proof.
  intros Hin. unfold Client.url. by rewrite bool_decide_eq_false_2 by (by intros ?).
Qed.

Lemma url_stops r route params pre part post emitted :
  route ∈ cache r ->
  parts (path route) = pre ++ part :: post ->
  Forall2 (emits params) pre emitted ->
  isDynamic part = true ->
  omitted params (paramNameOf part) ->
  if isOptional part
  then url r route params None = Ok (urlText emitted) /\
       forall queryParams, exists query,
         url r route params queryParams = Ok (urlText emitted +:+ query)
  else forall queryParams,
         url r route params queryParams =
         Throw (MissingRequiredParameter (paramNameOf part) (path route)).
Proof.
  intros Hin Hparts Hem Hdyn Hom.
  pose proof (urlLoop_stops route params pre part post emitted Hem Hdyn Hom) as Hloop.
  rewrite <- Hparts in Hloop.
  destruct (isOptional part).
  - split.
    + by rewrite url_registered, Hloop.
    + intros queryParams. rewrite url_registered, Hloop by done. cbn [bind].
      destruct queryParams as [[|entry entries]|]; eauto.
      all: exists ""; by rewrite sapp_nil_r.
  - intros queryParams. by rewrite url_registered, Hloop.
Qed.

(** Binding a parameter to the empty string or to [undefined] makes no
    difference to the loop. *)
Lemma urlLoop_empty_string route params name ps urlParts :
  urlLoop route (<[name := Some ""]> params) ps urlParts =
  urlLoop route (<[name := None]> params) ps urlParts.
Proof.
  revert urlParts. induction ps as [|part rest IH]; intros urlParts; [done|].
  rewrite !urlLoop_cons. destruct (isDynamic part); [|apply IH].
  unfold get_property. destruct (decide (paramNameOf part = name)) as [->|Hne].
  - rewrite !lookup_insert_eq. done.
  - rewrite !lookup_insert_ne by done.
    destruct (params !! paramNameOf part) as [[s|]|]; [| done |].
    + destruct (Str.truthy s); [apply IH | done].
    + destruct (inherited (paramNameOf part)); [apply IH | done].
Qed.

(** Binding a parameter to [undefined] or leaving it out makes no
    difference either, unless its name is inherited from the prototype. *)
Lemma urlLoop_undefined_absent route params name ps urlParts :
  inherited name = false ->
  urlLoop route (<[name := None]> params) ps urlParts =
  urlLoop route (delete name params) ps urlParts.
Proof.
  intros Hinh. revert urlParts. induction ps as [|part rest IH]; intros urlParts; [done|].
  rewrite !urlLoop_cons. destruct (isDynamic part); [|apply IH].
  unfold get_property. destruct (decide (paramNameOf part = name)) as [->|Hne].
  - by rewrite lookup_insert_eq, lookup_delete_eq, Hinh.
  - rewrite lookup_insert_ne, lookup_delete_ne by done.
    destruct (params !! paramNameOf part) as [[s|]|]; [| done |].
    + destruct (Str.truthy s); [apply IH | done].
    + destruct (inherited (paramNameOf part)); [apply IH | done].
Qed.

Lemma url_empty_string r route params name queryParams :
  url r route (<[name := Some ""]> params) queryParams =
  url r route (<[name := None]> params) queryParams.
Proof. unfold Client.url. by rewrite urlLoop_empty_string. Qed.

End Url.
End UrlFacts.

(** ** Building a URL and resolving it *)

Module RoundTrip.
Import Str StrFacts Server Client Spec ParseFacts TrieFacts MatchFacts Agreement UrlFacts.

Section RoundTrip.
Context {Route Metadata : Type} `{!Routes Route Metadata}.
Context {QueryValue : Type}.
Variable String_ : QueryValue -> string.
Variable encodeURIComponent : string -> string.
Variable prototype_member_text : string -> string.
Implicit Types (r : Router Route Metadata) (params : ParamsObject).

Abbreviation url := (url String_ encodeURIComponent prototype_member_text).






End RoundTrip.
End RoundTrip.

(** ** Resolution scenarios and the metadata cache *)

Module Resolution.
Import Str StrFacts Server Client Spec Tactics Agreement.

Section Resolution.
Context {Route Metadata : Type} `{!Routes Route Metadata}.
Implicit Types (r : Router Route Metadata) (t : RouteTree Route).

(** [find] writes the cache only where it returns metadata. *)
Lemma find_unchanged r pathname :
  (forall metadata, (find r pathname).1 <> Ok (Some metadata)) ->
  (find r pathname).2 = r.
Proof.
  unfold find. destruct (metadataCache r !! pathname) as [cached|].
  - destruct (truthy cached); [done|].
    destruct (resolve (tree r) pathname) as [[[route params]|]|]; [|done..].
    intros Hfail. by destruct (Hfail (factory route params)).
  - destruct (resolve (tree r) pathname) as [[[route params]|]|]; [|done..].
    intros Hfail. by destruct (Hfail (factory route params)).
Qed.

(** The outcome of [find] on a reachable router, from the trie the
    constructor built. *)
Lemma find_reachable routes r0 r pathname :
  newRouter routes = Ok r0 ->
  reachable routes r ->
  (find r pathname).1 =
  match resolve (tree r0) pathname with
  | Ok (Some (route, params)) => Ok (Some (factory route params))
  | Ok None => Ok None
  | Throw e => Throw e
  end.
Proof.
  intros Hnew (r1 & Hnew1 & Htree & _ & Hco)%reachable_inv.
  rewrite Hnew in Hnew1. injection Hnew1 as <-.
  by rewrite find_outcome, Htree.
Qed.

(** C2 (the code at the failing input).  With the routes "/" and
    "/users/:id", in every state of the router, find("/users/42") hands
    {id: "42"} to the factory and find("/users") returns null, but
    find("/users/") does not fail: the empty segment after the trailing
    slash is taken by the dynamic child and the factory of "/users/:id" is
    called with id undefined.  The server matcher rejects the same
    path. *)
Theorem find_trailing_slash_reaches_required_parameter (root users : Route) :
  path root = "/" -> path users = "/users/:id" ->
  (exists r, newRouter [root; users] = Ok r) /\
  (forall r, reachable [root; users] r ->
    (find r "/users/42").1 = Ok (Some (factory users {[ "id" := Some "42" ]})) /\
    (find r "/users").1 = Ok None /\
    (find r "/users/").1 = Ok (Some (factory users {[ "id" := None ]}))) /\
  MatchPattern "/users/:id" "/users/" = None.
Proof.
  intros Hroot Husers.
  eassert (newRouter [root; users] = Ok _) as Hnew by run_newRouter Hroot.
  split_and!; [eauto | | vm_compute; reflexivity].
  intros r Hr. rewrite !(find_reachable _ _ _ _ Hnew Hr). cbn [tree].
  split_and!.
  - assert (resolve _ "/users/42" = Ok (Some (users, {[ "id" := Some "42" ]}))) as ->
      by run_resolve.
    done.
  - assert (resolve _ "/users" = Ok None) as -> by run_resolve. done.
  - assert (resolve _ "/users/" = Ok (Some (users, {[ "id" := None ]}))) as ->
      by run_resolve.
    done.
Qed.

(** C5.  With the routes "/" and "/posts/:id?", in every state of the
    router, find("/posts") calls the factory of "/posts/:id?" with
    {id: undefined} and find("/posts/7") calls it with {id: "7"}. *)
Theorem find_trailing_optional_parameter (root posts : Route) :
  path root = "/" -> path posts = "/posts/:id?" ->
  (exists r, newRouter [root; posts] = Ok r) /\
  (forall r, reachable [root; posts] r ->
    (find r "/posts").1 = Ok (Some (factory posts {[ "id" := None ]})) /\
    (find r "/posts/7").1 = Ok (Some (factory posts {[ "id" := Some "7" ]}))).
Proof.
  intros Hroot Hposts.
  eassert (newRouter [root; posts] = Ok _) as Hnew by run_newRouter Hroot.
  split; [eauto|].
  intros r Hr. rewrite !(find_reachable _ _ _ _ Hnew Hr). cbn [tree].
  split.
  - assert (resolve _ "/posts" = Ok (Some (posts, {[ "id" := None ]}))) as ->
      by run_resolve.
    done.
  - assert (resolve _ "/posts/7" = Ok (Some (posts, {[ "id" := Some "7" ]}))) as ->
      by run_resolve.
    done.
Qed.

(** C10.  When the node has a static child for the segment, the walk
    continues in that child whatever the dynamic child is, and its
    outcome is the outcome of the walk there.  With the routes "/",
    "/a/:x" and "/a/b/c", in every state of the router, find("/a/b")
    returns null (the node behind the static edge "b" has no terminal
    route) and leaves the router as it is, although the pattern "/a/:x"
    matches the path for the server matcher; find("/a/z") reaches
    "/a/:x". *)
Theorem find_commits_to_static_edge :
  (forall t segment rest child,
      static t !! segment = Some child ->
      walk (AtNode t) (segment :: rest) = walk (AtNode child) rest) /\
  (forall root ax abc : Route,
      path root = "/" -> path ax = "/a/:x" -> path abc = "/a/b/c" ->
      (exists r, newRouter [root; ax; abc] = Ok r) /\
      (forall r, reachable [root; ax; abc] r ->
        find r "/a/b" = (Ok None, r) /\
        (find r "/a/z").1 = Ok (Some (factory ax {[ "x" := Some "z" ]}))) /\
      MatchPattern "/a/:x" "/a/b" = Some {[ "x" := "b" ]}).
Proof.
  split.
  - intros t segment rest child Hchild. simpl. by rewrite Hchild.
  - intros root ax abc Hroot Hax Habc.
    eassert (newRouter [root; ax; abc] = Ok _) as Hnew by run_newRouter Hroot.
    split_and!; [eauto | | vm_compute; reflexivity].
    intros r Hr.
    assert ((find r "/a/b").1 = Ok None) as Hnull.
    { rewrite (find_reachable _ _ _ _ Hnew Hr). cbn [tree].
      assert (resolve _ "/a/b" = Ok None) as -> by run_resolve. done. }
    split.
    + apply injective_projections; [done|]. cbn [snd].
      apply find_unchanged. intros metadata. by rewrite Hnull.
    + rewrite (find_reachable _ _ _ _ Hnew Hr). cbn [tree].
      assert (resolve _ "/a/z" = Ok (Some (ax, {[ "x" := Some "z" ]}))) as ->
        by run_resolve.
      done.
Qed.

(** C8.  A call of find that returns null or throws leaves the router,
    and with it the metadata cache, as it was: the cache is written only
    on the paths that return metadata. *)
Theorem failed_find_leaves_cache r pathname :
  (forall metadata, (find r pathname).1 <> Ok (Some metadata)) ->
  (find r pathname).2 = r /\
  metadataCache (find r pathname).2 = metadataCache r.
Proof.
  intros Hfail. by rewrite (find_unchanged r pathname Hfail).
Qed.

End Resolution.
End Resolution.

(** ** Parameters left out of a URL *)

Module UrlClaims.
Import Str StrFacts Server Client Spec ParseFacts UrlFacts.

Section UrlClaims.
Context {Route Metadata : Type} `{!Routes Route Metadata}.
Context {QueryValue : Type}.
Variable String_ : QueryValue -> string.
Variable encodeURIComponent : string -> string.
Variable prototype_member_text : string -> string.
Implicit Types (r : Router Route Metadata) (params : ParamsObject).

Abbreviation url := (url String_ encodeURIComponent prototype_member_text).


(** C9.  url does not tell a parameter bound to the empty string from
    one bound to undefined, nor, for a name that is no member of
    Object.prototype, from one that is absent.  So where the walk over the
    pattern of a registered route reaches a parameter bound to "", a
    required one makes url throw the missing-parameter error and an
    optional one ends the URL before that segment. *)
Theorem url_empty_string_is_absent r route params :
  (forall name queryParams,
      url r route (<[name := Some ""]> params) queryParams =
      url r route (<[name := None]> params) queryParams) /\
  (forall name queryParams,
      inherited name = false ->
      url r route (<[name := Some ""]> params) queryParams =
      url r route (delete name params) queryParams) /\
  (forall pre part post emitted,
      route ∈ cache r ->
      parts (path route) = pre ++ part :: post ->
      Forall2 (emits params) pre emitted ->
      isDynamic part = true ->
      params !! paramNameOf part = Some (Some "") ->
      if isOptional part
      then url r route params None = Ok (urlText emitted)
      else forall queryParams,
             url r route params queryParams =
             Throw (MissingRequiredParameter (paramNameOf part) (path route))).
Proof.
  split_and!.
  - intros name queryParams. apply url_empty_string.
  - intros name queryParams Hinh. rewrite url_empty_string.
    unfold Client.url. by rewrite urlLoop_undefined_absent.
  - intros pre part post emitted Hin Hparts Hem Hdyn Hempty.
    pose proof (url_stops String_ encodeURIComponent prototype_member_text
                  r route params pre part post emitted Hin Hparts Hem Hdyn) as Hstop.
    destruct (isOptional part); apply Hstop; right; unfold get_property; by rewrite Hempty.
Qed.

End UrlClaims.
End UrlClaims.

(** ** More on the server-side matcher *)

Module MatcherFacts.
Import Str StrFacts Server Client Spec ParseFacts ServerFacts MatchFacts.

(** *** Slashes around a path *)

Lemma TrimRight_snoc_slash x : TrimRight (x +:+ "/") "/" = TrimRight x "/".
Proof.
  induction x as [|a x IH]; [done|].
  rewrite sapp_cons. cbn [TrimRight]. by rewrite IH.
Qed.

Lemma TrimLeft_snoc_slash s :
  TrimLeft (s +:+ "/") "/" =
  if bool_decide (TrimLeft s "/" = "") then "" else TrimLeft s "/" +:+ "/".
Proof.
  induction s as [|a s IH]; [done|].
  rewrite sapp_cons. cbn [TrimLeft]. destruct (mem a "/"); [done|].
  by rewrite bool_decide_eq_false_2.
Qed.

Lemma SplitPath_leading_slash s : SplitPath ("/" +:+ s) = SplitPath s.
Proof. reflexivity. Qed.

Lemma SplitPath_trailing_slash s : SplitPath (s +:+ "/") = SplitPath s.
Proof.
  unfold SplitPath, Trim. rewrite TrimLeft_snoc_slash.
  destruct (decide (TrimLeft s "/" = "")) as [He|He].
  - by rewrite He.
  - by rewrite (bool_decide_eq_false_2 (TrimLeft s "/" = "")), TrimRight_snoc_slash.
Qed.

(** *** The bindings of a match *)

Lemma serverBindings_lookup ps segs (gp : gmap string string) k v :
  serverBindings ps segs gp !! k = Some v ->
  gp !! k = Some v \/ (k ∈ paramNames ps /\ v ∈ segs).
Proof.
  revert segs gp. induction ps as [|p ps IH]; intros segs gp; [by left|].
  destruct segs as [|seg segs]; [by left|].
  rewrite serverBindings_cons, paramNames_cons.
  intros [Hgp|[Hk Hv]]%IH.
  - destruct (isDynamic p); [|by left].
    destruct (decide (paramNameOf p = k)) as [<-|Hne].
    + rewrite lookup_insert_eq in Hgp. simplify_eq. right. split; by left.
    + rewrite lookup_insert_ne in Hgp by done. by left.
  - right. split; [|by right]. destruct (isDynamic p); [by right | done].
Qed.

Lemma serverBindings_keeps ps segs (gp : gmap string string) k :
  is_Some (gp !! k) -> is_Some (serverBindings ps segs gp !! k).
Proof.
  revert segs gp. induction ps as [|p ps IH]; intros segs gp Hk; [done|].
  destruct segs as [|seg segs]; [done|].
  rewrite serverBindings_cons. apply IH. destruct (isDynamic p); [|done].
  destruct (decide (paramNameOf p = k)) as [<-|Hne].
  - by rewrite lookup_insert_eq.
  - by rewrite lookup_insert_ne.
Qed.

Lemma serverBindings_binds ps segs (gp : gmap string string) p :
  Forall2 accepts ps segs -> p ∈ ps -> isDynamic p = true ->
  is_Some (serverBindings ps segs gp !! paramNameOf p).
Proof.
  intros Hacc. revert gp. induction Hacc as [|q seg ps segs _ _ IH]; intros gp Hin Hdyn.
  - by apply elem_of_nil in Hin.
  - rewrite serverBindings_cons. apply elem_of_cons in Hin as [<-|Hin].
    + rewrite Hdyn. apply serverBindings_keeps. by rewrite lookup_insert_eq.
    + by apply IH.
Qed.

Lemma SplitPath_no_slash path : Forall (fun seg => mem "/" seg = false) (SplitPath path).
Proof.
  unfold SplitPath. case_bool_decide; [constructor|]. apply split_pieces_no_sep.
Qed.

Lemma MatchPattern_iff pattern path params :
  MatchPattern pattern path = Some params <->
  exists used rest,
    SplitPath pattern = used ++ rest /\
    Forall2 accepts used (SplitPath path) /\
    forallb isOptionalParam rest = true /\
    params = serverBindings used (SplitPath path) ∅.
Proof.
  split.
  - intros Hm. destruct (MatchPattern_inv _ _ _ Hm) as (used & rest & Hpat & Hacc & Hrest).
    exists used, rest. split_and!; try done.
    rewrite (MatchPattern_accepts _ _ used rest _ Hpat eq_refl Hacc Hrest) in Hm.
    congruence.
  - intros (used & rest & Hpat & Hacc & Hrest & ->).
    by apply (MatchPattern_accepts _ _ used rest).
Qed.

(** X1.  MatchPattern accepts a path exactly when the segments of the
    pattern divide into a front part that accepts the segments of the path
    one for one (a parameter accepts any segment, a literal only itself)
    and a remainder made of optional parameters only; the map it returns
    binds, from left to right, the name of each parameter of the front part
    (the segment without its colon and without a final question mark) to
    the path segment at the same position. *)
Theorem MatchPattern_characterisation pattern path params :
  MatchPattern pattern path = Some params <->
  exists used rest,
    SplitPath pattern = used ++ rest /\
    Forall2 accepts used (SplitPath path) /\
    forallb isOptionalParam rest = true /\
    params = serverBindings used (SplitPath path) ∅.
Proof.
  split.
  - intros Hm. destruct (MatchPattern_inv _ _ _ Hm) as (used & rest & Hpat & Hacc & Hrest).
    exists used, rest. split_and!; try done.
    rewrite (MatchPattern_accepts _ _ used rest _ Hpat eq_refl Hacc Hrest) in Hm.
    congruence.
  - intros (used & rest & Hpat & Hacc & Hrest & ->).
    by apply (MatchPattern_accepts _ _ used rest).
Qed.

(** X2.  MatchPattern does not see slashes at either end of the pattern or
    of the path: adding one in front or behind changes neither whether the
    path matches nor the parameters extracted. *)
Theorem MatchPattern_ignores_outer_slashes pattern path :
  MatchPattern ("/" +:+ pattern) path = MatchPattern pattern path /\
  MatchPattern (pattern +:+ "/") path = MatchPattern pattern path /\
  MatchPattern pattern ("/" +:+ path) = MatchPattern pattern path /\
  MatchPattern pattern (path +:+ "/") = MatchPattern pattern path.
Proof.
  unfold MatchPattern.
  rewrite !SplitPath_leading_slash, !SplitPath_trailing_slash. done.
Qed.

(** X3.  A path that MatchPattern accepts has at most as many segments as
    the pattern, and at least as many as the pattern has segments other
    than optional parameters. *)
Theorem MatchPattern_segment_count pattern path params :
  MatchPattern pattern path = Some params ->
  length (List.filter (fun p => negb (isOptionalParam p)) (SplitPath pattern))
    <= length (SplitPath path) /\
  length (SplitPath path) <= length (SplitPath pattern).
Proof.
  intros (used & rest & -> & Hacc & Hrest & _)%MatchPattern_iff.
  apply Forall2_length in Hacc. rewrite List.filter_app, !length_app.
  assert (List.filter (fun p => negb (isOptionalParam p)) rest = []) as ->.
  { clear -Hrest. induction rest as [|p rest IH]; [done|].
    simpl in *. apply andb_true_iff in Hrest as [-> Hrest]. simpl. by apply IH. }
  pose proof (List.filter_length_le (fun p => negb (isOptionalParam p)) used).
  simpl. lia.
Qed.

(** X4.  The map MatchPattern returns has no key that is not a parameter
    name of the pattern, every value in it is a whole segment of the path
    (so it holds no slash), and every parameter of the pattern that is not
    optional is bound. *)
Theorem MatchPattern_bindings pattern path params :
  MatchPattern pattern path = Some params ->
  (forall k v, params !! k = Some v ->
     k ∈ paramNames (SplitPath pattern) /\ v ∈ SplitPath path /\ mem "/" v = false) /\
  (forall p, p ∈ SplitPath pattern -> isDynamic p = true -> isOptional p = false ->
     is_Some (params !! paramNameOf p)).
Proof.
  intros (used & rest & Hpat & Hacc & Hrest & ->)%MatchPattern_iff. split.
  - intros k v [Hk|[Hk Hv]]%serverBindings_lookup; [by rewrite lookup_empty in Hk|].
    split_and!; [|done|].
    + rewrite Hpat, paramNames_app. apply elem_of_app. by left.
    + by apply (proj1 (Forall_forall _ _) (SplitPath_no_slash path)).
  - intros p Hin Hdyn Hopt. rewrite Hpat in Hin.
    apply elem_of_app in Hin as [Hin|Hin]; [by apply serverBindings_binds|].
    apply forallb_forall with (x := p) in Hrest; [|by apply list_elem_of_In].
    unfold isOptionalParam in Hrest. rewrite Hdyn, Hopt in Hrest. done.
Qed.

(** *** Substitution *)

Lemma Contains_placeholder value name :
  Contains value ":" = false -> Contains value (":" +:+ name) = false.
Proof.
  intros Hnone. destruct (Contains value (":" +:+ name)) eqn:Hc; [|done].
  apply Contains_app in Hc as (pre & post & ->).
  assert (Contains (pre +:+ (":" +:+ name) +:+ post) ":" = true) as Hyes.
  { apply Contains_app. exists pre, (name +:+ post).
    by rewrite !sapp_cons, !sapp_nil_l. }
  congruence.
Qed.

Lemma substituteValue_literal entries value :
  Contains value ":" = false -> substituteValue entries value = value.
Proof.
  intros Hnone. unfold substituteValue.
  induction entries as [|e entries IH]; [done|]. cbn [foldl].
  rewrite ReplaceAll_no_occurrence by (by apply Contains_placeholder). apply IH.
Qed.

Lemma Contains_app_l s t sub : Contains s sub = true -> Contains (s +:+ t) sub = true.
Proof.
  intros (pre & post & ->)%Contains_app. apply Contains_app.
  exists pre, (post +:+ t). by rewrite !sapp_assoc.
Qed.

Lemma ReplaceAll_brings old new s c :
  Contains s old = true -> old <> "" -> Contains new c = true ->
  Contains (ReplaceAll s old new) c = true.
Proof.
  intros Hs Hold Hnew. unfold ReplaceAll. destruct old as [|o old]; [done|].
  induction s as [|a s IH].
  - simpl in Hs. discriminate.
  - rewrite Contains_cons in Hs. cbn [replace_from].
    destruct (starts_with (String a s) (String o old)) eqn:Hpre.
    + by apply Contains_app_l.
    + simpl in Hs. rewrite Contains_cons, IH by done. apply orb_true_r.
Qed.

(** X5.  A sub-call whose declared parameters hold no colon (or that
    declares no parameter map at all) is never skipped: whatever the route
    parameters are and in whatever order Go ranges over them, the preload
    callback is invoked with the declared parameters unchanged. *)
Theorem literal_params_always_invoked (range : RangeOrder) method rpcParams routeParams :
  (forall m k v, rpcParams = Some m -> m !! k = Some v -> Contains v ":" = false) ->
  subcallDecision range (mkRpcSpec method rpcParams) routeParams = Invoke method rpcParams.
Proof.
  intros Hlit. unfold subcallDecision. cbn [Params Method].
  destruct rpcParams as [m|]; [|done].
  assert (SubstituteParams range (Some m) routeParams = Some m) as ->.
  { unfold SubstituteParams. f_equal. apply map_eq. intros k.
    rewrite map_lookup_imap. destruct (m !! k) as [v|] eqn:Hk; [|done]. simpl.
    rewrite substituteValue_literal; [done|]. by eapply Hlit. }
  assert (HasUnsubstitutedParam (Some m) = false) as ->; [|done].
  apply not_true_is_false. intros (k & v & pre & post & Hk & ->)%HasUnsubstitutedParam_spec.
  assert (Contains (pre +:+ ":" +:+ post) ":" = true) as Hyes
    by (apply Contains_app; eauto).
  rewrite (Hlit m k _ eq_refl Hk) in Hyes. discriminate.
Qed.

(** X6.  When the path binds one route parameter and the segment bound to
    it holds a colon, every sub-call with a placeholder for that parameter
    is skipped: the colon of the substituted text is taken for a
    placeholder that was left unresolved. *)
Theorem colon_in_route_parameter_skips (range : RangeOrder)
    method rpcParams key value name extracted :
  (forall key entries, range key entries ≡ₚ entries) ->
  rpcParams !! key = Some value ->
  Contains value (":" +:+ name) = true ->
  Contains extracted ":" = true ->
  subcallDecision range (mkRpcSpec method (Some rpcParams)) {[ name := extracted ]} = Skip.
Proof.
  intros Hperm Hkey Hvalue Hcolon. unfold subcallDecision. cbn [Params Method].
  assert (HasUnsubstitutedParam
            (SubstituteParams range (Some rpcParams) {[ name := extracted ]}) = true) as ->;
    [|done].
  simpl. apply bool_decide_eq_true.
  exists key, (ReplaceAll value (":" +:+ name) extracted). split.
  - rewrite map_lookup_imap, Hkey. simpl. f_equal.
    rewrite map_to_list_singleton.
    pose proof (Hperm key [(name, extracted)]) as ->%Permutation_singleton_r.
    apply substituteValue_singleton.
  - by apply ReplaceAll_brings.
Qed.

End MatcherFacts.

(** ** Registration of routes: what the constructor accepts and keeps *)

Module RegistrationFacts.
Import Str StrFacts Server Client Spec ParseFacts TrieFacts MatchFacts Agreement Registration.

Section Registration.
Context {Route Metadata : Type} `{!Routes Route Metadata}.
Implicit Types (r : Router Route Metadata) (t : RouteTree Route).

Lemma addParts_dynamic_inv route part rest t t' :
  addParts route (part :: rest) t = Ok t' -> isDynamic part = true ->
  exists opt v v',
    (dynamic t = Some (dynamicKey part, opt, v) \/ (dynamic t = None /\ v = emptyTree)) /\
    addParts route rest v = Ok v' /\
    t' = mkRouteTree
           (if isOptional part && negb (bool_decide (is_Some (node t)))
            then Some route else node t)
           (static t) (Some (dynamicKey part, opt, v')).
Proof.
  intros Hadd Hdyn. rewrite addParts_cons, Hdyn in Hadd. fold (dynamicKey part) in Hadd.
  destruct (dynamic t) as [[[existingKey opt] v]|] eqn:Hdt.
  - case_bool_decide as Hkey; [done|]. cbn [bind snd fst] in Hadd.
    destruct (addParts route rest v) as [v'|] eqn:Hv; [|done].
    cbn [bind] in Hadd. injection Hadd as <-.
    assert (existingKey = dynamicKey part) as -> by (by destruct (decide (existingKey = dynamicKey part))).
    exists opt, v, v'. split_and!; [by left | done | done].
  - cbn [bind snd fst] in Hadd.
    destruct (addParts route rest emptyTree) as [v'|] eqn:Hv; [|done].
    cbn [bind] in Hadd. injection Hadd as <-.
    exists (isOptional part), emptyTree, v'. split_and!; [by right | done | done].
Qed.

Lemma addParts_static_inv route part rest t t' :
  addParts route (part :: rest) t = Ok t' -> isDynamic part = false ->
  inherited part = false /\
  exists child',
    addParts route rest (default emptyTree (static t !! part)) = Ok child' /\
    t' = mkRouteTree (node t) (<[part := child']> (static t)) (dynamic t).
Proof.
  intros Hadd Hdyn. rewrite addParts_cons, Hdyn in Hadd.
  destruct (inherited part); [done|]. split; [done|].
  destruct (addParts route rest (default emptyTree (static t !! part)))
    as [child'|] eqn:Hchild; [|done].
  cbn [bind] in Hadd. injection Hadd as <-. by exists child'.
Qed.

Lemma addParts_nil_inv route t t' :
  addParts route [] t = Ok t' ->
  (node t = None \/ node t = Some route) /\
  t' = mkRouteTree (Some route) (static t) (dynamic t).
Proof.
  simpl. destruct (node t) as [existing|]; [|intros [= <-]; auto].
  destruct (decide (existing = route)) as [->|Hne].
  - rewrite bool_decide_eq_false_2 by (by intros ?). intros [= <-]. auto.
  - by rewrite bool_decide_eq_true_2.
Qed.

Lemma registered_cons route part rest t :
  registered route (part :: rest) t =
  if isDynamic part then
    (isOptional part = true -> is_Some (node t)) /\
    exists opt v, dynamic t = Some (dynamicKey part, opt, v) /\ registered route rest v
  else
    inherited part = false /\
    exists child, static t !! part = Some child /\ registered route rest child.
Proof. reflexivity. Qed.

(** An insertion that succeeds registers the route. *)
Lemma addParts_registers route ps t t' :
  addParts route ps t = Ok t' -> registered route ps t'.
Proof.
  revert t t'. induction ps as [|part rest IH]; intros t t' Hadd.
  - by apply addParts_nil_inv in Hadd as [_ ->].
  - rewrite registered_cons. destruct (isDynamic part) eqn:Hdyn.
    + apply addParts_dynamic_inv in Hadd as (opt & v & v' & _ & Hv & ->); [|done].
      cbn [node dynamic]. split.
      * intros ->. cbn [andb]. by case_bool_decide.
      * exists opt, v'. split; [done|]. by eapply IH.
    + apply addParts_static_inv in Hadd as (Hinh & child' & Hchild & ->); [|done].
      split; [done|]. exists child'. cbn [static]. rewrite lookup_insert_eq.
      split; [done|]. by eapply IH.
Qed.

(** Inserting a route where it is registered changes nothing. *)
Lemma registered_addParts route ps t :
  registered route ps t -> addParts route ps t = Ok t.
Proof.
  revert t. induction ps as [|part rest IH]; intros t Hreg.
  - simpl in *. rewrite Hreg, bool_decide_eq_false_2 by (by intros ?).
    destruct t; simpl in *. by subst.
  - rewrite registered_cons in Hreg. rewrite addParts_cons.
    fold (dynamicKey part). destruct (isDynamic part) eqn:Hdyn.
    + destruct Hreg as (Hnode & opt & v & Hd & Hv). rewrite Hd.
      rewrite bool_decide_eq_false_2 by (by intros ?). cbn [bind snd fst].
      rewrite (IH _ Hv). cbn [bind].
      assert ((if isOptional part && negb (bool_decide (is_Some (node t)))
               then Some route else node t) = node t) as ->.
      { destruct (isOptional part); [|done].
        by rewrite (bool_decide_eq_true_2 _ (Hnode eq_refl)). }
      destruct t; simpl in *. by subst.
    + destruct Hreg as (Hinh & child & Hchild & Hrest). rewrite Hinh, Hchild.
      cbn [default id]. rewrite (IH _ Hrest). cbn [bind].
      rewrite insert_id by done. by destruct t.
Qed.

(** The insertion of one route leaves the others registered. *)
Lemma addParts_keeps_registered route ps t t' q qs :
  addParts route ps t = Ok t' -> registered q qs t -> registered q qs t'.
Proof.
  revert t t' qs. induction ps as [|part rest IH]; intros t t' qs Hadd Hreg.
  - apply addParts_nil_inv in Hadd as [Hnode ->]. destruct qs as [|q' qrest].
    + simpl in *. destruct Hnode; congruence.
    + rewrite registered_cons in *. cbn [node static dynamic].
      destruct (isDynamic q'); [|done].
      destruct Hreg as [_ Hd]. split; [by eauto | done].
  - destruct (isDynamic part) eqn:Hdyn.
    + apply addParts_dynamic_inv in Hadd as (opt & v & v' & Hd & Hv & ->); [|done].
      destruct qs as [|q' qrest].
      * simpl in *. by rewrite Hreg, andb_false_r.
      * rewrite registered_cons in *. cbn [node static dynamic].
        destruct (isDynamic q'); [|done].
        destruct Hreg as (Hnode & opt2 & v2 & Hd2 & Hrest). split.
        -- intros Hopt. destruct (isOptional part && _); [by eauto | by apply Hnode].
        -- destruct Hd as [Hd|[Hd _]]; [|congruence].
           rewrite Hd in Hd2. injection Hd2 as Hk <- <-.
           exists opt, v'. rewrite Hk. split; [done|]. by eapply IH.
    + apply addParts_static_inv in Hadd as (Hinh & child' & Hchild & ->); [|done].
      destruct qs as [|q' qrest]; [done|].
      rewrite registered_cons in *. cbn [node static dynamic].
      destruct (isDynamic q'); [done|].
      destruct Hreg as (Hinh' & child & Hc & Hrest). split; [done|].
      destruct (decide (q' = part)) as [->|Hne].
      * rewrite lookup_insert_eq. exists child'. split; [done|].
        rewrite Hc in Hchild. by eapply IH.
      * rewrite lookup_insert_ne by done. by exists child.
Qed.

Lemma addRoutes_app t l1 l2 :
  addRoutes t (l1 ++ l2) = bind (addRoutes t l1) (fun t1 => addRoutes t1 l2).
Proof.
  revert t. induction l1 as [|q l1 IH]; intros t; [done|].
  simpl. destruct (addRouteToTree t q) as [t1|]; [apply IH | done].
Qed.

Lemma addRoutes_registered t routes t' :
  addRoutes t routes = Ok t' ->
  (forall q qs, registered q qs t -> registered q qs t') /\
  (forall q, q ∈ routes -> registered q (parts (path q)) t').
Proof.
  revert t. induction routes as [|route routes IH]; intros t Hadd.
  - simpl in Hadd. injection Hadd as <-. split; [done|]. by intros q ?%elem_of_nil.
  - simpl in Hadd. unfold addRouteToTree in Hadd.
    destruct (addParts route (parts (path route)) t) as [t1|] eqn:H1; [|done].
    cbn [bind] in Hadd. destruct (IH _ Hadd) as [Keep Full]. split.
    + intros q qs Hq. apply Keep. by eapply addParts_keeps_registered.
    + intros q [->|Hq]%elem_of_cons; [|by apply Full].
      apply Keep. by eapply addParts_registers.
Qed.

Lemma newRouter_registered routes r route :
  newRouter routes = Ok r -> route ∈ routes ->
  registered route (parts (path route)) (tree r).
Proof.
  intros (first & rest & -> & Hfirst & Hadd & _ & _)%newRouter_inv Hin.
  destruct (addRoutes_registered _ _ _ Hadd) as [Keep Full].
  apply elem_of_cons in Hin as [->|Hin]; [|by apply Full].
  apply Keep. by rewrite Hfirst.
Qed.

Lemma registered_keys a b prea pa ra preb pb rb t :
  registered a (prea ++ pa :: ra) t ->
  registered b (preb ++ pb :: rb) t ->
  edgeOf <$> prea = edgeOf <$> preb ->
  isDynamic pa = true -> isDynamic pb = true ->
  dynamicKey pa = dynamicKey pb.
Proof.
  intros Ha Hb Hedges Hda Hdb. revert preb t Ha Hb Hedges.
  induction prea as [|p prea IH]; intros [|p' preb] t Ha Hb Hedges; try done.
  - simpl in Ha, Hb. rewrite Hda in Ha. rewrite Hdb in Hb.
    destruct Ha as (_ & ? & ? & Ha & _). destruct Hb as (_ & ? & ? & Hb & _).
    congruence.
  - rewrite <- !app_comm_cons, !registered_cons in *.
    rewrite !fmap_cons in Hedges. injection Hedges as Hp Hedges.
    unfold edgeOf in Hp.
    destruct (isDynamic p) eqn:Hd1, (isDynamic p') eqn:Hd2; try done.
    + destruct Ha as (_ & ? & v & Ha & Hra). destruct Hb as (_ & ? & v' & Hb & Hrb).
      rewrite Ha in Hb. injection Hb as _ _ <-. by eapply IH.
    + injection Hp as <-.
      destruct Ha as (_ & child & Ha & Hra). destruct Hb as (_ & child' & Hb & Hrb).
      rewrite Ha in Hb. injection Hb as <-. by eapply IH.
Qed.

(** X7.  A route object that is already in the list can be listed
    again: the registration of a route that is registered changes
    nothing, so the constructor accepts the longer list and builds the
    same tree. *)
Theorem registering_a_route_again_changes_nothing routes r route :
  newRouter routes = Ok r -> route ∈ routes ->
  addRouteToTree (tree r) route = Ok (tree r) /\
  newRouter (routes ++ [route]) = Ok (mkRouter (tree r) (routes ++ [route]) ∅).
Proof.
  intros Hnew Hin.
  assert (addRouteToTree (tree r) route = Ok (tree r)) as Hagain.
  { unfold addRouteToTree. apply registered_addParts. by eapply newRouter_registered. }
  split; [done|].
  apply newRouter_inv in Hnew as (first & rest & -> & Hfirst & Hadd & _ & _).
  unfold newRouter. rewrite <- app_comm_cons.
  rewrite bool_decide_eq_false_2 by (by intros ?).
  rewrite addRoutes_app, Hadd. cbn [bind addRoutes]. by rewrite Hagain.
Qed.

(** X8.  In a router the constructor has built, two routes whose
    patterns run through the same node and continue there with a
    parameter use the same key for it: had the names differed, the
    registration of the later route would have thrown the
    conflicting-segments error. *)
Theorem parameter_keys_agree routes r a b prea pa ra preb pb rb :
  newRouter routes = Ok r -> a ∈ routes -> b ∈ routes ->
  parts (path a) = prea ++ pa :: ra ->
  parts (path b) = preb ++ pb :: rb ->
  edgeOf <$> prea = edgeOf <$> preb ->
  isDynamic pa = true -> isDynamic pb = true ->
  dynamicKey pa = dynamicKey pb.
Proof.
  intros Hnew Ha Hb Hpa Hpb Hedges Hda Hdb.
  pose proof (newRouter_registered _ _ _ Hnew Ha) as Hra.
  pose proof (newRouter_registered _ _ _ Hnew Hb) as Hrb.
  rewrite Hpa in Hra. rewrite Hpb in Hrb.
  by eapply registered_keys.
Qed.

(** X9.  The constructor never accepts two different route objects of
    the same shape, that is, with the same literals at the same places
    and parameters at the same places, whatever the parameters are called
    and whether or not they are optional. *)
Theorem newRouter_distinct_shapes routes r a b :
  newRouter routes = Ok r -> a ∈ routes -> b ∈ routes ->
  edgeOf <$> parts (path a) = edgeOf <$> parts (path b) ->
  a = b.
Proof.
  intros Hnew Ha Hb Hshape.
  destruct (newRouter_terminal _ _ Hnew) as (Full & _ & _).
  pose proof (Full a Ha) as Hta. pose proof (Full b Hb) as Htb.
  rewrite Hshape in Hta. congruence.
Qed.

(** X10.  Registration depends on the order of the list: in a list
    without repetitions that the constructor accepts, no route ends on a
    node that an earlier route claims, be it the last node of the earlier
    pattern or the node before one of its optional parameters. *)
Theorem later_route_cannot_end_on_claimed_node routes r i j a b :
  newRouter routes = Ok r -> NoDup routes ->
  routes !! i = Some a -> routes !! j = Some b -> i < j ->
  ~ claims (parts (path a)) (edgeOf <$> parts (path b)).
Proof.
  intros Hnew Hnodup Hi Hj Hlt Hclaim.
  apply newRouter_inv in Hnew as (first & rest & -> & Hfirst & Hadd & _ & _).
  destruct j as [|j]; [lia|]. simpl in Hj.
  apply list_elem_of_split_length in Hj as (l1 & l2 & -> & ->).
  assert (a ∈ first :: l1) as Ha.
  { rewrite app_comm_cons in Hi. rewrite lookup_app_l in Hi by (simpl; lia).
    by eapply list_elem_of_lookup_2. }
  rewrite addRoutes_app in Hadd.
  destruct (addRoutes _ l1) as [t1|] eqn:H1; [|done]. cbn [bind addRoutes] in Hadd.
  unfold addRouteToTree in Hadd.
  destruct (addParts b (parts (path b)) t1) as [t2|] eqn:H2; [|done].
  destruct (addRoutes_terminal _ _ _ H1) as (Keep1 & _ & Sound1 & Claims1).
  destruct (addParts_terminal _ _ _ _ H2) as (Keep2 & Full2 & _ & _).
  assert (exists c, terminal t1 (edgeOf <$> parts (path b)) = Some c /\ c ∈ first :: l1)
    as (c & Hc & Hcin).
  { apply elem_of_cons in Ha as [->|Ha].
    - rewrite Hfirst in Hclaim. apply claims_nil in Hclaim. rewrite Hclaim.
      exists first. split; [by apply (Keep1 []) | by left].
    - destruct (Claims1 a _ Ha Hclaim) as [c Hc]. exists c. split; [done|].
      apply Sound1 in Hc as [Hc|[Hc _]]; [|by right].
      destruct (edgeOf <$> parts (path b)) as [|[k|] e]; simplify_eq/=. by left. }
  apply Keep2 in Hc. rewrite Full2 in Hc. injection Hc as ->.
  rewrite app_comm_cons in Hnodup. apply NoDup_app in Hnodup as (_ & Hdisj & _).
  apply (Hdisj c Hcin). by left.
Qed.

End Registration.
End RegistrationFacts.

(** ** Lookups: what [find] never resolves, when it throws, and the cache *)

Module LookupFacts.
Import Str StrFacts Server Client Spec ParseFacts TrieFacts MatchFacts Agreement
  Resolution Registration.

Section Lookup.
Context {Route Metadata : Type} `{!Routes Route Metadata}.
Implicit Types (r : Router Route Metadata) (t : RouteTree Route).








(** X13.  The metadata cache never changes an answer: in whatever state
    earlier lookups have left the router, find returns for every path
    what the freshly constructed router returns for it. *)
Theorem cache_is_transparent routes r0 r pathname :
  newRouter routes = Ok r0 ->
  reachable routes r ->
  (find r pathname).1 = (find r0 pathname).1.
Proof.
  intros Hnew Hr.
  rewrite (find_reachable _ _ _ _ Hnew Hr).
  rewrite (find_reachable _ _ _ _ Hnew (reachable_new _ _ Hnew)). done.
Qed.


(** *** After [cleanup] *)



End Lookup.

Section Cleanup.
Context {Route Metadata : Type} `{!Routes Route Metadata}.
Context {QueryValue : Type}.
Variable String_ : QueryValue -> string.
Variable encodeURIComponent : string -> string.
Variable prototype_member_text : string -> string.
Implicit Types (r : Router Route Metadata) (params : ParamsObject).


End Cleanup.
End LookupFacts.

(** ** The URL builder against the server, and the parameters of [findParams] *)

Module LinkFacts.
Import Str StrFacts Server Client Spec ParseFacts TrieFacts MatchFacts Agreement UrlFacts.

Section Link.
Context {Route Metadata : Type} `{!Routes Route Metadata}.
Context {QueryValue : Type}.
Variable String_ : QueryValue -> string.
Variable encodeURIComponent : string -> string.
Variable prototype_member_text : string -> string.
Implicit Types (r : Router Route Metadata) (params : ParamsObject).

Lemma emits_accepts params pre emitted :
  Forall2 (emits params) pre emitted -> Forall2 accepts pre emitted.
Proof.
  intros Hem. eapply Forall2_impl; [exact Hem|].
  intros part text. unfold emits, accepts.
  destruct (isDynamic part); [by left | intros ->; by right].
Qed.

Lemma emits_segments params pre emitted :
  Forall segment_ok pre ->
  Forall2 (emits params) pre emitted ->
  Forall2 (fun part text => isDynamic part = true -> mem "/" text = false) pre emitted ->
  Forall segment_ok emitted.
Proof.
  intros Hpre Hem. revert Hpre.
  induction Hem as [|part text pre emitted Hpart Hem IH]; intros Hpre Hval; [done|].
  inversion_clear Hpre as [|? ? Hp Hpre'].
  inversion_clear Hval as [|? ? ? ? Hv Hval'].
  constructor; [|by apply IH].
  unfold emits in Hpart. destruct (isDynamic part).
  - destruct Hpart as [_ Hne]. split; [done | by apply Hv].
  - by subst text.
Qed.

Lemma serverBindings_emits params pre emitted (gp : gmap string string) k :
  Forall2 (emits params) pre emitted ->
  serverBindings pre emitted gp !! k =
  if decide (k ∈ paramNames pre) then valueAt params k else gp !! k.
Proof.
  intros Hem. revert gp.
  induction Hem as [|part text pre emitted Hpart Hem IH]; intros gp.
  - simpl. destruct (decide (k ∈ paramNames [])) as [Hin|]; [|done].
    by apply elem_of_nil in Hin.
  - rewrite serverBindings_cons, paramNames_cons, IH. unfold emits in Hpart.
    destruct (isDynamic part); [|done]. destruct Hpart as [Hvalue _].
    destruct (decide (k ∈ paramNames pre)) as [Hin|Hnin].
    + destruct (decide (k ∈ paramNameOf part :: paramNames pre)) as [|Hn]; [done|].
      exfalso. apply Hn. by right.
    + destruct (decide (k = paramNameOf part)) as [->|Hne].
      * rewrite lookup_insert_eq.
        destruct (decide (paramNameOf part ∈ paramNameOf part :: paramNames pre))
          as [|Hn]; [|exfalso; apply Hn; by left].
        unfold valueAt. by rewrite Hvalue.
      * rewrite lookup_insert_ne by done.
        destruct (decide (k ∈ paramNameOf part :: paramNames pre)) as [Hin|]; [|done].
        by apply elem_of_cons in Hin as [?|?].
Qed.

(** X16.  The server accepts the URLs the client builds.  For a
    registered route whose pattern is in normal form: when url emits the
    segments [pre] of the pattern, parameter values free of slashes, and
    what remains of the pattern are optional parameters of which the
    first is left out, the text url returns is matched by MatchPattern
    against the same pattern, and the parameters MatchPattern extracts
    are the values url was given for the parameters it emitted. *)
Theorem url_is_accepted_by_server r route params pre rest emitted :
  route ∈ cache r ->
  canonical (path route) ->
  parts (path route) = pre ++ rest ->
  Forall2 (emits params) pre emitted ->
  Forall2 (fun part text => isDynamic part = true -> mem "/" text = false) pre emitted ->
  forallb isOptionalParam rest = true ->
  (rest = [] \/ exists p rest', rest = p :: rest' /\ omitted params (paramNameOf p)) ->
  exists serverParams,
    url String_ encodeURIComponent prototype_member_text r route params None
      = Ok (urlText emitted) /\
    MatchPattern (path route) (urlText emitted) = Some serverParams /\
    forall k, serverParams !! k =
              if decide (k ∈ paramNames pre) then valueAt params k else None.
Proof.
  intros Hin Hcan Hparts Hem Hval Hopt Hrest.
  exists (serverBindings pre emitted ∅). split_and!.
  - destruct Hrest as [->|(p & rest' & -> & Hom)].
    + rewrite url_registered by done. rewrite Hparts.
      by rewrite (urlLoop_emits _ _ _ _ _ _ _ Hem).
    + simpl in Hopt. apply andb_true_iff in Hopt as [Hp _].
      apply andb_true_iff in Hp as [Hdyn Hp].
      pose proof (url_stops String_ encodeURIComponent prototype_member_text
                    r route params pre p rest' emitted Hin Hparts Hem Hdyn Hom) as Hstop.
      rewrite Hp in Hstop. by destruct Hstop as [-> _].
  - apply (MatchPattern_accepts _ _ pre rest).
    + by rewrite canonical_SplitPath.
    + apply SplitPath_normal. eapply emits_segments; [|done..].
      pose proof (parts_segment_ok (path route)) as Hok. rewrite Hparts in Hok.
      by apply Forall_app in Hok as [? _].
    + by eapply emits_accepts.
    + done.
  - intros k. rewrite (serverBindings_emits _ _ _ _ _ Hem). by rewrite lookup_empty.
Qed.

End Link.

(** *** The object [findParams] builds *)

Lemma set_property_is_Some (o : ParamsObject) name v k :
  is_Some (set_property o name v !! k) <->
  is_Some (o !! k) \/ (k = name /\ name <> "__proto__").
Proof.
  unfold set_property. case_bool_decide as Hproto.
  - split; [by left | intros [?|[_ ?]]; done].
  - destruct (decide (k = name)) as [->|Hne].
    + rewrite lookup_insert_eq. split; [by right | by eauto].
    + rewrite lookup_insert_ne by done. split; [by left | by intros [?|[? _]]].
Qed.

Lemma findParamsLoop_keys ps segs i (o : ParamsObject) k :
  is_Some (findParamsLoop ps segs i o !! k) <->
  is_Some (o !! k) \/ (k ∈ paramNames ps /\ k <> "__proto__").
Proof.
  revert i o. induction ps as [|p ps IH]; intros i o.
  - simpl. split; [by left | intros [?|[?%elem_of_nil _]]; done].
  - rewrite findParamsLoop_cons, IH, paramNames_cons. destruct (isDynamic p).
    + rewrite set_property_is_Some, elem_of_cons. split.
      * intros [[?|[-> ?]]|[? ?]]; auto.
      * intros [?|[[->|?] ?]]; auto.
    + done.
Qed.

Lemma set_property_value (o : ParamsObject) name v k x :
  set_property o name v !! k = Some (Some x) -> o !! k = Some (Some x) \/ v = Some x.
Proof.
  unfold set_property. case_bool_decide; [by left|].
  destruct (decide (k = name)) as [->|Hne].
  - rewrite lookup_insert_eq. intros [= ->]. by right.
  - rewrite lookup_insert_ne by done. by left.
Qed.

Lemma findParamsLoop_values ps segs i (o : ParamsObject) k x :
  findParamsLoop ps segs i o !! k = Some (Some x) ->
  o !! k = Some (Some x) \/ x ∈ segs.
Proof.
  revert i o. induction ps as [|p ps IH]; intros i o; [by left|].
  rewrite findParamsLoop_cons. intros [Ho|Hx]%IH; [|by right].
  destruct (isDynamic p); [|by left].
  apply set_property_value in Ho as [Ho|Ho]; [by left|].
  right. by eapply list_elem_of_lookup_2.
Qed.

(** X17.  The object findParams hands to the factory has one own property
    for every parameter name of the pattern, required or optional, whatever
    the path is, and no other property; a property that holds a string holds
    a non-empty segment of the path.  (A parameter called "__proto__" is
    the exception: the assignment to that name is swallowed by the setter
    of Object.prototype.) *)
Theorem findParams_binds_every_parameter routePath pathname :
  (forall k, is_Some (findParams routePath pathname !! k) <->
             k ∈ paramNames (parts routePath) /\ k <> "__proto__") /\
  (forall k x, findParams routePath pathname !! k = Some (Some x) ->
             x ∈ parts pathname /\ x <> "" /\ mem "/" x = false).
Proof.
  unfold findParams. split.
  - intros k. rewrite findParamsLoop_keys, lookup_empty. split; [|by right].
    intros [[? [=]]|?]. done.
  - intros k x [Hx|Hx]%findParamsLoop_values; [by rewrite lookup_empty in Hx|].
    fold (parts pathname) in Hx. split; [done|].
    by apply (proj1 (Forall_forall _ _) (parts_segment_ok pathname)).
Qed.

End LinkFacts.

(** ** The preload engine *)

Module EngineFacts.
Import Str StrFacts Server Engine ServerFacts.

Section EngineFacts.
Context {Message : Type}.
Variable encode : Message -> string.
Variable PreloadFunc :
  nat -> string -> option (gmap string string) -> option (option Message * option Message).
Variable range : nat -> RangeOrder.

Abbreviation subcall := (subcall encode PreloadFunc range).
Abbreviation executeForPath := (executeForPath encode PreloadFunc range).

Lemma record_lookup (preloaded : gmap string PreloadedRpc) k' v' k :
  record preloaded (k', v') !! k = if decide (k' = k) then Some v' else preloaded !! k.
Proof.
  unfold record. simpl. destruct (decide (k' = k)) as [->|Hne].
  - by rewrite lookup_insert_eq.
  - by rewrite lookup_insert_ne.
Qed.

Lemma writes_lookup writes (preloaded : gmap string PreloadedRpc) k v :
  foldl record preloaded writes !! k = Some v ->
  preloaded !! k = Some v \/ (k, v) ∈ writes.
Proof.
  revert preloaded. induction writes as [|[k' v'] writes IH]; intros preloaded; [by left|].
  cbn [foldl]. intros [Hk|Hk]%IH; [|right; by right]. rewrite record_lookup in Hk.
  destruct (decide (k' = k)) as [->|Hne].
  - injection Hk as ->. right. by left.
  - by left.
Qed.

Lemma writes_is_Some writes (preloaded : gmap string PreloadedRpc) k :
  is_Some (preloaded !! k) \/ k ∈ writes.*1 ->
  is_Some (foldl record preloaded writes !! k).
Proof.
  revert preloaded. induction writes as [|[k' v'] writes IH]; intros preloaded.
  - intros [?|?%elem_of_nil]; done.
  - cbn [foldl]. rewrite fmap_cons. intros Hk. apply IH. rewrite record_lookup.
    destruct (decide (k' = k)) as [->|Hne]; [by left|].
    destruct Hk as [?|[?|?]%elem_of_cons]; [by left | done | by right].
Qed.

Lemma writes_unique writes (preloaded : gmap string PreloadedRpc) k v :
  NoDup writes.*1 -> (k, v) ∈ writes ->
  foldl record preloaded writes !! k = Some v.
Proof.
  revert preloaded. induction writes as [|[k' v'] writes IH]; intros preloaded Hnd Hin.
  - by apply elem_of_nil in Hin.
  - rewrite fmap_cons in Hnd. apply NoDup_cons in Hnd as [Hfresh Hnd].
    cbn [foldl]. apply elem_of_cons in Hin as [[= <- <-]|Hin]; [|by apply IH].
    destruct (foldl record (record preloaded (k, v)) writes !! k) as [v''|] eqn:Hk.
    + apply writes_lookup in Hk as [Hk|Hk].
      * rewrite record_lookup in Hk. by destruct (decide (k = k)).
      * exfalso. apply Hfresh. apply list_elem_of_fmap. by exists (k, v'').
    + assert (is_Some (foldl record (record preloaded (k, v)) writes !! k)) as [? ?].
      { apply writes_is_Some. left. rewrite record_lookup. by destruct (decide (k = k)). }
      congruence.
Qed.

(** The writes of the goroutines, in the order of the schedule. *)
Lemma scheduled_writes schedule routeParams (rpcs : list RpcSpec) write :
  (forall l, schedule l ≡ₚ l) ->
  write ∈ omap (fun c => subcall routeParams c.1 c.2) (schedule (imap pair rpcs)) <->
  exists i rpcSpec, rpcs !! i = Some rpcSpec /\ subcall routeParams i rpcSpec = Some write.
Proof.
  intros Hperm. rewrite list_elem_of_omap. split.
  - intros ([i rpcSpec] & Hin & Hw). rewrite Hperm in Hin.
    apply elem_of_lookup_imap in Hin as (j & x & [= -> ->] & Hx). eauto.
  - intros (i & rpcSpec & Hi & Hw). exists (i, rpcSpec). split; [|done].
    rewrite Hperm. apply elem_of_lookup_imap. eauto.
Qed.

Lemma subcall_method routeParams i rpcSpec write :
  subcall routeParams i rpcSpec = Some write -> write.1 = Method rpcSpec.
Proof.
  unfold Engine.subcall, subcallDecision.
  destruct (HasUnsubstitutedParam _); [done|].
  destruct (PreloadFunc _ _ _) as [[req resp]|]; [|done]. by intros [= <-].
Qed.

Lemma scheduled_methods schedule routeParams (rpcs : list RpcSpec) :
  (forall l, schedule l ≡ₚ l) ->
  NoDup (Method <$> rpcs) ->
  NoDup (omap (fun c => subcall routeParams c.1 c.2) (schedule (imap pair rpcs))).*1.
Proof.
  intros Hperm Hnd.
  assert (forall l : list (nat * RpcSpec),
            (omap (fun c => subcall routeParams c.1 c.2) l).*1
              `sublist_of` (fun c => Method c.2) <$> l) as Hsub.
  { induction l as [|[i rpcSpec] l IH]; [done|]. cbn [omap list_omap fmap list_fmap fst snd].
    destruct (subcall routeParams i rpcSpec) as [write|] eqn:Hw.
    - rewrite fmap_cons, (subcall_method _ _ _ _ Hw). by apply sublist_skip.
    - by apply sublist_cons. }
  eapply sublist_NoDup; [|apply Hsub].
  rewrite Hperm.
  assert ((fun c : nat * RpcSpec => Method c.2) <$> imap pair rpcs = Method <$> rpcs) as ->; [|done].
  rewrite fmap_imap. apply (imap_const Method).
Qed.

(** X18.  Whatever order the goroutines of executeForPath reach the
    lock in, the map it returns has an entry for a method exactly when
    the matched route lists a sub-call with that method that was not
    skipped and whose preload callback returned without error; the entry
    is the encoded request and response of one such sub-call.  When no
    route matches the path the map is empty. *)
Theorem executeForPath_entries schedule routes path :
  (forall l, schedule l ≡ₚ l) ->
  match MatchRoute routes path with
  | None => executeForPath schedule routes path = ∅
  | Some (route, routeParams) =>
      (forall method entry,
          executeForPath schedule routes path !! method = Some entry ->
          exists i rpcSpec,
            Rpcs route !! i = Some rpcSpec /\
            subcall routeParams i rpcSpec = Some (method, entry)) /\
      (forall i rpcSpec method entry,
          Rpcs route !! i = Some rpcSpec ->
          subcall routeParams i rpcSpec = Some (method, entry) ->
          is_Some (executeForPath schedule routes path !! method))
  end.
Proof.
  intros Hperm. unfold Engine.executeForPath.
  destruct (MatchRoute routes path) as [[route routeParams]|]; [|done]. split.
  - intros method entry [Hk|Hk]%writes_lookup; [by rewrite lookup_empty in Hk|].
    by apply scheduled_writes in Hk.
  - intros i rpcSpec method entry Hi Hw. apply writes_is_Some. right.
    apply list_elem_of_fmap. exists (method, entry). split; [done|].
    apply scheduled_writes; eauto.
Qed.

(** X19.  When the sub-calls of the matched route have pairwise
    different methods, executeForPath returns the same map whatever
    order the goroutines reach the lock in: the entry of a method is the
    result of its one sub-call. *)
Theorem executeForPath_schedule_independent schedule1 schedule2 routes path :
  (forall l, schedule1 l ≡ₚ l) -> (forall l, schedule2 l ≡ₚ l) ->
  (forall route routeParams,
      MatchRoute routes path = Some (route, routeParams) ->
      NoDup (Method <$> Rpcs route)) ->
  executeForPath schedule1 routes path = executeForPath schedule2 routes path.
Proof.
  intros Hperm1 Hperm2 Hnd. unfold Engine.executeForPath.
  destruct (MatchRoute routes path) as [[route routeParams]|]; [|done].
  specialize (Hnd _ _ eq_refl).
  assert (forall s1 s2 k v,
            (forall l, s1 l ≡ₚ l) -> (forall l, s2 l ≡ₚ l) ->
            foldl record ∅ (omap (fun c => subcall routeParams c.1 c.2)
                              (s1 (imap pair (Rpcs route)))) !! k = Some v ->
            foldl record ∅ (omap (fun c => subcall routeParams c.1 c.2)
                              (s2 (imap pair (Rpcs route)))) !! k = Some v) as Hone.
  { intros s1 s2 k v H1 H2 [Hk|Hk]%writes_lookup; [by rewrite lookup_empty in Hk|].
    apply writes_unique; [by apply scheduled_methods|].
    apply scheduled_writes; [done|]. by apply (scheduled_writes s1) in Hk. }
  apply map_eq. intros k. apply option_eq. intros v. split; by apply Hone.
Qed.

End EngineFacts.
End EngineFacts.

(** ** Length-prefixed messages *)

Module WireFacts.
Import Wire.
Local Open Scope Z_scope.

Lemma land_disjoint c n b :
  0 <= n -> 0 <= b < 2 ^ n -> Z.land (c * 2 ^ n) b = 0.
Proof.
  intros Hn Hb. apply Z.bits_inj'. intros i Hi. rewrite Z.land_spec, Z.bits_0.
  destruct (Z.lt_ge_cases i n) as [Hlt|Hge].
  - by rewrite Z.mul_pow2_bits_low.
  - destruct (decide (b = 0)) as [->|Hne]; [by rewrite Z.bits_0, andb_false_r|].
    rewrite (Z.bits_above_log2 b i), andb_false_r; [done | lia |].
    apply Z.log2_lt_pow2; [lia|].
    apply Z.lt_le_trans with (2 ^ n); [lia|]. apply Z.pow_le_mono_r; lia.
Qed.

Lemma lor_disjoint c n b :
  0 <= n -> 0 <= b < 2 ^ n -> Z.lor (c * 2 ^ n) b = c * 2 ^ n + b.
Proof.
  intros Hn Hb. pose proof (land_disjoint c n b Hn Hb) as Hland.
  by rewrite <- Z.lxor_lor, <- Z.add_nocarry_lxor.
Qed.

Lemma byte_land v : Z.land v 255 = v mod 2 ^ 8.
Proof. by rewrite <- (Z.land_ones v 8). Qed.

Lemma PutUint32_bytes v :
  PutUint32 v = [ (v / 2 ^ 24) mod 2 ^ 8; (v / 2 ^ 16) mod 2 ^ 8; (v / 2 ^ 8) mod 2 ^ 8; v mod 2 ^ 8 ].
Proof. unfold PutUint32. by rewrite !byte_land, !Z.shiftr_div_pow2. Qed.

Lemma length_PutUint32 v : length (PutUint32 v) = 4%nat.
Proof. reflexivity. Qed.

Lemma Uint32_bytes b0 b1 b2 b3 rest :
  0 <= b0 < 256 -> 0 <= b1 < 256 -> 0 <= b2 < 256 -> 0 <= b3 < 256 ->
  Uint32 (b0 :: b1 :: b2 :: b3 :: rest) = Some (b0 * 2 ^ 24 + b1 * 2 ^ 16 + b2 * 2 ^ 8 + b3).
Proof.
  intros H0 H1 H2 H3. unfold Uint32, uint32. f_equal.
  rewrite !Z.shiftl_mul_pow2 by lia.
  rewrite !Z.mod_small by lia.
  rewrite (Z.lor_comm b3), lor_disjoint by lia.
  rewrite (Z.lor_comm _ (b1 * _)), lor_disjoint by lia.
  rewrite (Z.lor_comm _ (b0 * _)), lor_disjoint by lia. lia.
Qed.

Lemma Uint32_PutUint32 v rest :
  0 <= v < 2 ^ 32 -> Uint32 (PutUint32 v ++ rest) = Some v.
Proof.
  intros Hv. rewrite PutUint32_bytes. cbn [app].
  rewrite Uint32_bytes by (apply Z.mod_pos_bound; lia). f_equal.
  Z.div_mod_to_equations. lia.
Qed.

End WireFacts.

Module StreamFacts.
Import Wire Stream Transport Framing WireFacts.
Local Open Scope Z_scope.

Lemma len_app {A} (a b : list A) : len (a ++ b) = len a + len b.
Proof. unfold len. rewrite length_app. lia. Qed.

Lemma len_nonneg {A} (a : list A) : 0 <= len a.
Proof. unfold len. lia. Qed.

Lemma len_PutUint32 v : len (PutUint32 v) = 4.
Proof. reflexivity. Qed.

Lemma to_nat_len {A} (a : list A) : Z.to_nat (len a) = length a.
Proof. unfold len. lia. Qed.

Lemma uint32_small v : 0 <= v < 2 ^ 32 -> uint32 v = v.
Proof. intros Hv. unfold uint32. by rewrite Z.mod_small. Qed.

Lemma frame_eq msg : frame msg = PutUint32 (uint32 (len msg)) ++ msg.
Proof. reflexivity. Qed.

Lemma len_frame msg : len (frame msg) = 4 + len msg.
Proof. by rewrite frame_eq, len_app, len_PutUint32. Qed.

Lemma sent_frames_from sa msgs :
  response (foldl Send sa msgs) = response sa ++ concat (frame <$> msgs).
Proof.
  revert sa. induction msgs as [|m msgs IH]; intros sa.
  - simpl. by rewrite app_nil_r.
  - cbn [foldl fmap list_fmap concat]. rewrite IH, frame_eq.
    unfold Send. cbn [response]. by rewrite <- !app_assoc.
Qed.

Lemma sent_frames msgs : sent msgs = concat (frame <$> msgs).
Proof. unfold sent. by rewrite sent_frames_from. Qed.

Lemma subslice_Some s lo hi :
  0 <= lo -> lo <= hi -> hi <= len s ->
  subslice s lo hi = Some (take (Z.to_nat (hi - lo)) (drop (Z.to_nat lo) s)).
Proof.
  intros H1 H2 H3. unfold subslice.
  by rewrite (proj2 (Z.leb_le _ _) H1), (proj2 (Z.leb_le _ _) H2), (proj2 (Z.leb_le _ _) H3).
Qed.

(** *** The reader of the server *)

(** One call of [Next] at the start of a frame. *)
Lemma Next_at_frame before msg after :
  len msg < 2 ^ 32 - 4 ->
  Next (mkMessageReader (before ++ frame msg ++ after) (len before)) =
  (Message msg, mkMessageReader (before ++ frame msg ++ after) (len (before ++ frame msg))).
Proof.
  intros Hlen. pose proof (len_nonneg msg) as Hmsg. pose proof (len_nonneg before) as Hb.
  pose proof (len_nonneg after) as Ha.
  unfold Next. cbn [data offset].
  rewrite !len_app, len_frame.
  rewrite (proj2 (Z.leb_gt _ _)) by lia.
  rewrite subslice_Some by (rewrite ?len_app, ?len_frame; lia).
  rewrite to_nat_len, drop_app_length.
  rewrite take_ge by (rewrite <- to_nat_len, !len_app, len_frame; lia).
  rewrite len_app, len_frame. rewrite (proj2 (Z.ltb_ge _ _)) by lia.
  rewrite subslice_Some by (rewrite ?len_app, ?len_frame; lia).
  change (Z.to_nat 0) with 0%nat. change (Z.to_nat (4 - 0)) with 4%nat.
  rewrite drop_0, frame_eq, <- app_assoc.
  rewrite (take_app_length' _ _ 4) by done. cbn [mbind option_bind].
  rewrite !uint32_small by lia.
  pose proof (Uint32_PutUint32 (len msg) [] ltac:(lia)) as Hread.
  rewrite app_nil_r in Hread. rewrite Hread.
  rewrite (proj2 (Z.ltb_ge _ _)) by lia.
  rewrite (uint32_small (4 + len msg)) by lia.
  rewrite subslice_Some by (rewrite ?len_app, ?len_PutUint32; lia).
  replace (4 + len msg - 4) with (len msg) by lia.
  change (Z.to_nat 4) with (length (PutUint32 (len msg))).
  rewrite drop_app_length, to_nat_len, take_app_length.
  do 2 f_equal; lia.
Qed.

Lemma Next_at_end stream : Next (mkMessageReader stream (len stream)) = (EOF, mkMessageReader stream (len stream)).
Proof. unfold Next. cbn [data offset]. by rewrite Z.leb_refl. Qed.

Lemma nexts_frames before msgs after n :
  Forall (fun msg => len msg < 2 ^ 32 - 4) msgs ->
  nexts (length msgs + n) (mkMessageReader (before ++ concat (frame <$> msgs) ++ after) (len before)) =
  (Message <$> msgs) ++
  nexts n (mkMessageReader (before ++ concat (frame <$> msgs) ++ after)
             (len (before ++ concat (frame <$> msgs)))).
Proof.
  intros Hlen. revert before. induction Hlen as [|m msgs Hm _ IH]; intros before.
  - simpl. by rewrite app_nil_r.
  - cbn [length Nat.add nexts fmap list_fmap concat app].
    rewrite <- !app_assoc, Next_at_frame by done. cbn [fst snd]. f_equal.
    rewrite (app_assoc before (frame m)), IH. by rewrite <- !app_assoc.
Qed.

Lemma Next_at_partial before msg k :
  len msg < 2 ^ 32 - 4 -> (0 < k < length (frame msg))%nat ->
  Next (mkMessageReader (before ++ take k (frame msg)) (len before)) =
  (ErrUnexpectedEOF, mkMessageReader (before ++ take k (frame msg)) (len before)).
Proof.
  intros Hlen Hk. pose proof (len_nonneg msg) as Hmsg. pose proof (len_nonneg before) as Hb.
  assert (len (take k (frame msg)) = Z.of_nat k) as Hlk.
  { unfold len. rewrite length_take. lia. }
  assert (Z.of_nat k < 4 + len msg) as Hk'.
  { rewrite <- len_frame. unfold len. lia. }
  unfold Next. cbn [data offset]. rewrite !len_app, Hlk.
  rewrite (proj2 (Z.leb_gt _ _)) by lia.
  rewrite subslice_Some by (rewrite ?len_app, ?Hlk; lia).
  rewrite to_nat_len, drop_app_length.
  rewrite take_ge by (rewrite <- to_nat_len, Hlk; lia). rewrite Hlk.
  destruct (Z.ltb_spec (Z.of_nat k) 4) as [Hshort|Hlong]; [done|].
  rewrite subslice_Some by (rewrite ?Hlk; lia).
  change (Z.to_nat 0) with 0%nat. change (Z.to_nat (4 - 0)) with 4%nat.
  rewrite drop_0, take_take, Nat.min_l by lia.
  rewrite frame_eq, (take_app_length' _ _ 4) by done. cbn [mbind option_bind].
  rewrite uint32_small by lia.
  pose proof (Uint32_PutUint32 (len msg) [] ltac:(lia)) as Hread.
  rewrite app_nil_r in Hread. rewrite Hread.
  by rewrite (proj2 (Z.ltb_lt _ _)) by lia.
Qed.

(** X20.  The reader of the server returns what Send wrote: over the
    body produced by calling Send for each message in turn, the calls of
    Next return the messages in order, each with a nil error, and then
    io.EOF.  A message must be shorter than 2^32 - 4 bytes for this: the
    length prefix holds 32 bits, and Next adds 4 to it in 32 bits. *)
Theorem Next_returns_what_Send_wrote msgs :
  Forall (fun msg => len msg < 2 ^ 32 - 4) msgs ->
  nexts (S (length msgs)) (NewMessageReader (sent msgs)) = (Message <$> msgs) ++ [EOF].
Proof.
  intros Hlen. rewrite sent_frames. unfold NewMessageReader.
  pose proof (nexts_frames [] msgs [] 1 Hlen) as Hn.
  rewrite Nat.add_1_r, !app_nil_l, !app_nil_r in Hn.
  change (len (@nil Z)) with 0 in Hn. rewrite Hn. f_equal.
  cbn [nexts]. by rewrite Next_at_end.
Qed.

(** X21.  On a body that ends inside a frame, Next returns the messages
    of the complete frames and then io.ErrUnexpectedEOF, and goes on
    returning that error: the reader does not move on an error. *)
Theorem Next_reports_a_truncated_stream msgs msg k :
  Forall (fun msg => len msg < 2 ^ 32 - 4) msgs ->
  len msg < 2 ^ 32 - 4 ->
  (0 < k < length (frame msg))%nat ->
  nexts (length msgs + 2) (NewMessageReader (sent msgs ++ take k (frame msg))) =
  (Message <$> msgs) ++ [ErrUnexpectedEOF; ErrUnexpectedEOF].
Proof.
  intros Hlen Hmsg Hk. rewrite sent_frames. unfold NewMessageReader.
  pose proof (nexts_frames [] msgs (take k (frame msg)) 2 Hlen) as Hn.
  rewrite !app_nil_l in Hn. change (len (@nil Z)) with 0 in Hn. rewrite Hn. f_equal.
  cbn [nexts]. rewrite Next_at_partial by done. cbn [fst snd].
  by rewrite Next_at_partial.
Qed.

Lemma Uint32_range b0 b1 b2 b3 rest :
  bytes (b0 :: b1 :: b2 :: b3 :: rest) ->
  exists v, Uint32 (b0 :: b1 :: b2 :: b3 :: rest) = Some v /\ 0 <= v < 2 ^ 32.
Proof.
  intros Hb. inversion_clear Hb as [|? ? H0 Hb1]. inversion_clear Hb1 as [|? ? H1 Hb2].
  inversion_clear Hb2 as [|? ? H2 Hb3]. inversion_clear Hb3 as [|? ? H3 _].
  rewrite Uint32_bytes by done. eexists. split; [done|]. lia.
Qed.

(** X22.  On a sequence of bytes shorter than 4 GiB, whatever it holds,
    Next does not panic and never changes the data.  When it returns a
    message, the message is the stretch of the data behind the four bytes
    at the offset, and the offset moves behind it without leaving the
    data; when it returns an error, the reader is left as it was. *)
Theorem Next_is_safe r :
  0 <= offset r -> bytes (data r) -> len (data r) < 2 ^ 32 ->
  (Next r).1 <> Panic /\
  data (Next r).2 = data r /\
  match (Next r).1 with
  | Message msg =>
      offset (Next r).2 = offset r + 4 + len msg /\
      offset (Next r).2 <= len (data r) /\
      msg = take (length msg) (drop (Z.to_nat (offset r) + 4) (data r))
  | _ => (Next r).2 = r
  end.
Proof.
  intros Hoff Hbytes Hsize. destruct r as [stream off]. cbn [data offset] in *.
  unfold Next. cbn [data offset].
  destruct (Z.leb_spec (len stream) off) as [Hend|Hin]; [done|].
  rewrite subslice_Some by lia.
  rewrite take_ge by (rewrite length_drop; unfold len in *; lia).
  remember (drop (Z.to_nat off) stream) as remaining eqn:Hr.
  assert (len remaining = len stream - off) as Hrem.
  { subst remaining. unfold len in *. rewrite length_drop. lia. }
  destruct (Z.ltb_spec (len remaining) 4) as [Hshort|Hlong]; [done|].
  rewrite subslice_Some by lia.
  change (Z.to_nat 0) with 0%nat. change (Z.to_nat (4 - 0)) with 4%nat. rewrite drop_0.
  assert (bytes remaining) as Hrb by (subst remaining; by apply Forall_drop).
  destruct remaining as [|b0 [|b1 [|b2 [|b3 rest]]]];
    try (unfold len in Hlong; simpl in Hlong; lia).
  cbn [take mbind option_bind].
  destruct (Uint32_range b0 b1 b2 b3 [] ) as (v & Hv & Hrange).
  { unfold bytes in *. rewrite !Forall_cons in Hrb. rewrite !Forall_cons.
    destruct Hrb as (? & ? & ? & ? & _). split_and!; try lia. constructor. }
  rewrite take_0, Hv.
  destruct (Z.ltb_spec (len (b0 :: b1 :: b2 :: b3 :: rest)) (4 + v)) as [Hmore|Hall];
    [done|].
  rewrite uint32_small by lia. rewrite subslice_Some by lia.
  cbn [fst snd data offset]. split_and!; try done.
  - unfold len. rewrite length_take, length_drop. unfold len in Hall. simpl in *. lia.
  - lia.
  - rewrite length_take, length_drop.
    rewrite <- drop_drop, <- Hr. cbn [drop].
    change (Z.to_nat 4) with 4%nat. cbn [drop]. f_equal.
    unfold len in Hall. simpl in *. lia.
Qed.

(** *** The transport of the client *)

Lemma ToInt32_small v : - 2 ^ 31 <= v < 2 ^ 31 -> ToInt32 v = v.
Proof. intros Hv. unfold ToInt32. rewrite Z.mod_small by lia. lia. Qed.

Lemma readLength_bytes b0 b1 b2 b3 rest :
  0 <= b0 < 128 -> 0 <= b1 < 256 -> 0 <= b2 < 256 -> 0 <= b3 < 256 ->
  readLength (b0 :: b1 :: b2 :: b3 :: rest) = b0 * 2 ^ 24 + b1 * 2 ^ 16 + b2 * 2 ^ 8 + b3.
Proof.
  intros H0 H1 H2 H3. unfold readLength, bor, shl. cbn [nth].
  rewrite !(ToInt32_small b0), !(ToInt32_small b1), !(ToInt32_small b2),
    !(ToInt32_small b3) by lia.
  rewrite !Z.shiftl_mul_pow2 by lia.
  rewrite !(ToInt32_small (b0 * _)), !(ToInt32_small (b1 * _)),
    !(ToInt32_small (b2 * _)) by lia.
  rewrite lor_disjoint by lia.
  rewrite !(ToInt32_small (b0 * 2 ^ 24 + b1 * 2 ^ 16)) by lia.
  replace (b0 * 2 ^ 24 + b1 * 2 ^ 16) with ((b0 * 2 ^ 8 + b1) * 2 ^ 16) by lia.
  rewrite lor_disjoint by lia.
  rewrite !(ToInt32_small ((b0 * 2 ^ 8 + b1) * 2 ^ 16 + b2 * 2 ^ 8)) by lia.
  replace ((b0 * 2 ^ 8 + b1) * 2 ^ 16 + b2 * 2 ^ 8)
    with ((b0 * 2 ^ 16 + b1 * 2 ^ 8 + b2) * 2 ^ 8) by lia.
  rewrite lor_disjoint by lia. rewrite ToInt32_small by lia. lia.
Qed.

Lemma readLength_PutUint32 v rest :
  0 <= v < 2 ^ 31 -> readLength (PutUint32 v ++ rest) = v.
Proof.
  intros Hv. rewrite PutUint32_bytes. cbn [app].
  rewrite readLength_bytes; try (apply Z.mod_pos_bound; lia).
  - Z.div_mod_to_equations. lia.
  - Z.div_mod_to_equations. lia.
Qed.

Lemma readLength_take buffer k :
  (4 <= k)%nat -> readLength (take k buffer) = readLength buffer.
Proof.
  intros Hk. unfold readLength.
  do 4 (destruct k as [|k]; [lia|]).
  destruct buffer as [|b0 [|b1 [|b2 [|b3 rest]]]]; done.
Qed.

Lemma slice_range a lo hi :
  0 <= lo -> lo <= hi -> hi <= len a ->
  slice a lo (Some hi) = take (Z.to_nat (hi - lo)) (drop (Z.to_nat lo) a).
Proof.
  intros H1 H2 H3. unfold slice.
  rewrite (proj2 (Z.ltb_ge lo 0)), (proj2 (Z.ltb_ge hi 0)) by lia.
  by rewrite !Z.min_l by lia.
Qed.

Lemma slice_from a lo :
  0 <= lo -> lo <= len a -> slice a lo None = drop (Z.to_nat lo) a.
Proof.
  intros H1 H2. pose proof (len_nonneg a). unfold slice.
  rewrite (proj2 (Z.ltb_ge lo 0)), (proj2 (Z.ltb_ge (len a) 0)) by lia.
  rewrite !Z.min_l by lia. apply take_ge. rewrite length_drop. unfold len in *. lia.
Qed.

(** One iteration of the loop on a buffer that starts with a frame. *)
Lemma parseMessages_frame fuel msg rest :
  len msg < 2 ^ 31 ->
  parseMessages (S fuel) (frame msg ++ rest) =
  match parseMessages fuel rest with
  | Some (messages, buffer') => Some (msg :: messages, buffer')
  | None => None
  end.
Proof.
  intros Hlen. pose proof (len_nonneg msg) as Hmsg. pose proof (len_nonneg rest) as Hrest.
  cbn [parseMessages]. rewrite len_app, len_frame.
  rewrite (proj2 (Z.ltb_ge _ 4)) by lia.
  rewrite frame_eq, uint32_small, <- app_assoc by lia.
  rewrite readLength_PutUint32 by lia.
  rewrite (proj2 (Z.ltb_ge _ _)) by lia.
  rewrite slice_range by (rewrite ?len_app, ?len_PutUint32; lia).
  rewrite slice_from by (rewrite ?len_app, ?len_PutUint32; lia).
  replace (4 + len msg - 4) with (len msg) by lia.
  change (Z.to_nat 4) with (length (PutUint32 (len msg))).
  rewrite drop_app_length, to_nat_len, take_app_length.
  replace (Z.to_nat (4 + len msg)) with (length (PutUint32 (len msg) ++ msg))
    by (rewrite length_app; unfold len; simpl; lia).
  by rewrite app_assoc, drop_app_length.
Qed.

(** The loop stops on a buffer that holds less than a frame. *)
Lemma parseMessages_partial fuel msg k :
  len msg < 2 ^ 31 -> (k < length (frame msg))%nat ->
  parseMessages (S fuel) (take k (frame msg)) = Some ([], take k (frame msg)).
Proof.
  intros Hlen Hk. pose proof (len_nonneg msg) as Hmsg.
  assert (len (take k (frame msg)) = Z.of_nat k) as Hlk.
  { unfold len. rewrite length_take. lia. }
  assert (Z.of_nat k < 4 + len msg) as Hk'.
  { rewrite <- len_frame. unfold len. lia. }
  cbn [parseMessages]. rewrite Hlk.
  destruct (Z.ltb_spec (Z.of_nat k) 4) as [Hshort|Hlong]; [done|].
  rewrite readLength_take by lia.
  rewrite frame_eq, uint32_small, readLength_PutUint32 by lia.
  by rewrite (proj2 (Z.ltb_lt _ _)) by lia.
Qed.

Lemma parseMessages_frames fuel msgs partial :
  Forall (fun msg => len msg < 2 ^ 31) msgs ->
  (length msgs < fuel)%nat ->
  (forall fuel', parseMessages (S fuel') partial = Some ([], partial)) ->
  parseMessages fuel (concat (frame <$> msgs) ++ partial) = Some (msgs, partial).
Proof.
  intros Hlen. revert fuel. induction Hlen as [|m msgs Hm _ IH]; intros fuel Hfuel Hstable.
  - destruct fuel as [|fuel]; [simpl in Hfuel; lia|]. apply Hstable.
  - destruct fuel as [|fuel]; [simpl in Hfuel; lia|].
    cbn [fmap list_fmap concat]. rewrite <- app_assoc, parseMessages_frame by done.
    rewrite IH; [done | simpl in Hfuel; lia | done].
Qed.

(** Where a prefix of a stream of frames ends. *)
Lemma prefix_of_frames msgs partial P Q :
  P ++ Q = concat (frame <$> msgs) ++ partial ->
  Forall (fun msg => len msg < 2 ^ 31) msgs ->
  (forall j fuel, parseMessages (S fuel) (take j partial) = Some ([], take j partial)) ->
  exists ms1 ms2 p1,
    msgs = ms1 ++ ms2 /\ P = concat (frame <$> ms1) ++ p1 /\
    p1 ++ Q = concat (frame <$> ms2) ++ partial /\
    forall fuel, parseMessages (S fuel) p1 = Some ([], p1).
Proof.
  intros Heq Hlen Hstable. revert P Heq.
  induction Hlen as [|m msgs Hm Hlen IH]; intros P Heq.
  - exists [], [], P. split_and!; try done.
    simpl in Heq. intros fuel.
    assert (P = take (length P) partial) as ->
      by (by rewrite <- Heq, take_app_length).
    apply Hstable.
  - cbn [fmap list_fmap concat] in Heq. rewrite <- app_assoc in Heq.
    apply app_eq_app in Heq as [l [[HP HR]|[HF HQ]]].
    + symmetry in HR. destruct (IH l HR) as (ms1 & ms2 & p1 & -> & -> & Hrest & Hp1).
      exists (m :: ms1), ms2, p1. split_and!; try done.
      cbn [fmap list_fmap concat]. by rewrite HP, <- app_assoc.
    + destruct l as [|b l].
      * rewrite app_nil_r in HF. simpl in HQ.
        destruct (IH [] ) as (ms1 & ms2 & p1 & -> & Hnil & Hrest & Hp1); [by rewrite HQ|].
        exists [m], (ms1 ++ ms2), []. split_and!.
        -- done.
        -- cbn [fmap list_fmap concat]. by rewrite !app_nil_r.
        -- by rewrite HQ.
        -- intros fuel. apply (Hstable 0%nat).
      * exists [], (m :: msgs), P. split_and!; try done.
        -- cbn [fmap list_fmap concat]. by rewrite HQ, HF, <- !app_assoc.
        -- intros fuel.
           assert (P = take (length P) (frame m)) as ->
             by (by rewrite HF, take_app_length).
           apply parseMessages_partial; [done|].
           rewrite HF, length_app. simpl. lia.
Qed.

Lemma receive_frames fuel buffer chunks msgs partial :
  buffer ++ concat chunks = concat (frame <$> msgs) ++ partial ->
  Forall (fun msg => len msg < 2 ^ 31) msgs ->
  (length msgs < fuel)%nat ->
  (forall j fuel', parseMessages (S fuel') (take j partial) = Some ([], take j partial)) ->
  chunks <> [] ->
  receive fuel buffer chunks = Some msgs.
Proof.
  intros Heq Hlen Hfuel Hstable Hne. revert buffer msgs Heq Hlen Hfuel.
  induction chunks as [|value chunks IH]; intros buffer msgs Heq Hlen Hfuel; [done|].
  cbn [concat] in Heq. rewrite app_assoc in Heq.
  destruct (prefix_of_frames _ _ _ _ Heq Hlen Hstable)
    as (ms1 & ms2 & p1 & -> & HP & Hrest & Hp1).
  apply Forall_app in Hlen as [Hlen1 Hlen2]. rewrite length_app in Hfuel.
  cbn [receive]. rewrite HP, parseMessages_frames; [|done | lia | done].
  destruct chunks as [|value' chunks].
  - cbn [receive]. simpl in Hrest. rewrite app_nil_r in Hrest.
    assert (ms2 = []) as ->; [|by rewrite app_nil_r].
    destruct ms2 as [|m ms2]; [done|]. exfalso.
    apply Forall_cons in Hlen2 as [Hm _].
    assert (length p1 < length (frame m))%nat as Hshort.
    { destruct (decide (length p1 < length (frame m))%nat) as [?|Hge]; [done|]. 
      exfalso. cbn [fmap list_fmap concat] in Hrest.
      assert (p1 = frame m ++ drop (length (frame m)) p1) as Hp.
      { rewrite <- (take_drop (length (frame m)) p1) at 1. f_equal.
        rewrite Hrest, <- app_assoc. by rewrite take_app_length. }
      specialize (Hp1 1%nat). rewrite Hp, parseMessages_frame in Hp1 by done.
      by destruct (parseMessages 1 _) as [[? ?]|]. }
    rewrite Hrest in Hshort. cbn [fmap list_fmap concat] in Hshort.
    rewrite !length_app in Hshort. lia.
  - rewrite (IH ltac:(done) p1 ms2); [done | done | done | lia].
Qed.

Lemma partial_frame_stable msg k :
  len msg < 2 ^ 31 -> (k < length (frame msg))%nat ->
  forall j fuel, parseMessages (S fuel) (take j (take k (frame msg)))
                 = Some ([], take j (take k (frame msg))).
Proof.
  intros Hlen Hk j fuel. rewrite take_take. apply parseMessages_partial; [done | lia].
Qed.

Lemma requestBody_frames msgs : requestBody msgs = concat (frame <$> msgs).
Proof.
  unfold requestBody. induction msgs as [|m msgs IH]; [done|].
  cbn [flat_map app concat fmap list_fmap]. rewrite IH.
  by rewrite app_assoc.
Qed.

(** X23.  The client reads what Send wrote, however the network cuts the
    body into chunks: when the chunks put together are the body produced
    by calling Send for each message in turn, serverStreamingRequest hands
    the subscriber exactly those messages, in order, and completes.  The
    messages must be shorter than 2^31 bytes, since the client reads the
    length prefix with 32-bit signed operators. *)
Theorem client_reads_what_Send_wrote chunks msgs fuel :
  concat chunks = sent msgs ->
  Forall (fun msg => len msg < 2 ^ 31) msgs ->
  (length msgs < fuel)%nat ->
  serverStreamingRequest fuel chunks = Some msgs.
Proof.
  intros Heq Hlen Hfuel. unfold serverStreamingRequest.
  destruct chunks as [|value chunks].
  - rewrite sent_frames in Heq. simpl in Heq. simpl.
    destruct msgs as [|m msgs]; [done|]. by destruct (frame_eq m).
  - apply (receive_frames _ _ _ _ []); try done.
    + by rewrite Heq, sent_frames, app_nil_r.
    + intros j fuel'. by rewrite take_nil.
Qed.

(** X24.  A body that ends inside a frame is read without complaint by
    the client: serverStreamingRequest hands over the messages of the
    complete frames and completes, dropping the bytes of the unfinished
    frame, where the reader of the server reports
    io.ErrUnexpectedEOF. *)
Theorem client_drops_an_unfinished_frame chunks msgs msg k fuel :
  concat chunks = sent msgs ++ take k (frame msg) ->
  Forall (fun msg => len msg < 2 ^ 31) msgs ->
  len msg < 2 ^ 31 ->
  (0 < k < length (frame msg))%nat ->
  (length msgs < fuel)%nat ->
  serverStreamingRequest fuel chunks = Some msgs /\
  last (nexts (S (length msgs)) (NewMessageReader (concat chunks))) = Some ErrUnexpectedEOF.
Proof.
  intros Heq Hlen Hmsg Hk Hfuel. split.
  - unfold serverStreamingRequest.
    apply (receive_frames _ _ _ _ (take k (frame msg))); try done.
    + by rewrite Heq, sent_frames.
    + apply partial_frame_stable; [done | lia].
    + intros ->. simpl in Heq. symmetry in Heq.
      apply app_eq_nil in Heq as [_ Heq].
      apply (f_equal length) in Heq. rewrite length_take in Heq. simpl in Heq. lia.
  - rewrite Heq, sent_frames. unfold NewMessageReader.
    assert (Forall (fun msg => len msg < 2 ^ 32 - 4) msgs) as Hlen'
      by (eapply Forall_impl; [done | intros; simpl in *; lia]).
    pose proof (nexts_frames [] msgs (take k (frame msg)) 1 Hlen') as Hn.
    rewrite Nat.add_1_r, !app_nil_l in Hn. change (len (@nil Z)) with 0 in Hn.
    rewrite Hn. cbn [nexts]. rewrite Next_at_partial by (done || lia).
    cbn [fst]. by rewrite last_snoc.
Qed.

(** X25.  A length prefix with its high bit set hangs the client.  Read
    with 32-bit signed operators the prefix is negative; when adding 4 to
    it gives zero, or a number that counted from the end of the buffer
    falls before its start, slice returns the whole buffer again, so the
    loop hands an empty message to the subscriber and starts over on the
    same buffer: it never ends, whatever the number of iterations
    allowed. *)
Theorem client_loops_on_negative_length buffer chunks fuel :
  4 <= len buffer ->
  readLength buffer < 0 ->
  4 + readLength buffer = 0 \/ len buffer + (4 + readLength buffer) <= 0 ->
  parseMessages fuel buffer = None /\
  serverStreamingRequest fuel (buffer :: chunks) = None.
Proof.
  intros Hfour Hneg Hwhole.
  assert (slice buffer (4 + readLength buffer) None = buffer) as Hsame.
  { unfold slice. pose proof (len_nonneg buffer).
    rewrite (proj2 (Z.ltb_ge (len buffer) 0)) by lia. rewrite Z.min_l by lia.
    destruct (Z.ltb_spec (4 + readLength buffer) 0).
    - rewrite Z.max_r by lia. rewrite Z.sub_0_r, to_nat_len. by rewrite drop_0, firstn_all.
    - rewrite Z.min_l by lia.
      replace (4 + readLength buffer) with 0 by lia.
      rewrite Z.sub_0_r, to_nat_len. by rewrite drop_0, firstn_all. }
  assert (parseMessages fuel buffer = None) as Hloop.
  { induction fuel as [|fuel IH]; [done|]. cbn [parseMessages].
    rewrite (proj2 (Z.ltb_ge _ 4)) by lia.
    rewrite (proj2 (Z.ltb_ge _ _)) by lia.
    by rewrite Hsame, IH. }
  split; [done|]. unfold serverStreamingRequest. cbn [receive app]. by rewrite Hloop.
Qed.

(** X26.  The reader of the server returns what the client posted: over
    the body clientStreamingRequest builds from the messages of the
    observable, the calls of Next return the messages in order and then
    io.EOF, for messages shorter than 2^32 - 4 bytes. *)
Theorem Next_returns_what_the_client_posted msgs :
  Forall (fun msg => len msg < 2 ^ 32 - 4) msgs ->
  nexts (S (length msgs)) (NewMessageReader (requestBody msgs)) = (Message <$> msgs) ++ [EOF].
Proof.
  intros Hlen. rewrite requestBody_frames. unfold NewMessageReader.
  pose proof (nexts_frames [] msgs [] 1 Hlen) as Hn.
  rewrite Nat.add_1_r, !app_nil_l, !app_nil_r in Hn.
  change (len (@nil Z)) with 0 in Hn. rewrite Hn. f_equal.
  cbn [nexts]. by rewrite Next_at_end.
Qed.

End StreamFacts.

(** ** The CORS headers *)

Module CorsFacts.
Import Str StrFacts Cors.

Lemma originListed_spec origins origin :
  originListed origins origin = true <-> "*" ∈ origins \/ origin ∈ origins.
Proof.
  induction origins as [|o origins IH]; simpl.
  - split; [done | intros [?%elem_of_nil|?%elem_of_nil]; done].
  - destruct (decide (o = "*")) as [->|Hstar].
    + simpl. split; [intros _; left; by left | done].
    + rewrite (bool_decide_eq_false_2 (o = "*")) by done. simpl.
      destruct (decide (o = origin)) as [->|Hne].
      * rewrite bool_decide_eq_true_2 by done. split; [intros _; right; by left | done].
      * rewrite bool_decide_eq_false_2 by done. rewrite IH, !elem_of_cons. split.
        -- intros [?|?]; auto.
        -- intros [[?|?]|[?|?]]; auto; congruence.
Qed.

(** X27.  applyCORS never sends the wildcard origin together with
    credentials: on a response that carries no credentials header yet, and
    for a request whose Origin header is not itself "*", a response that
    leaves with Access-Control-Allow-Origin "*" leaves without
    Access-Control-Allow-Credentials. *)
Theorem applyCORS_never_pairs_wildcard_with_credentials h origin cors :
  h !! "Access-Control-Allow-Credentials" = None ->
  origin <> "*" ->
  applyCORS h origin cors !! "Access-Control-Allow-Origin" = Some "*" ->
  applyCORS h origin cors !! "Access-Control-Allow-Credentials" = None.
Proof.
  intros Hnone Hstar. unfold applyCORS, Set_.
  assert (forall (h1 : Header) v w,
            <["Access-Control-Allow-Headers" := v]>
              (<["Access-Control-Allow-Methods" := w]> h1)
              !! "Access-Control-Allow-Origin" = h1 !! "Access-Control-Allow-Origin" /\
            <["Access-Control-Allow-Headers" := v]>
              (<["Access-Control-Allow-Methods" := w]> h1)
              !! "Access-Control-Allow-Credentials" = h1 !! "Access-Control-Allow-Credentials")
    as Hlast.
  { intros h1 v w. by rewrite !lookup_insert_ne by done. }
  assert (forall h1 : Header,
            <["Access-Control-Allow-Credentials" := "true"]>
              (<["Access-Control-Allow-Origin" := origin]> h1)
              !! "Access-Control-Allow-Origin" <> Some "*") as Hreflect.
  { intros h1. rewrite lookup_insert_ne by done. rewrite lookup_insert_eq. congruence. }
  destruct cors as [cors|].
  - destruct (bool_decide (0 < length (AllowedHeaders cors)));
      destruct (bool_decide (origin <> ""));
      try (rewrite !(proj1 (Hlast _ _ _)), !(proj2 (Hlast _ _ _)); done).
    all: destruct (match AllowOrigin cors with
                   | Some allowOrigin => allowOrigin origin
                   | None => originListed (AllowedOrigins cors) origin
                   end);
      try (rewrite !(proj1 (Hlast _ _ _)), !(proj2 (Hlast _ _ _)); done).
    all: destruct (bool_decide (length (AllowedOrigins cors) = 1) && _);
      rewrite !(proj1 (Hlast _ _ _)), !(proj2 (Hlast _ _ _)).
    all: try (intros _; by rewrite lookup_insert_ne).
    all: intros Hbad; by apply Hreflect in Hbad.
  - destruct (bool_decide (origin <> ""));
      rewrite !(proj1 (Hlast _ _ _)), !(proj2 (Hlast _ _ _)); [|done].
    intros Hbad. by apply Hreflect in Hbad.
Qed.

(** X28.  With a list of allowed origins and no AllowOrigin function, a
    request with an Origin header is let through exactly when its origin
    or "*" is in the list.  The answer is the wildcard, without
    credentials, only when the list is exactly ["*"]; otherwise the
    origin of the request is echoed with credentials enabled, so a list
    that names "*" beside other entries lets every origin through with
    credentials.  An origin that is not let through gets neither
    header. *)
Theorem applyCORS_allowed_origins origin origins headers :
  origin <> "" ->
  let response := applyCORS ∅ origin (Some (mkCORSConfig origins None headers)) in
  if bool_decide ("*" ∈ origins \/ origin ∈ origins) then
    if bool_decide (origins = ["*"]) then
      response !! "Access-Control-Allow-Origin" = Some "*" /\
      response !! "Access-Control-Allow-Credentials" = None
    else
      response !! "Access-Control-Allow-Origin" = Some origin /\
      response !! "Access-Control-Allow-Credentials" = Some "true"
  else
    response !! "Access-Control-Allow-Origin" = None /\
    response !! "Access-Control-Allow-Credentials" = None.
Proof.
  intros Horigin response. subst response. unfold applyCORS, Set_.
  cbn [AllowOrigin AllowedOrigins AllowedHeaders].
  rewrite (bool_decide_eq_true_2 (origin <> "")) by done.
  assert (forall (h1 : Header) v w k,
            k <> "Access-Control-Allow-Headers" -> k <> "Access-Control-Allow-Methods" ->
            <["Access-Control-Allow-Headers" := v]>
              (<["Access-Control-Allow-Methods" := w]> h1) !! k = h1 !! k) as Hlast.
  { intros h1 v w k H1 H2. by rewrite !lookup_insert_ne by done. }
  assert (forall h1 : Header,
            (if bool_decide (0 < length headers)
             then <["Access-Control-Allow-Headers" := joinHeaders 0 headers ""]>
                    (<["Access-Control-Allow-Methods" := "POST, OPTIONS"]> h1)
             else <["Access-Control-Allow-Headers" :=
                      "Content-Type, Access-Control-Allow-Headers, Authorization, X-Requested-With, X-Rpc-Method"]>
                    (<["Access-Control-Allow-Methods" := "POST, OPTIONS"]> h1))
              !! "Access-Control-Allow-Origin" = h1 !! "Access-Control-Allow-Origin" /\
            (if bool_decide (0 < length headers)
             then <["Access-Control-Allow-Headers" := joinHeaders 0 headers ""]>
                    (<["Access-Control-Allow-Methods" := "POST, OPTIONS"]> h1)
             else <["Access-Control-Allow-Headers" :=
                      "Content-Type, Access-Control-Allow-Headers, Authorization, X-Requested-With, X-Rpc-Method"]>
                    (<["Access-Control-Allow-Methods" := "POST, OPTIONS"]> h1))
              !! "Access-Control-Allow-Credentials" = h1 !! "Access-Control-Allow-Credentials")
    as Hrest.
  { intros h1. destruct (bool_decide (0 < length headers)); by rewrite !Hlast. }
  destruct (originListed origins origin) eqn:Hlisted.
  - rewrite bool_decide_eq_true_2 by (by apply originListed_spec).
    destruct (decide (origins = ["*"])) as [->|Hne].
    + rewrite (bool_decide_eq_true_2 (["*"] = ["*"])) by done. simpl.
      rewrite (proj1 (Hrest _)), (proj2 (Hrest _)).
      by rewrite lookup_insert_eq, lookup_insert_ne, lookup_empty.
    + rewrite (bool_decide_eq_false_2 (origins = ["*"])) by done.
      assert (bool_decide (length origins = 1) && bool_decide (origins !! 0 = Some "*") = false)
        as ->.
      { apply andb_false_iff. destruct origins as [|o [|o' origins]].
        - left. by apply bool_decide_eq_false_2.
        - right. apply bool_decide_eq_false_2. simpl. congruence.
        - left. by apply bool_decide_eq_false_2. }
      rewrite (proj1 (Hrest _)), (proj2 (Hrest _)).
      by rewrite lookup_insert_eq, lookup_insert_ne, lookup_insert_eq.
  - rewrite bool_decide_eq_false_2
      by (intros Hin%originListed_spec; congruence).
    by rewrite (proj1 (Hrest _)), (proj2 (Hrest _)), !lookup_empty.
Qed.

End CorsFacts.

(** ** The callback set *)

Module CallbackSetFacts.
Import CallbackSet.

Section CallbackSetFacts.
Context {Callback : Type}.
Implicit Types (s : State Callback) (callback : Callback).

Lemma reachable_fresh s :
  reachable s -> Forall (fun entry => entry.1 < made s) (set s).
Proof.
  induction 1 as [|callback s _ IH|reference s _ IH|s _ IH]; simpl.
  - constructor.
  - apply Forall_app. split.
    + eapply Forall_impl; [exact IH|]. intros entry ?. simpl in *. lia.
    + repeat constructor.
  - apply Forall_forall. intros entry [Hin _]%list_elem_of_In%filter_In.
    by apply (proj1 (Forall_forall _ _) IH), list_elem_of_In.
  - constructor.
Qed.

Lemma filter_fresh (l : list (nat * Callback)) n :
  Forall (fun entry => entry.1 < n) l ->
  List.filter (fun entry => negb (Nat.eqb entry.1 n)) l = l.
Proof.
  induction 1 as [|entry l Hentry _ IH]; [done|]. simpl.
  rewrite (proj2 (Nat.eqb_neq _ _)) by lia. simpl. by rewrite IH.
Qed.

(** X29.  A subscription and its cancellation concern one
    registration only.  In any state of a callback set: the callback
    added is invoked after those registered before, which keep their
    order; cancelling straight away restores the list of callbacks; when
    a second callback is added before the first is cancelled, the second
    stays registered, even when both are the same function; and
    cancelling twice is the same as cancelling once. *)
Theorem unsubscribe_removes_its_own_registration s callback callback' :
  reachable s ->
  let s1 := (add callback s).2 in
  let s2 := (add callback' s1).2 in
  call s1 = call s ++ [callback] /\
  call (unsubscribe (add callback s).1 s1) = call s /\
  call (unsubscribe (add callback s).1 s2) = call s ++ [callback'] /\
  unsubscribe (add callback s).1 (unsubscribe (add callback s).1 s2)
    = unsubscribe (add callback s).1 s2.
Proof.
  intros Hs s1 s2. subst s1 s2. pose proof (reachable_fresh s Hs) as Hfresh.
  unfold call, unsubscribe, add. cbn [set made fst snd].
  rewrite <- !app_assoc, !List.filter_app, (filter_fresh _ _ Hfresh). cbn [List.filter app fst].
  rewrite Nat.eqb_refl, (proj2 (Nat.eqb_neq (S (made s)) (made s))) by lia.
  cbn [negb]. rewrite !app_nil_r, !fmap_app.
  split_and!; try done.
  rewrite (filter_fresh _ _ Hfresh). cbn [List.filter fst].
  by rewrite (proj2 (Nat.eqb_neq (S (made s)) (made s))) by lia.
Qed.

End CallbackSetFacts.
End CallbackSetFacts.

(** ** The statements at concrete route tables *)

Module Instances.
Import Str Server Client Spec Tactics.



Lemma find_trailing_slash_witness :
  let r := routerOf ["/"; "/users/:id"] in
  scenarioRouter ["/"; "/users/:id"] = Ok r /\
  (find r "/users/42").1 = Ok (Some ("/users/:id", {[ "id" := Some "42" ]})) /\
  (find r "/users").1 = Ok None /\
  (find r "/users/").1 = Ok (Some ("/users/:id", {[ "id" := None ]})) /\
  MatchPattern "/users/:id" "/users/" = None.
Proof.
  intros r.
  assert (scenarioRouter ["/"; "/users/:id"] = Ok r) as Hnew by (vm_compute; reflexivity).
  destruct (@Resolution.find_trailing_slash_reaches_required_parameter
              string _ scenarioRoutes "/" "/users/:id" eq_refl eq_refl)
    as (_ & Hfind & Hserver).
  destruct (Hfind r (reachable_new _ r Hnew)) as (Hid & Hnull & Hslash).
  split_and!; [exact Hnew | exact Hid | exact Hnull | exact Hslash | exact Hserver].
Defined.



Lemma find_trailing_optional_parameter_witness :
  let r := routerOf ["/"; "/posts/:id?"] in
  scenarioRouter ["/"; "/posts/:id?"] = Ok r /\
  (find r "/posts").1 = Ok (Some ("/posts/:id?", {[ "id" := None ]})) /\
  (find r "/posts/7").1 = Ok (Some ("/posts/:id?", {[ "id" := Some "7" ]})) /\
  (find (find r "/posts").2 "/posts").1 = Ok (Some ("/posts/:id?", {[ "id" := None ]})).
Proof.
  intros r.
  assert (scenarioRouter ["/"; "/posts/:id?"] = Ok r) as Hnew by (vm_compute; reflexivity).
  destruct (@Resolution.find_trailing_optional_parameter
              string _ scenarioRoutes "/" "/posts/:id?" eq_refl eq_refl)
    as (_ & Hfind).
  pose proof (reachable_new _ r Hnew) as Hr.
  destruct (Hfind r Hr) as (Habsent & Hseven).
  destruct (Hfind _ (reachable_find _ r "/posts" Hr)) as (Hagain & _).
  split_and!; [exact Hnew | exact Habsent | exact Hseven | exact Hagain].
Defined.


Lemma SubstituteParams_replaces_and_flags_witness :
  (forall key entries, (fun (_ : string) (l : list (string * string)) => l) key entries ≡ₚ entries) /\
  SubstituteParams (fun _ l => l) (Some {[ "k" := ":id-comments" ]}) {[ "id" := "42" ]}
    = Some {[ "k" := "42-comments" ]} /\
  SubstituteParams (fun _ l => l) (Some {[ "k" := ":missing" ]}) {[ "id" := "42" ]}
    = Some {[ "k" := ":missing" ]} /\
  HasUnsubstitutedParam (Some {[ "k" := ":missing" ]}) = true.
Proof.
  assert (forall key entries,
            (fun (_ : string) (l : list (string * string)) => l) key entries ≡ₚ entries)
    as Hperm by reflexivity.
  split; [exact Hperm|].
  destruct (ServerFacts.SubstituteParams_replaces_and_flags (fun _ l => l) Hperm)
    as (_ & _ & _ & _ & _ & _ & Hcomments & Hmissing & Hflag & _).
  by split_and!.
Defined.

Lemma failed_find_leaves_cache_witness :
  let r := routerOf ["/"; "/users/:id"] in
  scenarioRouter ["/"; "/users/:id"] = Ok r /\
  (forall metadata, (find r "/nowhere").1 <> Ok (Some metadata)) /\
  (find r "/nowhere").2 = r /\
  metadataCache (find r "/nowhere").2 = metadataCache r.
Proof.
  intros r. split; [vm_compute; reflexivity|].
  assert (forall metadata, (find r "/nowhere").1 <> Ok (Some metadata)) as Hfail.
  { intros metadata.
    assert ((find r "/nowhere").1 = Ok None) as -> by (vm_compute; reflexivity).
    discriminate. }
  split; [exact Hfail|].
  exact (Resolution.failed_find_leaves_cache r "/nowhere" Hfail).
Defined.

Lemma url_empty_string_is_absent_witness :
  let r := routerOf ["/"; "/users/:id"; "/posts/:id?"] in
  scenarioRouter ["/"; "/users/:id"; "/posts/:id?"] = Ok r /\
  (forall queryParams,
     url (fun v : string => v) (fun s => s) (fun k => k)
       r "/users/:id" {[ "id" := Some "" ]} queryParams
     = Throw (MissingRequiredParameter "id" "/users/:id")) /\
  scenarioUrl r "/posts/:id?" {[ "id" := Some "" ]} = Ok (urlText ["posts"]).
Proof.
  intros r. split; [vm_compute; reflexivity|]. split.
  - refine (proj2 (proj2 (UrlClaims.url_empty_string_is_absent
             (fun v : string => v) (fun s => s) (fun k => k)
             r "/users/:id" {[ "id" := Some "" ]})) ["users"] ":id" [] ["users"] _ _ _ _ _).
    + by_decide.
    + vm_compute. reflexivity.
    + repeat constructor.
    + reflexivity.
    + vm_compute. reflexivity.
  - refine (proj2 (proj2 (UrlClaims.url_empty_string_is_absent
             (fun v : string => v) (fun s => s) (fun k => k)
             r "/posts/:id?" {[ "id" := Some "" ]})) ["posts"] ":id?" [] ["posts"] _ _ _ _ _).
    + by_decide.
    + vm_compute. reflexivity.
    + repeat constructor.
    + reflexivity.
    + vm_compute. reflexivity.
Defined.

Lemma find_commits_to_static_edge_witness :
  let r := routerOf ["/"; "/a/:x"; "/a/b/c"] in
  scenarioRouter ["/"; "/a/:x"; "/a/b/c"] = Ok r /\
  find r "/a/b" = (Ok None, r) /\
  (find r "/a/z").1 = Ok (Some ("/a/:x", {[ "x" := Some "z" ]})) /\
  MatchPattern "/a/:x" "/a/b" = Some {[ "x" := "b" ]}.
Proof.
  intros r.
  assert (scenarioRouter ["/"; "/a/:x"; "/a/b/c"] = Ok r) as Hnew
    by (vm_compute; reflexivity).
  destruct (proj2 (@Resolution.find_commits_to_static_edge string _ scenarioRoutes)
              "/" "/a/:x" "/a/b/c" eq_refl eq_refl eq_refl)
    as (_ & Hfind & Hserver).
  destruct (Hfind r (reachable_new _ r Hnew)) as (Hnull & Hz).
  split_and!; [exact Hnew | exact Hnull | exact Hz | exact Hserver].
Defined.

End Instances.

(** ** The further statements at concrete inputs *)

Module Examples.
Import Str Server Client Spec Tactics Registration Engine EngineScenario Wire Stream
  Transport Framing Cors CallbackSet.

Lemma MatchPattern_segment_count_witness :
  MatchPattern "/users/:id/posts/:page?" "/users/7/posts" = Some {[ "id" := "7" ]} /\
  length (List.filter (fun p => negb (isOptionalParam p)) (SplitPath "/users/:id/posts/:page?"))
    <= length (SplitPath "/users/7/posts") /\
  length (SplitPath "/users/7/posts") <= length (SplitPath "/users/:id/posts/:page?").
Proof.
  assert (MatchPattern "/users/:id/posts/:page?" "/users/7/posts" = Some {[ "id" := "7" ]})
    as Hm by (vm_compute; reflexivity).
  split; [exact Hm|].
  exact (MatcherFacts.MatchPattern_segment_count _ _ _ Hm).
Defined.

Lemma MatchPattern_bindings_witness :
  MatchPattern "/users/:id/posts/:page?" "/users/7/posts" = Some {[ "id" := "7" ]} /\
  (forall k v, ({[ "id" := "7" ]} : gmap string string) !! k = Some v ->
     k ∈ paramNames (SplitPath "/users/:id/posts/:page?") /\
     v ∈ SplitPath "/users/7/posts" /\ mem "/" v = false) /\
  is_Some (({[ "id" := "7" ]} : gmap string string) !! paramNameOf ":id").
Proof.
  assert (MatchPattern "/users/:id/posts/:page?" "/users/7/posts" = Some {[ "id" := "7" ]})
    as Hm by (vm_compute; reflexivity).
  split; [exact Hm|].
  destruct (MatcherFacts.MatchPattern_bindings _ _ _ Hm) as [Hkeys Hbound].
  split; [exact Hkeys|].
  apply Hbound; [by_decide | reflexivity | reflexivity].
Defined.

Lemma literal_params_always_invoked_witness :
  subcallDecision (fun _ l => l) (mkRpcSpec "GetItems" (Some {[ "limit" := "10" ]}))
    {[ "id" := "42" ]}
  = Invoke "GetItems" (Some {[ "limit" := "10" ]}).
Proof.
  apply MatcherFacts.literal_params_always_invoked.
  intros m k v [= <-] Hk. apply lookup_singleton_Some in Hk as [_ <-]. reflexivity.
Defined.

Lemma colon_in_route_parameter_skips_witness :
  MatchPattern "/files/:name" "/files/a:b" = Some {[ "name" := "a:b" ]} /\
  subcallDecision (fun _ l => l) (mkRpcSpec "GetFile" (Some {[ "file" := ":name" ]}))
    {[ "name" := "a:b" ]}
  = Skip.
Proof.
  split; [vm_compute; reflexivity|].
  apply (MatcherFacts.colon_in_route_parameter_skips _ _ _ "file" ":name").
  - reflexivity.
  - reflexivity.
  - reflexivity.
  - reflexivity.
Defined.

Lemma registering_a_route_again_witness :
  let routes := ["/"; "/users/:id"] in
  scenarioRouter routes = Ok (routerOf routes) /\
  addRouteToTree (tree (routerOf routes)) "/users/:id" = Ok (tree (routerOf routes)) /\
  scenarioRouter (routes ++ ["/users/:id"])
    = Ok (mkRouter (tree (routerOf routes)) (routes ++ ["/users/:id"]) ∅).
Proof.
  intros routes.
  assert (scenarioRouter routes = Ok (routerOf routes)) as Hnew by (vm_compute; reflexivity).
  split; [exact Hnew|].
  apply (@RegistrationFacts.registering_a_route_again_changes_nothing
           string _ scenarioRoutes routes (routerOf routes) "/users/:id" Hnew).
  by_decide.
Defined.

Lemma parameter_keys_agree_witness :
  let routes := ["/"; "/a/:x/b"; "/a/:x?/c"] in
  scenarioRouter routes = Ok (routerOf routes) /\
  dynamicKey ":x" = dynamicKey ":x?" /\
  scenarioRouter ["/"; "/a/:x/b"; "/a/:y/c"] = Throw (ConflictingDynamicSegments ":x" ":y").
Proof.
  intros routes.
  assert (scenarioRouter routes = Ok (routerOf routes)) as Hnew by (vm_compute; reflexivity).
  split; [exact Hnew|]. split; [|vm_compute; reflexivity].
  apply (@RegistrationFacts.parameter_keys_agree
           string _ scenarioRoutes routes (routerOf routes) "/a/:x/b" "/a/:x?/c"
           ["a"] ":x" ["b"] ["a"] ":x?" ["c"] Hnew).
  - by_decide.
  - by_decide.
  - vm_compute. reflexivity.
  - vm_compute. reflexivity.
  - reflexivity.
  - reflexivity.
  - reflexivity.
Defined.

Lemma newRouter_distinct_shapes_witness :
  let routes := ["/"; "/a/:x"; "/b"] in
  scenarioRouter routes = Ok (routerOf routes) /\
  "/a/:x" = "/a/:x" /\
  scenarioRouter ["/"; "/a/:x"; "/a/:x?"] = Throw (ConflictingRoutes "/a/:x?").
Proof.
  intros routes.
  assert (scenarioRouter routes = Ok (routerOf routes)) as Hnew by (vm_compute; reflexivity).
  split; [exact Hnew|]. split; [|vm_compute; reflexivity].
  apply (@RegistrationFacts.newRouter_distinct_shapes
           string _ scenarioRoutes routes (routerOf routes) "/a/:x" "/a/:x" Hnew).
  - by_decide.
  - by_decide.
  - reflexivity.
Defined.

Lemma later_route_cannot_end_on_claimed_node_witness :
  let routes := ["/"; "/a"; "/a/:x?"] in
  scenarioRouter routes = Ok (routerOf routes) /\
  (claims (parts "/a") (edgeOf <$> parts "/a/:x?") -> False) /\
  claims (parts "/a/:x?") (edgeOf <$> parts "/a") /\
  scenarioRouter ["/"; "/a/:x?"; "/a"] = Throw (ConflictingRoutes "/a").
Proof.
  intros routes.
  assert (scenarioRouter routes = Ok (routerOf routes)) as Hnew by (vm_compute; reflexivity).
  split; [exact Hnew|]. split_and!.
  - apply (@RegistrationFacts.later_route_cannot_end_on_claimed_node
             string _ scenarioRoutes routes (routerOf routes) 1 2 "/a" "/a/:x?" Hnew).
    + by_decide.
    + reflexivity.
    + reflexivity.
    + lia.
  - right. exists ["a"], ":x?", []. split_and!; reflexivity.
  - vm_compute. reflexivity.
Defined.



Lemma cache_is_transparent_witness :
  let routes := ["/"; "/users/:id"] in
  let r0 := routerOf routes in
  scenarioRouter routes = Ok r0 /\
  metadataCache (find r0 "/users/1").2 !! "/users/1"
    = Some ("/users/:id", {[ "id" := Some "1" ]}) /\
  (find (find r0 "/users/1").2 "/users/1").1 = (find r0 "/users/1").1.
Proof.
  intros routes r0.
  assert (scenarioRouter routes = Ok r0) as Hnew by (vm_compute; reflexivity).
  split; [exact Hnew|]. split; [vm_compute; reflexivity|].
  apply (@LookupFacts.cache_is_transparent string _ scenarioRoutes routes r0 _ "/users/1" Hnew).
  apply reachable_find. by apply reachable_new.
Defined.


Lemma url_is_accepted_by_server_witness :
  let routes := ["/"; "/posts/:id?"; "/users/:id"] in
  scenarioRouter routes = Ok (routerOf routes) /\
  (exists serverParams,
      scenarioUrl (routerOf routes) "/users/:id" {[ "id" := Some "42" ]}
        = Ok (urlText ["users"; "42"]) /\
      MatchPattern "/users/:id" (urlText ["users"; "42"]) = Some serverParams /\
      forall k, serverParams !! k =
                if decide (k ∈ paramNames ["users"; ":id"])
                then valueAt {[ "id" := Some "42" ]} k else None) /\
  (exists serverParams,
      scenarioUrl (routerOf routes) "/posts/:id?" ∅ = Ok (urlText ["posts"]) /\
      MatchPattern "/posts/:id?" (urlText ["posts"]) = Some serverParams /\
      forall k, serverParams !! k =
                if decide (k ∈ paramNames ["posts"]) then valueAt ∅ k else None).
Proof.
  intros routes. split; [vm_compute; reflexivity|]. split.
  - refine (@LinkFacts.url_is_accepted_by_server string _ scenarioRoutes string
              (fun v : string => v) (fun s => s) (fun k => k)
              (routerOf routes) "/users/:id" {[ "id" := Some "42" ]}
              ["users"; ":id"] [] ["users"; "42"] _ _ _ _ _ _ _).
    + by_decide.
    + by_decide.
    + vm_compute. reflexivity.
    + repeat constructor; vm_compute; try reflexivity; discriminate.
    + repeat constructor; intros _; reflexivity.
    + reflexivity.
    + by left.
  - refine (@LinkFacts.url_is_accepted_by_server string _ scenarioRoutes string
              (fun v : string => v) (fun s => s) (fun k => k)
              (routerOf routes) "/posts/:id?" ∅
              ["posts"] [":id?"] ["posts"] _ _ _ _ _ _ _).
    + by_decide.
    + by_decide.
    + vm_compute. reflexivity.
    + repeat constructor.
    + repeat constructor; intros [=].
    + reflexivity.
    + right. exists ":id?", []. split; [reflexivity | by left].
Defined.

(** *** The preload engine *)

Lemma executeForPath_entries_witness :
  let run := executeForPath (fun msg : string => msg) examplePreload (fun _ _ l => l)
               (fun l => l) exampleRoutes "/users/7" in
  run !! "GetUser" = Some (mkPreloadedRpc "" "GetUser") /\
  run !! "GetPosts" = None /\
  run !! "GetTeam" = None /\
  is_Some (run !! "GetUser").
Proof.
  intros run. split_and!; [vm_compute; reflexivity..|].
  pose proof (@EngineFacts.executeForPath_entries string (fun msg => msg) examplePreload
                (fun _ _ l => l) (fun l => l) exampleRoutes "/users/7"
                (fun l => reflexivity l)) as Hentries.
  assert (MatchRoute exampleRoutes "/users/7"
          = Some (mkRouteSpec "/users/:id"
                    [ mkRpcSpec "GetUser" (Some {[ "id" := ":id" ]});
                      mkRpcSpec "GetPosts" None;
                      mkRpcSpec "GetTeam" (Some {[ "team" := ":team" ]}) ],
                  {[ "id" := "7" ]})) as Hmatch by (vm_compute; reflexivity).
  rewrite Hmatch in Hentries. destruct Hentries as [_ Hin].
  apply (Hin 0 (mkRpcSpec "GetUser" (Some {[ "id" := ":id" ]})) "GetUser"
           (mkPreloadedRpc "" "GetUser")).
  - reflexivity.
  - vm_compute. reflexivity.
Defined.

Lemma executeForPath_schedule_independent_witness :
  executeForPath (fun msg : string => msg) examplePreload (fun _ _ l => l)
    (fun l => l) exampleRoutes "/users/7"
  = executeForPath (fun msg : string => msg) examplePreload (fun _ _ l => l)
      reverse exampleRoutes "/users/7".
Proof.
  apply EngineFacts.executeForPath_schedule_independent.
  - intros l. reflexivity.
  - intros l. apply reverse_Permutation.
  - intros route routeParams Hmatch.
    assert (route = mkRouteSpec "/users/:id"
                      [ mkRpcSpec "GetUser" (Some {[ "id" := ":id" ]});
                        mkRpcSpec "GetPosts" None;
                        mkRpcSpec "GetTeam" (Some {[ "team" := ":team" ]}) ]) as ->.
    { assert (MatchRoute exampleRoutes "/users/7"
              = Some (mkRouteSpec "/users/:id"
                        [ mkRpcSpec "GetUser" (Some {[ "id" := ":id" ]});
                          mkRpcSpec "GetPosts" None;
                          mkRpcSpec "GetTeam" (Some {[ "team" := ":team" ]}) ],
                      {[ "id" := "7" ]})) as Hm by (vm_compute; reflexivity).
      rewrite Hm in Hmatch. by injection Hmatch as <- _. }
    by_decide.
Defined.

(** *** Length-prefixed messages *)

Local Open Scope Z_scope.

Lemma Next_returns_what_Send_wrote_witness :
  sent [[1; 2; 3]; []; [255]] = [0; 0; 0; 3; 1; 2; 3; 0; 0; 0; 0; 0; 0; 0; 1; 255] /\
  nexts 4 (NewMessageReader (sent [[1; 2; 3]; []; [255]]))
  = [Message [1; 2; 3]; Message []; Message [255]; EOF].
Proof.
  split; [reflexivity|].
  apply (StreamFacts.Next_returns_what_Send_wrote [[1; 2; 3]; []; [255]]).
  repeat constructor.
Defined.

Lemma Next_reports_a_truncated_stream_witness :
  sent [[1; 2]] ++ take 5 (frame [7; 8; 9]) = [0; 0; 0; 2; 1; 2; 0; 0; 0; 3; 7] /\
  nexts 3 (NewMessageReader (sent [[1; 2]] ++ take 5 (frame [7; 8; 9])))
  = [Message [1; 2]; ErrUnexpectedEOF; ErrUnexpectedEOF].
Proof.
  split; [reflexivity|].
  apply (StreamFacts.Next_reports_a_truncated_stream [[1; 2]] [7; 8; 9] 5).
  - repeat constructor.
  - reflexivity.
  - simpl. lia.
Defined.

Lemma Next_is_safe_witness :
  let r := mkMessageReader [0; 0; 0; 2; 10; 11; 0; 0] 0 in
  (Next r).1 = Message [10; 11] /\
  (Next r).1 <> Panic /\
  data (Next r).2 = data r /\
  offset (Next r).2 = 6 /\
  (Next (Next r).2).1 = ErrUnexpectedEOF /\
  (Next (Next r).2).2 = (Next r).2.
Proof.
  intros r.
  assert (bytes (data r)) as Hbytes by (repeat constructor; lia).
  destruct (StreamFacts.Next_is_safe r ltac:(vm_compute; discriminate) Hbytes
              ltac:(reflexivity))
    as (Hpanic & Hdata & _).
  assert (bytes (data (Next r).2)) as Hbytes' by (repeat constructor; lia).
  destruct (StreamFacts.Next_is_safe (Next r).2 ltac:(vm_compute; discriminate) Hbytes'
              ltac:(reflexivity))
    as (_ & _ & Hsame).
  split_and!; [reflexivity | exact Hpanic | exact Hdata | reflexivity | reflexivity
              | exact Hsame].
Defined.

Lemma client_reads_what_Send_wrote_witness :
  concat [[0; 0]; [0; 2; 10]; [11; 0; 0; 0; 0]] = sent [[10; 11]; []] /\
  serverStreamingRequest 3 [[0; 0]; [0; 2; 10]; [11; 0; 0; 0; 0]] = Some [[10; 11]; []].
Proof.
  split; [reflexivity|].
  apply StreamFacts.client_reads_what_Send_wrote.
  - reflexivity.
  - repeat constructor.
  - simpl. lia.
Defined.

Lemma client_drops_an_unfinished_frame_witness :
  concat [[0; 0; 0; 1; 5; 0; 0]; [0]] = sent [[5]] ++ take 3 (frame [9; 9]) /\
  serverStreamingRequest 2 [[0; 0; 0; 1; 5; 0; 0]; [0]] = Some [[5]] /\
  last (nexts 2 (NewMessageReader (concat [[0; 0; 0; 1; 5; 0; 0]; [0]])))
    = Some ErrUnexpectedEOF.
Proof.
  split; [reflexivity|].
  apply (StreamFacts.client_drops_an_unfinished_frame
           [[0; 0; 0; 1; 5; 0; 0]; [0]] [[5]] [9; 9] 3 2).
  - reflexivity.
  - repeat constructor.
  - reflexivity.
  - simpl. lia.
  - simpl. lia.
Defined.

Lemma client_loops_on_negative_length_witness :
  readLength [128; 0; 0; 0] = - 2 ^ 31 /\
  forall fuel,
    parseMessages fuel [128; 0; 0; 0] = None /\
    serverStreamingRequest fuel [[128; 0; 0; 0]] = None.
Proof.
  split; [reflexivity|]. intros fuel.
  apply (StreamFacts.client_loops_on_negative_length [128; 0; 0; 0] [] fuel).
  - unfold len. simpl. lia.
  - reflexivity.
  - right. unfold len. simpl. intros [=].
Defined.

Lemma Next_returns_what_the_client_posted_witness :
  requestBody [[1; 2; 3]; [4]] = [0; 0; 0; 3; 1; 2; 3; 0; 0; 0; 1; 4] /\
  nexts 3 (NewMessageReader (requestBody [[1; 2; 3]; [4]]))
  = [Message [1; 2; 3]; Message [4]; EOF].
Proof.
  split; [reflexivity|].
  apply (StreamFacts.Next_returns_what_the_client_posted [[1; 2; 3]; [4]]).
  repeat constructor.
Defined.

Local Close Scope Z_scope.

(** *** The CORS headers *)

Lemma applyCORS_wildcard_witness :
  let cors := Some (mkCORSConfig ["*"] None []) in
  applyCORS ∅ "https://app.example" cors !! "Access-Control-Allow-Origin" = Some "*" /\
  applyCORS ∅ "https://app.example" cors !! "Access-Control-Allow-Credentials" = None.
Proof.
  intros cors.
  assert (applyCORS ∅ "https://app.example" cors !! "Access-Control-Allow-Origin" = Some "*")
    as Hstar by (vm_compute; reflexivity).
  split; [exact Hstar|].
  apply CorsFacts.applyCORS_never_pairs_wildcard_with_credentials.
  - reflexivity.
  - discriminate.
  - exact Hstar.
Defined.

Lemma applyCORS_allowed_origins_witness :
  let response :=
    applyCORS ∅ "https://other.example"
      (Some (mkCORSConfig ["*"; "https://app.example"] None [])) in
  response !! "Access-Control-Allow-Origin" = Some "https://other.example" /\
  response !! "Access-Control-Allow-Credentials" = Some "true".
Proof.
  intros response.
  exact (CorsFacts.applyCORS_allowed_origins "https://other.example"
           ["*"; "https://app.example"] [] ltac:(discriminate)).
Defined.

(** *** The callback set *)

Lemma unsubscribe_removes_its_own_registration_witness :
  let s := (add "first" createCallbackSet).2 in
  let s1 := (add "listener" s).2 in
  let s2 := (add "listener" s1).2 in
  call s1 = ["first"; "listener"] /\
  call (unsubscribe (add "listener" s).1 s1) = ["first"] /\
  call s2 = ["first"; "listener"; "listener"] /\
  call (unsubscribe (add "listener" s).1 s2) = ["first"; "listener"] /\
  unsubscribe (add "listener" s).1 (unsubscribe (add "listener" s).1 s2)
    = unsubscribe (add "listener" s).1 s2.
Proof.
  intros s s1 s2.
  assert (reachable s) as Hs by (apply reachable_add, reachable_create).
  destruct (CallbackSetFacts.unsubscribe_removes_its_own_registration
              s "listener" "listener" Hs) as (H1 & H2 & H3 & H4).
  split_and!; [exact H1 | exact H2 | reflexivity | exact H3 | exact H4].
Defined.

End Examples.
